(** * Package Order System: the client orchestration of [src/App.js]

    A shallow embedding of the React component [PackageOrderSystem]:
    its five state cells, the selection [Set], the two asynchronous
    handlers [fetchItems] and [handlePlaceOrder], the updater passed to
    [setSelectedItems] by [toggleItemSelection], the aggregate part and
    the cards of [renderPackages], the markup of the component, and the
    component in use: the mount effect, the checkboxes, the button and the
    replies, as events on a page. *)

From Stdlib Require Import ZArith String Ascii List Bool Lia DecimalString.
From Stdlib Require Import Floats.SpecFloat.
From Stdlib Require Import Decimal DecimalFacts DecimalPos DecimalN.
From stdpp Require Import base decidable option list strings gmap.

Local Open Scope Z_scope.

(** ** The JavaScript [Set], as a value

    A [Set] iterates in insertion order and holds no duplicates; it is kept
    here as the list of its elements in that order.  Element equality is
    [SameValueZero], decidable equality on the identifier type. *)

Module JsSet.
Section Ops.
Context {Id : Type} `{EqDecision Id}.

Definition t := list Id.

(** [new Set()] *)
Definition empty : t := [].

(** [s.has(x)] *)
Definition has (x : Id) (s : t) : bool := bool_decide (x ∈ s).

(** [s.add(x)]: a new element goes last, a present one keeps its place. *)
Definition add (x : Id) (s : t) : t := if has x s then s else s ++ [x].

(** [s.delete(x)] *)
Definition delete (x : Id) (s : t) : t := filter (λ y, y ≠ x) s.

(** [s.size] *)
Definition size (s : t) : nat := length s.

(** [Array.from(s)]: the elements in iteration order. *)
Definition array_from (s : t) : list Id := s.

(** [new Set(s)]: iterating [s] and adding each element to a fresh set. *)
Definition copy (s : t) : t := foldl (λ acc x, add x acc) empty s.
End Ops.
End JsSet.

(** ** Numbers

    A JavaScript number is an IEEE 754 binary64 value: [spec_float] with a
    53-bit significand and exponent bound 1024, and addition that rounds to
    nearest, ties to even. *)

Definition prec : Z := 53.
Definition emax : Z := 1024.

Definition number := spec_float.

Global Instance number_eq_dec : EqDecision number.
Proof. unfold number. solve_decision. Defined.

(** [a + b] on numbers *)
Definition num_add (a b : number) : number := SFadd prec emax a b.

(** [a / b] on numbers *)
Definition num_div (a b : number) : number := SFdiv prec emax a b.

(** The number written as the integer literal [n] (exact below [2^53]). *)
Definition num_of_Z (n : Z) : number := binary_normalize prec emax n 0 false.

(** The number written as the decimal literal [m / 10^k]: both operands are
    exact for [|m| < 2^53] and [k <= 22], and IEEE division rounds the
    quotient correctly. *)
Definition decimal (m : Z) (k : nat) : number :=
  num_div (num_of_Z m) (num_of_Z (10 ^ Z.of_nat k)).

(** ** Data model and component state *)

Section Component.
Context {Id : Type} `{EqDecision Id}.

(** An entry of [GET /products]. *)
Record Item := {
  item_id : Id;
  item_name : string;
  item_price : number;
  item_weight : number
}.

(** An entry of [data.packages] in the reply of [POST /orders/calculate];
    its numeric members are JSON numbers, as the interface gives them. *)
Record Package := {
  pkg_items : list string;
  totalWeight : number;
  totalPrice : number;
  courierPrice : number
}.

(** The five [useState] cells of the component. [None] is [null]. *)
Record State := {
  items : list Item;
  selectedItems : JsSet.t (Id := Id);
  packages : option (list Package);
  loading : bool;
  error : option string
}.

(** The values given to [useState] on the first render. *)
Definition initial : State :=
  {| items := [];
     selectedItems := JsSet.empty;
     packages := None;
     loading := false;
     error := None |}.

(** A call of one of the five setters. [setSelectedItems] is only ever
    called with an updater function. *)
Inductive Update :=
| SetItems (v : list Item)
| SetSelectedItems (f : JsSet.t (Id := Id) → JsSet.t (Id := Id))
| SetPackages (v : option (list Package))
| SetLoading (v : bool)
| SetError (v : option string).

Definition apply_update (u : Update) (st : State) : State :=
  match u with
  | SetItems v =>
      {| items := v; selectedItems := selectedItems st;
         packages := packages st; loading := loading st; error := error st |}
  | SetSelectedItems f =>
      {| items := items st; selectedItems := f (selectedItems st);
         packages := packages st; loading := loading st; error := error st |}
  | SetPackages v =>
      {| items := items st; selectedItems := selectedItems st;
         packages := v; loading := loading st; error := error st |}
  | SetLoading v =>
      {| items := items st; selectedItems := selectedItems st;
         packages := packages st; loading := v; error := error st |}
  | SetError v =>
      {| items := items st; selectedItems := selectedItems st;
         packages := packages st; loading := loading st; error := v |}
  end.

(** ** The two remote calls *)

(** What a handler can catch. *)
Inductive JsError :=
| FetchRejected      (* [fetch] rejects: no response was received *)
| BodyNotJson        (* [response.json()] rejects *)
| TypeError.         (* a property read on [undefined] *)

(** The parsed body of [GET /products]. *)
Record ProductsBody := {
  pb_success : bool;
  pb_data : list Item
}.

(** The parsed body of [POST /orders/calculate]. [cb_data] is
    [data.data.packages], [None] when the body has no [data] member;
    [cb_error] is the [error] member, [None] when it is missing. *)
Record CalculateBody := {
  cb_success : bool;
  cb_data : option (list Package);
  cb_error : option string
}.

(** The outcome of [await fetch(..)] followed by [await response.json()].
    No state cell is read or written between the two, so they make one
    suspension. A body that is [null] makes the first property read throw:
    it is [Rejected TypeError]. *)
Inductive Reply (B : Type) :=
| Rejected (e : JsError)
| Parsed (data : B).
Global Arguments Rejected {B} e.
Global Arguments Parsed {B} data.

Inductive Request :=
| GetProducts                          (* fetch(`${API_BASE}/products`) *)
| PostCalculate (itemIds : list Id).   (* POST, body { itemIds } *)

(** What a run leaves outside the state cells. *)
Inductive Effect :=
| Net (r : Request)
| Console (label : string) (e : JsError).

(** ** Asynchronous handlers

    A handler is a tree of setter calls, log lines and suspensions on a
    remote call, ending normally or with a thrown error. *)
Inductive Async (A : Type) : Type :=
| Ret (a : A)
| Throw (e : JsError)
| Set_ (u : Update) (k : Async A)
| ConsoleError (label : string) (e : JsError) (k : Async A)
| AwaitProducts (k : Reply ProductsBody → Async A)
| AwaitCalculate (itemIds : list Id) (k : Reply CalculateBody → Async A).
Global Arguments Ret {A} a.
Global Arguments Throw {A} e.
Global Arguments Set_ {A} u k.
Global Arguments ConsoleError {A} label e k.
Global Arguments AwaitProducts {A} k.
Global Arguments AwaitCalculate {A} itemIds k.

Fixpoint bind {A B} (m : Async A) (f : A → Async B) : Async B :=
  match m with
  | Ret a => f a
  | Throw e => Throw e
  | Set_ u k => Set_ u (bind k f)
  | ConsoleError l e k => ConsoleError l e (bind k f)
  | AwaitProducts k => AwaitProducts (λ r, bind (k r) f)
  | AwaitCalculate ids k => AwaitCalculate ids (λ r, bind (k r) f)
  end.

(** [try { m } catch (err) { h err }] *)
Fixpoint try_catch {A} (m : Async A) (h : JsError → Async A) : Async A :=
  match m with
  | Ret a => Ret a
  | Throw e => h e
  | Set_ u k => Set_ u (try_catch k h)
  | ConsoleError l e k => ConsoleError l e (try_catch k h)
  | AwaitProducts k => AwaitProducts (λ r, try_catch (k r) h)
  | AwaitCalculate ids k => AwaitCalculate ids (λ r, try_catch (k r) h)
  end.

(** [try { m } finally { f }]: [f] runs on both exits, and an error that
    was not caught is thrown again after it. *)
Fixpoint try_finally {A} (m : Async A) (f : Async unit) : Async A :=
  match m with
  | Ret a => bind f (λ _, Ret a)
  | Throw e => bind f (λ _, Throw e)
  | Set_ u k => Set_ u (try_finally k f)
  | ConsoleError l e k => ConsoleError l e (try_finally k f)
  | AwaitProducts k => AwaitProducts (λ r, try_finally (k r) f)
  | AwaitCalculate ids k => AwaitCalculate ids (λ r, try_finally (k r) f)
  end.

Global Instance Async_ret : MRet Async := λ A a, Ret a.
Global Instance Async_bind : MBind Async := λ A B f m, bind m f.

Definition setItems (v : list Item) : Async unit := Set_ (SetItems v) (Ret tt).
Definition setSelectedItems (f : JsSet.t (Id := Id) → JsSet.t (Id := Id)) : Async unit :=
  Set_ (SetSelectedItems f) (Ret tt).
Definition setPackages (v : option (list Package)) : Async unit :=
  Set_ (SetPackages v) (Ret tt).
Definition setLoading (v : bool) : Async unit := Set_ (SetLoading v) (Ret tt).
Definition setError (v : option string) : Async unit := Set_ (SetError v) (Ret tt).
Definition console_error (label : string) (e : JsError) : Async unit :=
  ConsoleError label e (Ret tt).

(** [await fetch(url)] then [await response.json()] *)
Definition fetch_products : Async ProductsBody :=
  AwaitProducts (λ r, match r with Rejected e => Throw e | Parsed d => Ret d end).
Definition fetch_calculate (itemIds : list Id) : Async CalculateBody :=
  AwaitCalculate itemIds
    (λ r, match r with Rejected e => Throw e | Parsed d => Ret d end).
End Component.

(** ** The handlers of [App.js] *)

Section Handlers.
Context {Id : Type} `{EqDecision Id}.
Local Open Scope string_scope.
Local Open Scope list_scope.

Abbreviation Set_t := (JsSet.t (Id := Id)).
Abbreviation Handler := (Async (Id := Id) unit).

(** [data.error || 'Failed to process order']: a missing member and the
    empty string are both falsy. *)
Definition or_default (v : option string) (d : string) : string :=
  match v with
  | Some s => if bool_decide (s = "") then d else s
  | None => d
  end.

(** [fetchItems], lines 17-32. *)
Definition fetchItems : Handler :=
  try_finally
    (try_catch
       (setLoading true;;
        data ← fetch_products;
        (if pb_success data then setItems (pb_data data) else mret tt);;
        setError None)
       (λ err,
          setError (Some "Failed to load items");;
          console_error "Error fetching items:" err))
    (setLoading false).

(** The updater given to [setSelectedItems], lines 35-43. *)
Definition toggle (itemId : Id) (prev : Set_t) : Set_t :=
  let newSet := JsSet.copy prev in
  if JsSet.has itemId newSet
  then JsSet.delete itemId newSet
  else JsSet.add itemId newSet.

(** [toggleItemSelection], lines 34-44. *)
Definition toggleItemSelection (itemId : Id) : Handler :=
  setSelectedItems (toggle itemId).

(** [handlePlaceOrder], lines 46-77. The handler is created by a render
    and reads the [selectedItems] of that render. *)
Definition handlePlaceOrder (selectedItems : Set_t) : Handler :=
  if bool_decide (JsSet.size selectedItems = 0%nat) then
    setError (Some "Please select at least one item")
  else
    setLoading true;;
    setError None;;
    try_finally
      (try_catch
         (let orderItems := JsSet.array_from selectedItems in
          data ← fetch_calculate orderItems;
          if cb_success data then
            match cb_data data with
            | Some pkgs => setPackages (Some pkgs)
            | None => Throw TypeError
            end
          else
            setError (Some (or_default (cb_error data) "Failed to process order")))
         (λ err,
            setError (Some "Failed to process order");;
            console_error "Error processing order:" err))
      (setLoading false).

(** [disabled={loading || selectedItems.size === 0}] on the button. *)
Definition button_disabled (st : State (Id := Id)) : bool :=
  loading st || bool_decide (JsSet.size (selectedItems st) = 0%nat).

(** ** Running a handler *)

(** The synchronous part of a handler: every effect up to the next
    suspension or the end. *)
Fixpoint advance {A} (p : Async (Id := Id) A) (st : State (Id := Id))
    (log : list (Effect (Id := Id))) : Async A * State * list Effect :=
  match p with
  | Set_ u k => advance k (apply_update u st) log
  | ConsoleError l e k => advance k st (log ++ [Console l e])
  | AwaitProducts _ => (p, st, log ++ [Net GetProducts])
  | AwaitCalculate ids _ => (p, st, log ++ [Net (PostCalculate ids)])
  | Ret _ | Throw _ => (p, st, log)
  end.

(** The continuation of a suspended handler once its reply has come. *)
Definition resume_products {A} (p : Async (Id := Id) A)
    (r : Reply ProductsBody) : Async A :=
  match p with AwaitProducts k => k r | _ => p end.
Definition resume_calculate {A} (p : Async (Id := Id) A)
    (r : Reply CalculateBody) : Async A :=
  match p with AwaitCalculate _ k => k r | _ => p end.

(** The remote services, as far as one run is concerned. *)
Record Env := {
  products_reply : Reply (ProductsBody (Id := Id));
  calculate_reply : list Id → Reply CalculateBody
}.

(** A handler run to its end with no other handler in between. *)
Fixpoint run {A} (env : Env) (p : Async (Id := Id) A) (st : State (Id := Id))
    (log : list (Effect (Id := Id))) : (JsError + A) * State * list Effect :=
  match p with
  | Ret a => (inr a, st, log)
  | Throw e => (inl e, st, log)
  | Set_ u k => run env k (apply_update u st) log
  | ConsoleError l e k => run env k st (log ++ [Console l e])
  | AwaitProducts k =>
      run env (k (products_reply env)) st (log ++ [Net GetProducts])
  | AwaitCalculate ids k =>
      run env (k (calculate_reply env ids)) st (log ++ [Net (PostCalculate ids)])
  end.

(** A click on the button of a render of [st]. *)
Definition submit (env : Env) (st : State) : State * list Effect :=
  let '(_, st', log) := run env (handlePlaceOrder (selectedItems st)) st [] in
  (st', log).

(** The mount effect: [useEffect(() => { fetchItems(); }, [])]. *)
Definition load (env : Env) (st : State) : State * list Effect :=
  let '(_, st', log) := run env fetchItems st [] in
  (st', log).

(** A change of the checkbox of [itemId]. *)
Definition click_item (itemId : Id) (st : State) : State :=
  (advance (toggleItemSelection itemId) st []).1.2.
End Handlers.

(** ** [Number.prototype.toFixed] and [Number::toString] *)

Section Rendering.
Local Open Scope string_scope.
Local Open Scope Z_scope.

(** The decimal digits of a natural number, no leading zero; ["0"] for 0. *)
Definition digits_of (n : N) : string :=
  DecimalString.NilZero.string_of_uint (N.to_uint n).

(** [k] copies of the character [c]. *)
Fixpoint repeat_char (c : ascii) (k : nat) : string :=
  match k with
  | O => ""
  | S k' => String c (repeat_char c k')
  end.

Fixpoint take_string (k : nat) (s : string) : string :=
  match k, s with
  | S k', String c s' => String c (take_string k' s')
  | _, _ => ""
  end.

Fixpoint drop_string (k : nat) (s : string) : string :=
  match k, s with
  | S k', String _ s' => drop_string k' s'
  | _, _ => s
  end.

(** The integer [n] nearest to [m * 2^e * 10^f], the larger one on a tie:
    [floor (m * 2^e * 10^f + 1/2)]. *)
Definition round_scaled (f : nat) (m : positive) (e : Z) : Z :=
  let scaled := Z.pos m * 10 ^ Z.of_nat f in
  if 0 <=? e then scaled * 2 ^ e
  else (2 * scaled + 2 ^ (- e)) / (2 * 2 ^ (- e)).

(** [10^21 <= m * 2^e] *)
Definition at_least_1e21 (m : positive) (e : Z) : bool :=
  if 0 <=? e then 10 ^ 21 <=? Z.pos m * 2 ^ e
  else 10 ^ 21 * 2 ^ (- e) <=? Z.pos m.

(** Steps 11.b and 11.c of [toFixed]: the digits of [n], padded with
    zeros to [f + 1] characters, with a point before the last [f]. *)
Definition fixed_digits (f : nat) (n : Z) : string :=
  let m := digits_of (Z.to_N n) in
  let k := String.length m in
  let m := if bool_decide (k ≤ f)%nat then repeat_char "0" (f + 1 - k) ++ m else m in
  let k := String.length m in
  if bool_decide (f = 0%nat) then m
  else take_string (k - f) m ++ "." ++ drop_string (k - f) m.

(** [Number::toString] of a finite [x >= 10^21], given as the integer
    [X]: the shortest digit string [s] (of [k] digits, at most 17) such
    that [s * 10^(n-k)] reads back as the same number, the closest to [X]
    when several of that length do; written [d.ddde+(n-1)]. *)
Definition reads_back (X : Z) (v : Z) : bool :=
  bool_decide (num_of_Z v = num_of_Z X).

Definition candidates (X : Z) (k n : Z) : list Z :=
  let p := 10 ^ (n - k) in
  filter (λ s, 10 ^ (k - 1) ≤ s < 10 ^ k ∧ reads_back X (s * p) = true)
         [X / p; X / p + 1].

Definition closest (X p : Z) (ss : list Z) : option Z :=
  foldl (λ best s,
           match best with
           | None => Some s
           | Some b => if Z.abs (s * p - X) <? Z.abs (b * p - X)
                       then Some s else Some b
           end) None ss.

Fixpoint shortest (X : Z) (d : Z) (k : Z) (fuel : nat) : option (Z * Z) :=
  match fuel with
  | O => None
  | S fuel' =>
      match closest X (10 ^ (d - k)) (candidates X k d),
            closest X (10 ^ (d + 1 - k)) (candidates X k (d + 1)) with
      | Some s, _ => Some (s, d)
      | None, Some s => Some (s, d + 1)
      | None, None => shortest X d (k + 1) fuel'
      end
  end.

Definition exponential (s n : Z) : string :=
  let ds := digits_of (Z.to_N s) in
  let e := "e+" ++ digits_of (Z.to_N (n - 1)) in
  match ds with
  | String c "" => String c e
  | String c rest => String c ("." ++ rest ++ e)
  | "" => e
  end.

Definition toString_large (X : Z) : string :=
  let d := Z.of_nat (String.length (digits_of (Z.to_N X))) in
  match shortest X d 1 17 with
  | Some (s, n) => exponential s n
  | None => digits_of (Z.to_N X)
  end.

(** [x.toFixed(f)] for [0 <= f <= 100]. *)
Definition toFixed (f : nat) (x : number) : string :=
  match x with
  | S754_nan => "NaN"
  | S754_infinity false => "Infinity"
  | S754_infinity true => "-Infinity"
  | S754_zero _ => fixed_digits f 0
  | S754_finite sx m e =>
      let s := if sx then "-" else "" in
      if at_least_1e21 m e then s ++ toString_large (Z.pos m * 2 ^ e)
      else s ++ fixed_digits f (round_scaled f m e)
  end.

(** [Number(v)] of a value that is a number already. *)
Definition Number (v : number) : number := v.

(** ** The aggregate part of [renderPackages] *)

(** Of the markup of [renderPackages], lines 79-137, the heading (the
    count and its plural mark) and the total of the courier charges; the
    card of each package is markup only. *)
Record Aggregate := {
  package_count : nat;
  plural_mark : string;
  total_courier_charges : string
}.

(** [packages.reduce((sum, pkg) => sum + Number(pkg.courierPrice), 0)] *)
Definition courier_sum (pkgs : list Package) : number :=
  foldl (λ sum pkg, num_add sum (Number (courierPrice pkg))) (S754_zero false) pkgs.

Definition renderPackages (packages : option (list Package)) : option Aggregate :=
  match packages with
  | None => None
  | Some pkgs =>
      Some {| package_count := length pkgs;
              plural_mark := if bool_decide (length pkgs ≠ 1%nat) then "s" else "";
              total_courier_charges := "$" ++ toFixed 2 (courier_sum pkgs) |}
  end.
End Rendering.

(** ** The [Set] objects of the updater, with their identity

    [new Set(prev)] allocates an object; [delete] and [add] mutate the
    object they are called on. The store maps each allocated [Set] to its
    elements; a state cell or a variable holds a reference. *)

Module SetStore.
Section Objects.
Context {Id : Type} `{EqDecision Id}.

Definition ref := positive.
Abbreviation store := (gmap positive (list Id)).

(** A computation on the store. *)
Definition Mem (A : Type) : Type := store → A * store.

Global Instance Mem_ret : MRet Mem := λ A a σ, (a, σ).
Global Instance Mem_bind : MBind Mem :=
  λ A B f m σ, let '(a, σ') := m σ in f a σ'.

(** The elements of the object behind [r]. *)
Definition elements_of (r : ref) (σ : store) : list Id := default [] (σ !! r).

(** [new Set(src)] *)
Definition new_Set (src : ref) : Mem ref :=
  λ σ, let r := fresh (dom σ) in
       (r, <[r := JsSet.copy (elements_of src σ)]> σ).

(** [s.has(x)] *)
Definition has (s : ref) (x : Id) : Mem bool :=
  λ σ, (JsSet.has x (elements_of s σ), σ).

(** [s.delete(x)] *)
Definition delete (s : ref) (x : Id) : Mem unit :=
  λ σ, (tt, alter (JsSet.delete x) s σ).

(** [s.add(x)] *)
Definition add (s : ref) (x : Id) : Mem unit :=
  λ σ, (tt, alter (JsSet.add x) s σ).

(** The updater of [toggleItemSelection], lines 35-43, on references. *)
Definition updater (itemId : Id) (prev : ref) : Mem ref :=
  newSet ← new_Set prev;
  present ← has newSet itemId;
  (if present : bool then delete newSet itemId else add newSet itemId);;
  mret newSet.
End Objects.
End SetStore.

(** ** Derived notions used in the statements *)

Section Derived.
Context {Id : Type} `{EqDecision Id}.

(** The state cells once the setter calls [u] have been applied in order
    and [setLoading(false)] has run in the [finally] block. *)
Definition settled (u : list (Update (Id := Id))) (st : State (Id := Id)) : State :=
  apply_update (SetLoading false) (foldl (λ s v, apply_update v s) st u).

(** The remote calls of a log, in order. *)
Definition requests (log : list (Effect (Id := Id))) : list Request :=
  omap (λ e, match e with Net r => Some r | Console _ _ => None end) log.

(** The selection after the checkboxes of [xs] have changed, in order. *)
Definition toggles (xs : list Id) (s : JsSet.t (Id := Id)) : JsSet.t :=
  foldl (λ acc x, toggle x acc) s xs.

(** The state cells while [fetchItems] waits for its reply. *)
Definition load_started (st : State (Id := Id)) : State :=
  (advance fetchItems st []).1.2.

(** A sequence of clicks on the button, each run to its end. *)
Definition submits (envs : list (Env (Id := Id))) (st : State (Id := Id)) : State :=
  foldl (λ s env, (submit env s).1) st envs.
End Derived.

(** ** Sample data: a catalog of two items with numeric identifiers *)

Module Sample.
Local Open Scope string_scope.

Definition item_A : Item (Id := Z) :=
  {| item_id := 1; item_name := "A";
     item_price := decimal 1000 2; item_weight := num_of_Z 100 |}.
Definition item_B : Item (Id := Z) :=
  {| item_id := 2; item_name := "B";
     item_price := decimal 2000 2; item_weight := num_of_Z 200 |}.

Definition package_of (name : string) (w p : Z) (courier : number) : Package :=
  {| pkg_items := [name]; totalWeight := num_of_Z w; totalPrice := num_of_Z p;
     courierPrice := courier |}.
Definition pkg_A : Package := package_of "A" 100 10 (decimal 500 2).
Definition pkg_B : Package := package_of "B" 200 20 (decimal 750 2).

(** Both services answer as in the examples of the interface. *)
Definition env_ok : Env (Id := Z) :=
  {| products_reply := Parsed {| pb_success := true; pb_data := [item_A; item_B] |};
     calculate_reply := λ _,
       Parsed {| cb_success := true; cb_data := Some [pkg_A; pkg_B]; cb_error := None |} |}.

(** The calculation answers [{ success: false, error: "no courier available" }]. *)
Definition env_no_courier : Env (Id := Z) :=
  {| products_reply := products_reply env_ok;
     calculate_reply := λ _,
       Parsed {| cb_success := false; cb_data := None;
                 cb_error := Some "no courier available" |} |}.

(** The calculation answers [{ success: false }]. *)
Definition env_no_text : Env (Id := Z) :=
  {| products_reply := products_reply env_ok;
     calculate_reply := λ _,
       Parsed {| cb_success := false; cb_data := None; cb_error := None |} |}.

(** The catalog answers [{ success: false }]. *)
Definition env_catalog_refuses : Env (Id := Z) :=
  {| products_reply := Parsed {| pb_success := false; pb_data := [] |};
     calculate_reply := calculate_reply env_ok |}.

(** No service can be reached. *)
Definition env_down : Env (Id := Z) :=
  {| products_reply := Rejected FetchRejected;
     calculate_reply := λ _, Rejected FetchRejected |}.

(** The component with the catalog loaded, item 1 selected and the result
    of an earlier order on display. *)
Definition st_ordered : State (Id := Z) :=
  {| items := [item_A; item_B]; selectedItems := [1];
     packages := Some [pkg_A]; loading := false; error := None |}.

(** The component holding the selection 3, 1. *)
Definition st_31 : State (Id := Z) :=
  {| items := [item_A; item_B]; selectedItems := [3; 1];
     packages := None; loading := false; error := None |}.

(** Courier prices whose sum depends on the order of the additions. *)
Definition pkgs_forward : list Package :=
  [package_of "A" 100 10 (decimal 105 2);
   package_of "B" 200 20 (decimal 11 1);
   package_of "C" 300 30 (decimal 5125 3)].
Definition pkgs_backward : list Package := rev pkgs_forward.
End Sample.

(** ** Notions used in the statements about numbers *)

Section Formats.
Local Open Scope string_scope.
Local Open Scope Z_scope.

Definition is_digit (c : ascii) : bool :=
  (48 <=? nat_of_ascii c)%nat && (nat_of_ascii c <=? 57)%nat.

Fixpoint all_digits (s : string) : bool :=
  match s with
  | "" => true
  | String c s' => is_digit c && all_digits s'
  end.

(** A rendering with exactly two decimal places: an optional sign, at
    least one digit, a point, two digits. *)
Definition two_decimal_places (s : string) : Prop :=
  ∃ sign whole frac,
    s = sign ++ whole ++ "." ++ frac
    ∧ (sign = "" ∨ sign = "-")
    ∧ (1 ≤ String.length whole)%nat ∧ all_digits whole = true
    ∧ String.length frac = 2%nat ∧ all_digits frac = true.

(** A number [toFixed] writes in fixed notation: finite, below [10^21]. *)
Definition fixed_range (x : number) : bool :=
  match x with
  | S754_zero _ => true
  | S754_finite _ m e => negb (at_least_1e21 m e)
  | _ => false
  end.
End Formats.

(** The least exponent of a binary64 number. *)
Definition emin64 : Z := emin prec emax.

(** The number written [a / 2^k]: [a] halves, quarters, ... *)
Definition dyadic (k : nat) (a : Z) : number :=
  binary_normalize prec emax a (- Z.of_nat k) false.

(** The normal form of [v * 2^e], for [0 < v < 2^53]: a significand of 53
    bits. *)
Definition canonical (v e : Z) : number :=
  S754_finite false (Z.to_pos (v * 2 ^ (52 - Z.log2 v))) (e - (52 - Z.log2 v)).

(** The exact sum of a list of amounts. *)
Definition total_amount (amounts : list Z) : Z := foldr Z.add 0 amounts.

(** The value of [x] counted in units of [1 / 2^k], cut to an integer. *)
Definition units (k : nat) (x : number) : Z :=
  match x with
  | S754_finite s m e =>
      cond_Zopp s (if 0 <=? e + Z.of_nat k
                   then Z.pos m * 2 ^ (e + Z.of_nat k)
                   else Z.pos m / 2 ^ (- (e + Z.of_nat k)))
  | _ => 0
  end.

(** [x] is a whole, non-negative number of units of [1 / 2^k]. *)
Definition whole_units (k : nat) (x : number) : Prop :=
  0 ≤ units k x ∧ x = dyadic k (units k x).

(** The courier prices of [pkgs] in units of [1 / 2^k], summed exactly. *)
Definition total_units (k : nat) (pkgs : list Package) : Z :=
  total_amount ((λ p, units k (courierPrice p)) <$> pkgs).

(** The record [shr_1] leaves after [d >= 1] right shifts of [M]: the
    quotient, the last bit shifted out, and whether a lower bit was set. *)
Definition shifted (M : Z) (d : Z) : shr_record :=
  {| shr_m := M / 2 ^ d;
     shr_r := 2 ^ (d - 1) <=? M mod 2 ^ d;
     shr_s := negb (M mod 2 ^ d mod 2 ^ (d - 1) =? 0) |}.

(** The second half of [binary_round_aux]: the rounded significand is
    brought back to 53 bits. *)
Definition finish (sx : bool) (m1 e : Z) : number :=
  let '(mrs, e') := shr_fexp prec emax m1 e loc_Exact in
  match shr_m mrs with
  | Z0 => S754_zero sx
  | Zpos m => if e' <=? emax - prec then S754_finite sx m e' else S754_infinity sx
  | Zneg _ => S754_nan
  end.

(** The value of [x] in units of [2^emin64], for [x >= 0]. *)
Definition scaled (x : number) : Z :=
  match x with
  | S754_finite false m e => Z.pos m * 2 ^ (e - emin64)
  | _ => 0
  end.

(** The number of those units in 1. *)
Definition unit_scale : Z := 2 ^ (- emin64).

(** [+0], or a positive normal number below [2^52]. *)
Definition amount (x : number) : Prop :=
  match x with
  | S754_zero false => True
  | S754_finite false m e => Z.log2 (Z.pos m) = 52 ∧ emin64 ≤ e < 0
  | _ => False
  end.

(** The whole number of cents nearest to [x]. *)
Definition cents (x : number) : Z :=
  match x with
  | S754_finite false m e => round_scaled 2 m e
  | _ => 0
  end.

(** [x] is an amount in whole cents, as a number can hold it: within the
    relative error [2^-53] of [cents x / 100], as the number written with
    two decimal places is (lemma [decimal2_cents_price]). *)
Definition cents_price (x : number) : Prop :=
  amount x
  ∧ 2 ^ 53 * Z.abs (100 * scaled x - cents x * unit_scale) ≤ cents x * unit_scale.

(** The courier prices of [pkgs] in cents, summed exactly. *)
Definition total_cents (pkgs : list Package) : Z :=
  total_amount ((λ p, cents (courierPrice p)) <$> pkgs).

(** The bounds under which the sum of cents is shown to be exact. *)
Definition max_packages : Z := 10 ^ 4.
Definition max_total_cents : Z := 10 ^ 11.

(** ** The markup of the component, lines 139-208

    What a render shows of the state cells: the banner of the error, the
    two notes of the list of items, one row for each item with its
    checkbox, the button, and the result of [renderPackages]. The texts of
    the price and the weight of an item are written by [Number::toString]
    and are left out. *)

Section Markup.
Context {Id : Type} `{EqDecision Id}.
Local Open Scope string_scope.
Local Open Scope list_scope.

(** A [label] of [items.map], lines 166-185: its [key], the name, and
    [checked={selectedItems.has(item.id)}]. *)
Record Row := {
  row_key : Id;
  row_name : string;
  row_checked : bool
}.

Record View := {
  banner : option string;        (* lines 148-152: [{error && (...)}] *)
  no_items_note : bool;          (* lines 160-162: "No items available" *)
  loading_note : bool;           (* lines 163-165: "Loading items..." *)
  rows : list Row;               (* lines 166-185 *)
  button_off : bool;             (* line 191: [disabled] *)
  button_label : string;         (* lines 194-201 *)
  result : option Aggregate      (* line 204: [{renderPackages()}] *)
}.

(** The [return] of the component, lines 139-208. [error && ...] shows
    nothing for [null] and for the empty string. *)
Definition render (st : State (Id := Id)) : View :=
  {| banner :=
       match error st with
       | Some text => if bool_decide (text = "") then None else Some text
       | None => None
       end;
     no_items_note := bool_decide (length (items st) = 0%nat) && negb (loading st);
     loading_note := loading st && bool_decide (length (items st) = 0%nat);
     rows :=
       (λ item, {| row_key := item_id item; row_name := item_name item;
                   row_checked := JsSet.has (item_id item) (selectedItems st) |})
         <$> items st;
     button_off := button_disabled st;
     button_label :=
       if loading st then "Processing..."
       else "Place Order ("
            ++ digits_of (N.of_nat (JsSet.size (selectedItems st))) ++ " items)";
     result := renderPackages (packages st) |}.
End Markup.

(** ** The cards of [renderPackages], lines 89-125 *)

Section Cards.
Local Open Scope string_scope.
Local Open Scope list_scope.

(** The card of one package: its [key], the title, the names of its
    items and its total price. The texts of the weight and of the courier
    price are written by [Number::toString] and are left out. *)
Record Card := {
  card_key : nat;
  card_title : string;
  card_items : string;
  card_total_price : string
}.

(** [xs.join(sep)] of an array of strings. *)
Definition join (sep : string) (xs : list string) : string :=
  match xs with
  | [] => ""
  | x :: rest => foldl (λ acc y, (acc ++ sep ++ y)%string) x rest
  end.

(** [packages.map((pkg, idx) => ...)], lines 89-125. *)
Definition package_cards (pkgs : list Package) : list Card :=
  imap (λ idx pkg,
          {| card_key := idx;
             card_title := "Package " ++ digits_of (N.of_nat (idx + 1));
             card_items := join ", " (pkg_items pkg);
             card_total_price := "$" ++ toFixed 2 (Number (totalPrice pkg)) |})
       pkgs.
End Cards.

(** ** The component in use

    A page is the component between two events: its state cells, whether
    the mount effect has run, the handlers that wait for a reply, and what
    was sent and logged so far. An event is one of the places where the
    component hands a function to React or to the network:
    - [Mount]: the effect of lines 13-15, which runs once;
    - [Change]: [onChange] of the checkbox of an item of the list, line 174;
    - [Click]: [onClick] of the button, line 190, which a disabled button
      (line 191) does not deliver;
    - [ProductsReply], [CalculateReply]: the awaits of lines 20-21 and
      58-64 settle for the [n]-th waiting handler.
    Each event is handled on the render of the cells as they are, and
    the handler runs up to its next await, as [advance] has it. *)

Section Page.
Context {Id : Type} `{EqDecision Id}.
Local Open Scope list_scope.

Inductive Event :=
| Mount
| Change (itemId : Id)
| Click
| ProductsReply (n : nat) (r : Reply (ProductsBody (Id := Id)))
| CalculateReply (n : nat) (r : Reply CalculateBody).

Record Page := {
  cells : State (Id := Id);
  mounted : bool;
  waiting : list (Async (Id := Id) unit);
  effects : list (Effect (Id := Id))
}.

(** The component after its first render, before the effect has run. *)
Definition first_render : Page :=
  {| cells := initial; mounted := false; waiting := []; effects := [] |}.

(** A handler that stopped at an await waits; one that ended does not. *)
Definition suspended (q : Async (Id := Id) unit) : list (Async (Id := Id) unit) :=
  match q with
  | AwaitProducts _ | AwaitCalculate _ _ => [q]
  | _ => []
  end.

(** The handler [p] runs on the page up to its next await; [others] are
    the handlers that keep waiting. *)
Definition start (p : Async (Id := Id) unit) (mounted' : bool)
    (others : list (Async (Id := Id) unit)) (pg : Page) : Page :=
  let '(q, st, log) := advance p (cells pg) (effects pg) in
  {| cells := st; mounted := mounted'; waiting := others ++ suspended q;
     effects := log |}.

(** One event on a page; [None] when the page cannot have it. *)
Definition fire (ev : Event) (pg : Page) : option Page :=
  match ev with
  | Mount =>
      if mounted pg then None
      else Some (start fetchItems true (waiting pg) pg)
  | Change itemId =>
      if bool_decide (itemId ∈ item_id <$> items (cells pg))
      then Some (start (toggleItemSelection itemId) (mounted pg) (waiting pg) pg)
      else None
  | Click =>
      if button_disabled (cells pg) then None
      else Some (start (handlePlaceOrder (selectedItems (cells pg)))
                   (mounted pg) (waiting pg) pg)
  | ProductsReply n r =>
      match waiting pg !! n with
      | Some (AwaitProducts k) =>
          Some (start (k r) (mounted pg) (delete n (waiting pg)) pg)
      | _ => None
      end
  | CalculateReply n r =>
      match waiting pg !! n with
      | Some (AwaitCalculate _ k) =>
          Some (start (k r) (mounted pg) (delete n (waiting pg)) pg)
      | _ => None
      end
  end.

(** A sequence of events, in order. *)
Definition fires (evs : list Event) (pg : Page) : option Page :=
  foldl (λ acc ev, acc ≫= fire ev) (Some pg) evs.
End Page.

(** ** Notions used in the statements about pages *)

Section PageNotions.
Context {Id : Type} `{EqDecision Id}.
Local Open Scope string_scope.
Local Open Scope list_scope.

(** The identifiers of the items of the list. *)
Definition catalog_ids (st : State (Id := Id)) : list Id := item_id <$> items st.

(** The bodies of the calculations requested in a log, in order. *)
Definition orders (log : list (Effect (Id := Id))) : list (list Id) :=
  omap (λ r, match r with PostCalculate ids => Some ids | GetProducts => None end)
       (requests log).

(** An order of items of the list: not empty, no identifier twice. *)
Definition valid_order (st : State (Id := Id)) (ids : list Id) : Prop :=
  ids ≠ [] ∧ NoDup ids ∧ ids ⊆ catalog_ids st.

(** The three phases of a page. *)
Definition idle (pg : Page (Id := Id)) : Prop :=
  waiting pg = [] ∧ loading (cells pg) = false.

Definition loading_the_catalog (pg : Page (Id := Id)) : Prop :=
  waiting pg = [(advance fetchItems initial []).1.1]
  ∧ loading (cells pg) = true
  ∧ items (cells pg) = []
  ∧ selectedItems (cells pg) = []
  ∧ orders (effects pg) = [].

Definition calculating (pg : Page (Id := Id)) : Prop :=
  ∃ sel, sel ≠ []
    ∧ waiting pg = [(advance (handlePlaceOrder sel) initial []).1.1]
    ∧ loading (cells pg) = true
    ∧ items (cells pg) ≠ [].

(** What every page reached from the first render satisfies. *)
Record Inv (pg : Page (Id := Id)) : Prop := {
  inv_first : mounted pg = false → pg = first_render;
  inv_nodup : NoDup (selectedItems (cells pg));
  inv_catalog : selectedItems (cells pg) ⊆ catalog_ids (cells pg);
  inv_error : error (cells pg) ≠ Some "";
  inv_phase : idle pg ∨ loading_the_catalog pg ∨ calculating pg;
  inv_requests :
    requests (effects pg)
    = (if mounted pg then [GetProducts] else [])
      ++ (PostCalculate <$> orders (effects pg));
  inv_orders : Forall (valid_order (cells pg)) (orders (effects pg))
}.
End PageNotions.

(** ** Sample pages *)

Module SamplePages.
Local Open Scope string_scope.

(** The mount effect has run and the catalog is awaited. *)
Definition evs_mounted : list (Event (Id := Z)) := [Mount].

Definition page_mounted : Page (Id := Z) :=
  default first_render (fires evs_mounted first_render).

(** The catalog has come and item 1 is checked. *)
Definition evs_chosen : list (Event (Id := Z)) :=
  [Mount; ProductsReply 0 (products_reply Sample.env_ok); Change 1].

Definition page_chosen : Page (Id := Z) :=
  default first_render (fires evs_chosen first_render).

(** Then the button was clicked: the calculation is awaited. *)
Definition evs_ordering : list (Event (Id := Z)) := evs_chosen ++ [Click].

Definition page_ordering : Page (Id := Z) :=
  default first_render (fires evs_ordering first_render).

(** The catalog could not be fetched. *)
Definition evs_no_catalog : list (Event (Id := Z)) :=
  [Mount; ProductsReply 0 (Rejected FetchRejected)].

Definition page_no_catalog : Page (Id := Z) :=
  default first_render (fires evs_no_catalog first_render).

(** Both items were checked, then the second one unchecked. *)
Definition evs_checked : list (Event (Id := Z)) :=
  [Mount; ProductsReply 0 (products_reply Sample.env_ok);
   Change 2; Change 1; Change 2].

Definition page_checked : Page (Id := Z) :=
  default first_render (fires evs_checked first_render).

(** A package whose total price is written 12.34, and one whose total
    price is written 1.005. *)
Definition pkg_priced : Package :=
  {| pkg_items := ["A"; "B"]; totalWeight := num_of_Z 300;
     totalPrice := decimal 1234 2; courierPrice := decimal 500 2 |}.

Definition pkg_half_cent : Package :=
  {| pkg_items := ["C"]; totalWeight := num_of_Z 100;
     totalPrice := decimal 1005 3; courierPrice := decimal 500 2 |}.

Definition pkgs_priced : list Package := [pkg_priced; pkg_half_cent].
End SamplePages.

(** ** Notions used in the statements about amounts of money *)

Section Money.
Local Open Scope string_scope.
Local Open Scope Z_scope.

(** The character of the decimal digit [d]. *)
Definition digit_char (d : Z) : ascii := ascii_of_N (48 + Z.to_N d).

(** [c] cents written as dollars, a point and two digits of cents. *)
Definition money (c : Z) : string :=
  digits_of (Z.to_N (c / 100))
  ++ "." ++ String (digit_char (c / 10 mod 10)) (String (digit_char (c mod 10)) "").

(** [n] hundredths is the nearest to [m * 2^e], the larger of the two
    when [m * 2^e] is half-way: [n - 1/2 <= 100 * m * 2^e < n + 1/2]. *)
Definition nearest_cent (m : positive) (e : Z) (n : Z) : Prop :=
  (2 * n - 1) * 2 ^ Z.max 0 (- e) ≤ 200 * Z.pos m * 2 ^ Z.max 0 e
  ∧ 200 * Z.pos m * 2 ^ Z.max 0 e < (2 * n + 1) * 2 ^ Z.max 0 (- e).

(** The numeral [u] followed by the digit [k]. *)
Definition snoc_digit (u : Decimal.uint) (k : N) : Decimal.uint :=
  Decimal.app u (match k with
                 | 0 => D0 Nil | 1 => D1 Nil | 2 => D2 Nil | 3 => D3 Nil
                 | 4 => D4 Nil | 5 => D5 Nil | 6 => D6 Nil | 7 => D7 Nil
                 | 8 => D8 Nil | _ => D9 Nil
                 end)%N.
End Money.

(** ** [Number::toString], which writes a number in the markup

    React writes a number that is the child of an element as
    [Number::toString] does: the shortest decimal that reads back as the
    number. The standard fixes the number of digits and leaves the last
    digit open when several decimals of that length read back; the texts
    the function may return are given as a relation. The numbers are in
    normal form, as every number computed here is. *)

Section NumberText.
Local Open Scope string_scope.
Local Open Scope Z_scope.

(** How the rational [a / b], with [0 < b], compares with [N * 2^E]. *)
Definition compare_scaled (a b N E : Z) : comparison :=
  if 0 <=? E then a ?= N * 2 ^ E * b else a * 2 ^ (- E) ?= N * b.

(** The Number value for [a / b] is [m * 2^e]: the rational rounds to it,
    to nearest, a tie to the even significand. The bounds are the middles
    between [m * 2^e] and its two neighbours; the lower neighbour of a
    power of two is at half the distance. *)
Definition rounds_to (m : positive) (e : Z) (a b : Z) : bool :=
  let lower :=
    if (Z.pos m =? 2 ^ 52) && (emin64 <? e)
    then compare_scaled a b (4 * Z.pos m - 1) (e - 2)
    else compare_scaled a b (2 * Z.pos m - 1) (e - 1) in
  let upper := compare_scaled a b (2 * Z.pos m + 1) (e - 1) in
  match lower, upper with
  | Gt, Lt => true
  | Eq, _ | _, Eq => Z.even (Z.pos m)
  | _, _ => false
  end.

(** The Number value for [s * 10^j] is [m * 2^e]. *)
Definition reads_as (m : positive) (e : Z) (s j : Z) : bool :=
  if 0 <=? j then rounds_to m e (s * 10 ^ j) 1 else rounds_to m e s (10 ^ (- j)).

(** Step 5 of [Number::toString]: [s] has [k] digits, [s * 10^(n - k)]
    reads as the number, and [k] is as small as possible. *)
Definition shortest_digits (m : positive) (e : Z) (n k s : Z) : Prop :=
  1 ≤ k ∧ 10 ^ (k - 1) ≤ s < 10 ^ k ∧ reads_as m e s (n - k) = true
  ∧ ∀ n' k' s', 1 ≤ k' → 10 ^ (k' - 1) ≤ s' < 10 ^ k' →
      reads_as m e s' (n' - k') = true → k ≤ k'.

(** Steps 6 to 10: the [k] digits of [s] with the point after the [n]-th
    one, or in exponential notation when [n] is not in -5 .. 21. *)
Definition digits_text (n k s : Z) : string :=
  let ds := digits_of (Z.to_N s) in
  if (-5 <=? n) && (n <=? 21) then
    if k <=? n then ds ++ repeat_char "0" (Z.to_nat (n - k))
    else if 0 <? n
         then take_string (Z.to_nat n) ds ++ "." ++ drop_string (Z.to_nat n) ds
         else "0." ++ repeat_char "0" (Z.to_nat (- n)) ++ ds
  else
    let ex := (if 0 <=? n - 1 then "e+" else "e-")
              ++ digits_of (Z.to_N (Z.abs (n - 1))) in
    match ds with
    | String c "" => String c ex
    | String c rest => String c ("." ++ rest ++ ex)
    | "" => ex
    end.

(** [Number::toString(x)]: the texts it may return. *)
Definition Number_toString (x : number) (text : string) : Prop :=
  match x with
  | S754_nan => text = "NaN"
  | S754_zero _ => text = "0"
  | S754_infinity sx => text = (if sx then "-" else "") ++ "Infinity"
  | S754_finite sx m e =>
      ∃ n k s, shortest_digits m e n k s
               ∧ text = (if sx then "-" else "") ++ digits_text n k s
  end.
End NumberText.

(** The texts of the markup that [Number::toString] writes. *)

Section NumberTexts.
Context {Id : Type}.
Local Open Scope string_scope.

(** [{pkg.totalWeight}g], line 109. *)
Definition card_weight (pkg : Package) (text : string) : Prop :=
  ∃ t, Number_toString (totalWeight pkg) t ∧ text = t ++ "g".

(** [${pkg.courierPrice}], line 121. *)
Definition card_courier_price (pkg : Package) (text : string) : Prop :=
  ∃ t, Number_toString (courierPrice pkg) t ∧ text = "$" ++ t.

(** [${item.price}], line 180. *)
Definition row_price (item : Item (Id := Id)) (text : string) : Prop :=
  ∃ t, Number_toString (item_price item) t ∧ text = "$" ++ t.

(** [{item.weight}g], line 182. *)
Definition row_weight (item : Item (Id := Id)) (text : string) : Prop :=
  ∃ t, Number_toString (item_weight item) t ∧ text = t ++ "g".
End NumberTexts.

(** Notions used in the statements about these texts. *)

Section PlainNotions.
Local Open Scope string_scope.
Local Open Scope Z_scope.

(** The number of decimal digits of [a]. *)
Definition digits_count (a : Z) : Z :=
  Z.of_nat (String.length (digits_of (Z.to_N a))).

(** [c] cents as the shortest decimal: the dollars, and the cents without
    a zero at the end, if any. *)
Definition plain_money (c : Z) : string :=
  if c mod 100 =? 0 then digits_of (Z.to_N (c / 100))
  else if c mod 10 =? 0
       then digits_of (Z.to_N (c / 100))
            ++ "." ++ String (digit_char (c / 10 mod 10)) ""
       else money c.
End PlainNotions.

(** * Properties *)

(** ** The [Set] operations *)

Section SetFacts.
Context {Id : Type} `{EqDecision Id}.
Implicit Types (s acc : list Id) (x y : Id).

Lemma JsSet_has_true x s : JsSet.has x s = true ↔ x ∈ s.
Proof. unfold JsSet.has. apply bool_decide_eq_true. Qed.

Lemma JsSet_has_false x s : JsSet.has x s = false ↔ x ∉ s.
Proof. unfold JsSet.has. apply bool_decide_eq_false. Qed.

Lemma JsSet_elem_of_add x y s : y ∈ JsSet.add x s ↔ y = x ∨ y ∈ s.
Proof.
  unfold JsSet.add. destruct (JsSet.has x s) eqn:E.
  - apply JsSet_has_true in E. split; [auto | intros [-> | ?]; done].
  - rewrite elem_of_app, list_elem_of_singleton. tauto.
Qed.

Lemma JsSet_elem_of_delete x y s : y ∈ JsSet.delete x s ↔ y ≠ x ∧ y ∈ s.
Proof. unfold JsSet.delete. by rewrite list_elem_of_filter. Qed.

Lemma JsSet_NoDup_add x s : NoDup s → NoDup (JsSet.add x s).
Proof.
  intros Hs. unfold JsSet.add. destruct (JsSet.has x s) eqn:E; [done |].
  apply JsSet_has_false in E. apply NoDup_app. split_and!; [done | | apply NoDup_singleton].
  intros y Hy ->%list_elem_of_singleton. done.
Qed.

Lemma JsSet_NoDup_delete x s : NoDup s → NoDup (JsSet.delete x s).
Proof. apply NoDup_filter. Qed.

Lemma JsSet_fold_add_elem_of y acc s :
  y ∈ foldl (λ a x, JsSet.add x a) acc s ↔ y ∈ acc ∨ y ∈ s.
Proof.
  revert acc. induction s as [| x s IH]; intros acc; simpl.
  - rewrite elem_of_nil. tauto.
  - rewrite IH, JsSet_elem_of_add, elem_of_cons. tauto.
Qed.

Lemma JsSet_fold_add_NoDup acc s :
  NoDup acc → NoDup (foldl (λ a x, JsSet.add x a) acc s).
Proof.
  revert acc. induction s as [| x s IH]; intros acc Hacc; simpl; [done |].
  apply IH, JsSet_NoDup_add, Hacc.
Qed.

Lemma JsSet_fold_add_fresh acc s :
  NoDup (acc ++ s) → foldl (λ a x, JsSet.add x a) acc s = acc ++ s.
Proof.
  revert acc. induction s as [| x s IH]; intros acc Hnd; simpl.
  - by rewrite app_nil_r.
  - assert (x ∉ acc) as Hx.
    { apply NoDup_app in Hnd as (_ & Hdisj & _). intros Hin.
      apply (Hdisj x Hin). left. }
    unfold JsSet.add at 2. apply JsSet_has_false in Hx. rewrite Hx.
    rewrite IH; rewrite <- app_assoc; done.
Qed.

(** Copying keeps the elements, and their order when there is no
    duplicate to drop. *)
Lemma JsSet_elem_of_copy y s : y ∈ JsSet.copy s ↔ y ∈ s.
Proof.
  unfold JsSet.copy. rewrite JsSet_fold_add_elem_of.
  unfold JsSet.empty. rewrite elem_of_nil. tauto.
Qed.

Lemma JsSet_NoDup_copy s : NoDup (JsSet.copy s).
Proof. apply JsSet_fold_add_NoDup, NoDup_nil_2. Qed.

Lemma JsSet_copy_id s : NoDup s → JsSet.copy s = s.
Proof. intros Hs. unfold JsSet.copy. by rewrite JsSet_fold_add_fresh. Qed.

(** *** The updater [toggle] *)

Lemma toggle_present x s :
  x ∈ s → toggle x s = JsSet.delete x (JsSet.copy s).
Proof.
  intros Hx. unfold toggle.
  assert (JsSet.has x (JsSet.copy s) = true) as ->; [| done].
  by apply JsSet_has_true, JsSet_elem_of_copy.
Qed.

Lemma toggle_absent x s :
  x ∉ s → toggle x s = JsSet.copy s ++ [x].
Proof.
  intros Hx. unfold toggle.
  assert (JsSet.has x (JsSet.copy s) = false) as E.
  { apply JsSet_has_false. by rewrite JsSet_elem_of_copy. }
  rewrite E. unfold JsSet.add. by rewrite E.
Qed.

Lemma elem_of_toggle x y s :
  y ∈ toggle x s ↔ (y = x ∧ x ∉ s) ∨ (y ≠ x ∧ y ∈ s).
Proof.
  destruct (decide (x ∈ s)) as [Hx | Hx].
  - rewrite (toggle_present _ _ Hx), JsSet_elem_of_delete, JsSet_elem_of_copy.
    tauto.
  - rewrite (toggle_absent _ _ Hx), elem_of_app, list_elem_of_singleton,
      JsSet_elem_of_copy.
    split.
    + intros [Hy | ->]; [right | left]; split; try done. by intros ->.
    + intros [[-> _] | [_ Hy]]; auto.
Qed.

Lemma NoDup_toggle x s : NoDup (toggle x s).
Proof.
  unfold toggle. destruct (JsSet.has x (JsSet.copy s)).
  - apply JsSet_NoDup_delete, JsSet_NoDup_copy.
  - apply JsSet_NoDup_add, JsSet_NoDup_copy.
Qed.
End SetFacts.

(** ** What one run of each handler does *)

Section Runs.
Context {Id : Type} `{EqDecision Id}.
Local Open Scope string_scope.
Local Open Scope list_scope.
Implicit Types (st : State (Id := Id)) (env : Env (Id := Id)).

(** [fetchItems] by the reply it gets. *)
Lemma load_eq env st :
  load env st =
    match products_reply env with
    | Rejected e =>
        (settled [SetLoading true; SetError (Some "Failed to load items")] st,
         [Net GetProducts; Console "Error fetching items:" e])
    | Parsed data =>
        if pb_success data
        then (settled [SetLoading true; SetItems (pb_data data); SetError None] st,
              [Net GetProducts])
        else (settled [SetLoading true; SetError None] st, [Net GetProducts])
    end.
Proof.
  unfold load. simpl. destruct (products_reply env) as [e | data]; [done |].
  simpl. by destruct (pb_success data).
Qed.

(** [handlePlaceOrder] by the selection it closes over and the reply. *)
Lemma submit_eq env st :
  submit env st =
    let sel := selectedItems st in
    if bool_decide (JsSet.size sel = 0%nat) then
      (apply_update (SetError (Some "Please select at least one item")) st, [])
    else
      let failed e :=
        (settled [SetLoading true; SetError None;
                  SetError (Some "Failed to process order")] st,
         [Net (PostCalculate (JsSet.array_from sel));
          Console "Error processing order:" e]) in
      match calculate_reply env (JsSet.array_from sel) with
      | Rejected e => failed e
      | Parsed data =>
          if cb_success data then
            match cb_data data with
            | Some pkgs =>
                (settled [SetLoading true; SetError None; SetPackages (Some pkgs)] st,
                 [Net (PostCalculate (JsSet.array_from sel))])
            | None => failed TypeError
            end
          else
            (settled [SetLoading true; SetError None;
                      SetError (Some (or_default (cb_error data)
                                        "Failed to process order"))] st,
             [Net (PostCalculate (JsSet.array_from sel))])
      end.
Proof.
  unfold submit, handlePlaceOrder. simpl.
  destruct (bool_decide (JsSet.size (selectedItems st) = 0%nat)); [done |].
  simpl. destruct (calculate_reply env _) as [e | data]; [done |].
  simpl. destruct (cb_success data); [| done].
  by destruct (cb_data data).
Qed.

(** A run is its synchronous parts, each resumed with the reply of the
    service it waits for. *)
Lemma run_by_segments {A} env (p : Async (Id := Id) A) st log :
  run env p st log =
    let '(q, st1, log1) := advance p st log in
    match q with
    | AwaitProducts _ =>
        run env (resume_products q (products_reply env)) st1 log1
    | AwaitCalculate ids _ =>
        run env (resume_calculate q (calculate_reply env ids)) st1 log1
    | Ret _ | Throw _ | Set_ _ _ | ConsoleError _ _ _ => run env q st1 log1
    end.
Proof.
  revert st log.
  induction p as [a | e | u k IH | l e k IH | k _ | ids k _]; intros st log;
    simpl; try done.
Qed.

(** The button lets a click through only when nothing is loading and
    something is selected. *)
Lemma button_enabled st :
  button_disabled st = false ↔
  loading st = false ∧ JsSet.size (selectedItems st) ≠ 0%nat.
Proof.
  unfold button_disabled. rewrite orb_false_iff, bool_decide_eq_false. tauto.
Qed.
End Runs.

(** Case analysis on the reply of the calculation, as [handlePlaceOrder]
    branches on it. *)
Ltac reply_cases env :=
  destruct (calculate_reply env _) as [? | [[] [? |] ?]]; simpl; try done.

(** ** SelectionSet *)

Section Selection.
Context {Id : Type} `{EqDecision Id}.
Implicit Types (s : list Id) (x y : Id) (st : State (Id := Id)).

Lemma selectedItems_click_item x st :
  selectedItems (click_item x st) = toggle x (selectedItems st).
Proof. reflexivity. Qed.

(** C7. Toggling an identifier twice gives back the membership the set
    had; one toggle takes the identifier out when it is in and puts it in
    when it is out, and changes nothing else; the handler ends normally in
    every state, whatever the catalog holds, and writes the selection
    only: the selection cell after a change of the checkbox is the toggle
    of the cell before, and after two changes of the same checkbox it has
    the members it had. *)
Theorem toggle_involution s x st :
  (∀ y, y ∈ toggle x (toggle x s) ↔ y ∈ s)
  ∧ (x ∈ toggle x s ↔ x ∉ s)
  ∧ (∀ y, y ≠ x → y ∈ toggle x s ↔ y ∈ s)
  ∧ advance (toggleItemSelection x) st [] =
      (Ret tt, apply_update (SetSelectedItems (toggle x)) st, [])
  ∧ selectedItems (click_item x st) = toggle x (selectedItems st)
  ∧ (∀ y, y ∈ selectedItems (click_item x (click_item x st))
          ↔ y ∈ selectedItems st).
Proof.
  assert (∀ s' y, y ∈ toggle x (toggle x s') ↔ y ∈ s') as Htwice.
  { intros s' y. rewrite !elem_of_toggle.
    destruct (decide (y = x)) as [-> | Hne]; [| tauto].
    destruct (decide (x ∈ s')); tauto. }
  split_and!.
  - apply Htwice.
  - rewrite elem_of_toggle. tauto.
  - intros y Hne. rewrite elem_of_toggle. tauto.
  - reflexivity.
  - reflexivity.
  - intros y. rewrite !selectedItems_click_item. apply Htwice.
Qed.

(** C1, as the code has it. On a selection without duplicates, a toggle
    of an absent identifier puts it last and a toggle of a present one
    takes it out and keeps the order of the others; the request of a
    submission carries the identifiers in that order of insertion. *)
Theorem snapshot_insertion_order env st x :
  NoDup (selectedItems st) →
  (x ∉ selectedItems st →
     JsSet.array_from (selectedItems (click_item x st)) =
     JsSet.array_from (selectedItems st) ++ [x])
  ∧ (x ∈ selectedItems st →
     JsSet.array_from (selectedItems (click_item x st)) =
     filter (λ y, y ≠ x) (JsSet.array_from (selectedItems st)))
  ∧ (selectedItems st ≠ [] →
     requests (submit env st).2 =
     [PostCalculate (JsSet.array_from (selectedItems st))]).
Proof.
  intros Hnd. rewrite selectedItems_click_item. unfold JsSet.array_from.
  split_and!.
  - intros Hx. by rewrite toggle_absent, JsSet_copy_id.
  - intros Hx. by rewrite toggle_present, JsSet_copy_id.
  - intros Hne. rewrite submit_eq. simpl.
    destruct (selectedItems st) as [| a s'] eqn:Es; [done |]. simpl.
    reply_cases env.
Qed.
End Selection.

(** C1, a run of it: from the selection 3, 1, the checkbox of 2 gives the
    snapshot 3, 1, 2, and the request carries the selection as it stands. *)
Lemma snapshot_insertion_order_witness :
  NoDup (selectedItems Sample.st_31)
  ∧ JsSet.array_from (selectedItems (click_item 2 Sample.st_31)) = [3; 1; 2]
  ∧ requests (submit Sample.env_ok Sample.st_31).2 = [PostCalculate [3; 1]].
Proof.
  assert (NoDup (selectedItems Sample.st_31)) as Hnd.
  { compute_done. }
  split; [exact Hnd |].
  destruct (snapshot_insertion_order Sample.env_ok Sample.st_31 2 Hnd)
    as (Habsent & _ & Hreq).
  split.
  - apply Habsent. compute_done.
  - apply Hreq. discriminate.
Defined.

(** C1, as stated, fails: after the toggles 3, 1, 2 on the empty selection
    the snapshot is 3, 1, 2, which is not ascending, and that is the body
    a submission sends. *)
Lemma snapshot_not_ascending :
  JsSet.array_from (toggles [3; 1; 2] JsSet.empty) = [3; 1; 2]
  ∧ JsSet.array_from (toggles [3; 1; 2] JsSet.empty) ≠ [1; 2; 3]
  ∧ selectedItems (click_item 2 (click_item 1 (click_item 3 initial)))
    = toggles [3; 1; 2] JsSet.empty
  ∧ requests
      (submit Sample.env_ok (click_item 2 (click_item 1 (click_item 3 initial)))).2
    = [PostCalculate [3; 1; 2]].
Proof. split_and!; [reflexivity | discriminate | reflexivity | reflexivity]. Qed.

(** ** The updater on [Set] objects *)

Section CopyOnWrite.
Context {Id : Type} `{EqDecision Id}.
Implicit Types (σ : gmap positive (list Id)) (prev r : SetStore.ref) (x : Id).

Lemma updater_eq x prev σ :
  SetStore.updater x prev σ =
    let newSet := fresh (dom σ) in
    (newSet, <[newSet := toggle x (SetStore.elements_of prev σ)]> σ).
Proof.
  unfold SetStore.updater, SetStore.new_Set, SetStore.has, SetStore.delete,
    SetStore.add, mbind, SetStore.Mem_bind, mret, SetStore.Mem_ret,
    SetStore.elements_of, toggle.
  simpl. rewrite lookup_insert_eq. simpl.
  destruct (JsSet.has x (JsSet.copy (default [] (σ !! prev))));
    simpl; by rewrite alter_insert_eq.
Qed.

Lemma updater_fresh x prev σ : σ !! (SetStore.updater x prev σ).1 = None.
Proof.
  rewrite updater_eq. simpl. apply not_elem_of_dom, is_fresh.
Qed.

(** C10. The updater allocates the set it returns: the reference is new,
    the object behind [prev] and every other object allocated before keep
    their elements, and the new object holds the toggled elements. *)
Theorem updater_copy_on_write x prev σ (s : list Id) :
  σ !! prev = Some s →
  let newSet := (SetStore.updater x prev σ).1 in
  let σ' := (SetStore.updater x prev σ).2 in
  newSet ≠ prev
  ∧ σ !! newSet = None
  ∧ σ' !! prev = Some s
  ∧ (∀ r, r ≠ newSet → σ' !! r = σ !! r)
  ∧ σ' !! newSet = Some (toggle x s).
Proof.
  intros Hprev newSet σ'.
  assert (σ !! newSet = None) as Hnew by apply updater_fresh.
  assert (newSet ≠ prev) as Hne by (intros E; rewrite E in Hnew; congruence).
  assert (∀ r, r ≠ newSet → σ' !! r = σ !! r) as Hframe.
  { intros r Hr. subst σ' newSet. rewrite updater_eq in *. simpl in *.
    by rewrite lookup_insert_ne. }
  split_and!; try done.
  - rewrite Hframe; done.
  - subst σ' newSet. rewrite updater_eq. simpl.
    rewrite lookup_insert_eq. unfold SetStore.elements_of. by rewrite Hprev.
Qed.
End CopyOnWrite.

(** C10, a run of it: the object 1 holds 3, 1; toggling 3 leaves it as it
    is and returns a new object holding 1. *)
Lemma updater_copy_on_write_witness :
  let σ : gmap positive (list Z) := {[ 1%positive := [3; 1] ]} in
  σ !! 1%positive = Some [3; 1]
  ∧ (SetStore.updater 3 1%positive σ).2 !! 1%positive = Some [3; 1]
  ∧ (SetStore.updater 3 1%positive σ).2 !! (SetStore.updater 3 1%positive σ).1
    = Some [1].
Proof.
  intros σ.
  assert (σ !! 1%positive = Some [3; 1]) as Hprev by reflexivity.
  split; [exact Hprev |].
  destruct (updater_copy_on_write 3 1%positive σ [3; 1] Hprev)
    as (_ & _ & Hkept & _ & Hnew).
  split; [exact Hkept | exact Hnew].
Defined.

(** ** OrderSubmission *)

Section Submission.
Context {Id : Type} `{EqDecision Id}.
Local Open Scope string_scope.
Local Open Scope list_scope.
Implicit Types (st : State (Id := Id)) (env : Env (Id := Id)).

Lemma selection_empty_size (s : JsSet.t (Id := Id)) :
  JsSet.size s = 0%nat ↔ s = [].
Proof. unfold JsSet.size. split; [apply length_zero_iff_nil | by intros ->]. Qed.

(** The synchronous part of [handlePlaceOrder]: up to the [await]. *)
Lemma submit_sync_eq st :
  (advance (handlePlaceOrder (selectedItems st)) st []).1.2 =
    (if bool_decide (JsSet.size (selectedItems st) = 0%nat)
     then apply_update (SetError (Some "Please select at least one item")) st
     else apply_update (SetError None) (apply_update (SetLoading true) st))
  ∧ (advance (handlePlaceOrder (selectedItems st)) st []).2 =
    (if bool_decide (JsSet.size (selectedItems st) = 0%nat)
     then []
     else [Net (PostCalculate (JsSet.array_from (selectedItems st)))]).
Proof.
  unfold handlePlaceOrder.
  destruct (bool_decide (JsSet.size (selectedItems st) = 0%nat)); done.
Qed.

(** C5. With an empty selection the handler ends in its synchronous part:
    it sets the validation message, leaves the loading flag and every
    other cell, and issues no request. A request in the log of a
    submission, or a loading flag raised by its synchronous part, means
    the selection was not empty. *)
Theorem submit_empty_selection env st :
  (JsSet.size (selectedItems st) = 0%nat →
     advance (handlePlaceOrder (selectedItems st)) st [] =
       (Ret tt,
        apply_update (SetError (Some "Please select at least one item")) st,
        [])
     ∧ submit env st =
       (apply_update (SetError (Some "Please select at least one item")) st, []))
  ∧ (∀ r, Net r ∈ (submit env st).2 → JsSet.size (selectedItems st) ≠ 0%nat)
  ∧ (loading st = false →
     loading (advance (handlePlaceOrder (selectedItems st)) st []).1.2 = true →
     JsSet.size (selectedItems st) ≠ 0%nat).
Proof.
  split_and!.
  - intros Hsize. rewrite submit_eq. unfold handlePlaceOrder. simpl.
    by rewrite (bool_decide_eq_true_2 _ Hsize).
  - intros r Hr Hsize. rewrite submit_eq in Hr. simpl in Hr.
    rewrite (bool_decide_eq_true_2 _ Hsize) in Hr. simpl in Hr.
    by apply elem_of_nil in Hr.
  - intros Hidle Hbusy Hsize.
    destruct (submit_sync_eq st) as [Hst _]. rewrite Hst in Hbusy.
    rewrite (bool_decide_eq_true_2 _ Hsize) in Hbusy. simpl in Hbusy.
    congruence.
Qed.

(** C8. A reply whose [success] is false ends the submission with the
    loading flag down and the error cell holding the text of the reply,
    or ["Failed to process order"] when the reply has no text (no [error]
    member, or an empty one). *)
Theorem submit_unsuccessful_error_text env st data :
  JsSet.size (selectedItems st) ≠ 0%nat →
  calculate_reply env (JsSet.array_from (selectedItems st)) = Parsed data →
  cb_success data = false →
  loading (submit env st).1 = false
  ∧ (∀ text, cb_error data = Some text → text ≠ "" →
       error (submit env st).1 = Some text)
  ∧ (cb_error data = None ∨ cb_error data = Some "" →
       error (submit env st).1 = Some "Failed to process order").
Proof.
  intros Hsize Hreply Hfail. rewrite submit_eq. simpl.
  rewrite (bool_decide_eq_false_2 _ Hsize), Hreply, Hfail. simpl.
  split_and!; [done | |].
  - intros text -> Hne. simpl. by rewrite (bool_decide_eq_false_2 _ Hne).
  - by intros [-> | ->].
Qed.

(** C9. A submission never writes the selection: it is the same after
    the synchronous part, after the whole run whatever the reply, and
    after any number of submissions in a row. *)
Theorem submit_keeps_selection env st (envs : list (Env (Id := Id))) :
  selectedItems (advance (handlePlaceOrder (selectedItems st)) st []).1.2
    = selectedItems st
  ∧ selectedItems (submit env st).1 = selectedItems st
  ∧ selectedItems (submits envs st) = selectedItems st.
Proof.
  assert (∀ (e : Env (Id := Id)) (s : State (Id := Id)),
            selectedItems (submit e s).1 = selectedItems s) as Hone.
  { intros e s. rewrite submit_eq. simpl.
    destruct (bool_decide (JsSet.size (selectedItems s) = 0%nat)); [done |].
    reply_cases e. }
  split_and!.
  - destruct (submit_sync_eq st) as [-> _].
    by destruct (bool_decide (JsSet.size (selectedItems st) = 0%nat)).
  - apply Hone.
  - unfold submits. revert st.
    induction envs as [| e envs IH]; intros st; simpl; [done |].
    by rewrite IH, Hone.
Qed.

(** C4, as the code has it. A submission that does not succeed (a reply
    whose [success] is false, or none that could be read) sets the error
    cell and leaves the packages cell as it was, so an earlier result stays
    on display; a successful reply overwrites the cell with its packages. *)
Theorem submit_failure_keeps_packages env st :
  JsSet.size (selectedItems st) ≠ 0%nat →
  match calculate_reply env (JsSet.array_from (selectedItems st)) with
  | Parsed {| cb_success := true; cb_data := Some pkgs |} =>
      packages (submit env st).1 = Some pkgs
      ∧ error (submit env st).1 = None
  | _ =>
      packages (submit env st).1 = packages st
      ∧ renderPackages (packages (submit env st).1) = renderPackages (packages st)
      ∧ error (submit env st).1 ≠ None
  end.
Proof.
  intros Hsize. rewrite submit_eq. simpl.
  rewrite (bool_decide_eq_false_2 _ Hsize). reply_cases env.
Qed.
End Submission.

(** C5, a run of it: on the first render the selection is empty; a
    submission there sets the message, keeps the loading flag down and sends
    nothing. *)
Lemma submit_empty_selection_witness :
  JsSet.size (selectedItems (initial (Id := Z))) = 0%nat
  ∧ error (submit Sample.env_ok initial).1 = Some "Please select at least one item"%string
  ∧ loading (submit Sample.env_ok initial).1 = false
  ∧ (submit Sample.env_ok initial).2 = [].
Proof.
  assert (JsSet.size (selectedItems (initial (Id := Z))) = 0%nat) as Hsize
    by reflexivity.
  split; [exact Hsize |].
  destruct (submit_empty_selection Sample.env_ok initial) as (Hgate & _ & _).
  destruct (Hgate Hsize) as [_ ->]. split_and!; reflexivity.
Defined.

(** C8, a run of it: the reply [{ success: false, error: "no courier
    available" }] leaves that text in the error cell. *)
Lemma submit_unsuccessful_error_text_witness :
  JsSet.size (selectedItems Sample.st_ordered) ≠ 0%nat
  ∧ error (submit Sample.env_no_courier Sample.st_ordered).1
    = Some "no courier available"%string
  ∧ loading (submit Sample.env_no_courier Sample.st_ordered).1 = false.
Proof.
  assert (JsSet.size (selectedItems Sample.st_ordered) ≠ 0%nat) as Hsize
    by discriminate.
  split; [exact Hsize |].
  destruct (submit_unsuccessful_error_text Sample.env_no_courier Sample.st_ordered
              _ Hsize eq_refl eq_refl) as (Hloading & Htext & _).
  split; [| exact Hloading].
  apply Htext; [reflexivity | discriminate].
Defined.

(** C4, a run of it: with the result of an earlier order on display, the
    reply [{ success: false, error: "no courier available" }] leaves that
    result in the packages cell. *)
Lemma submit_failure_keeps_packages_witness :
  JsSet.size (selectedItems Sample.st_ordered) ≠ 0%nat
  ∧ packages (submit Sample.env_no_courier Sample.st_ordered).1
    = Some [Sample.pkg_A].
Proof.
  assert (JsSet.size (selectedItems Sample.st_ordered) ≠ 0%nat) as Hsize
    by discriminate.
  split; [exact Hsize |].
  exact (proj1 (submit_failure_keeps_packages
                  Sample.env_no_courier Sample.st_ordered Hsize)).
Defined.

(** C4, as stated, fails: after the reply [{ success: false, error: "no
    courier available" }] the packages cell still holds the earlier result,
    and [renderPackages] shows it as before, next to the error. *)
Lemma failed_submit_keeps_prior_result :
  packages Sample.st_ordered = Some [Sample.pkg_A]
  ∧ packages (submit Sample.env_no_courier Sample.st_ordered).1
    = Some [Sample.pkg_A]
  ∧ renderPackages (packages (submit Sample.env_no_courier Sample.st_ordered).1)
    = Some {| package_count := 1; plural_mark := "";
              total_courier_charges := "$5.00" |}
  ∧ error (submit Sample.env_no_courier Sample.st_ordered).1
    = Some "no courier available"%string.
Proof. split_and!; reflexivity. Qed.

(** ** CatalogStore *)

Section Catalog.
Context {Id : Type} `{EqDecision Id}.
Local Open Scope string_scope.
Local Open Scope list_scope.
Implicit Types (st : State (Id := Id)) (env : Env (Id := Id)).

(** What [fetchItems] leaves in the cells, by the reply: the item list is
    written by a successful body only, and the message is set by a
    rejection only. *)
Lemma load_cells env st :
  loading (load env st).1 = false
  ∧ selectedItems (load env st).1 = selectedItems st
  ∧ packages (load env st).1 = packages st
  ∧ match products_reply env with
    | Rejected _ =>
        items (load env st).1 = items st
        ∧ error (load env st).1 = Some "Failed to load items"
    | Parsed data =>
        items (load env st).1 = (if pb_success data then pb_data data else items st)
        ∧ error (load env st).1 = None
    end.
Proof.
  rewrite load_eq. destruct (products_reply env) as [e | data]; [done |].
  by destruct (pb_success data).
Qed.

(** C2, where the code departs from it. A body whose [success] is false
    keeps the item list, but it ends with [setError(null)]: the error cell
    is emptied, whatever it held, and no message is set. *)
Theorem load_refused_clears_error env st data :
  products_reply env = Parsed data →
  pb_success data = false →
  items (load env st).1 = items st
  ∧ error (load env st).1 = None
  ∧ (load env st).1 = settled [SetLoading true; SetError None] st.
Proof.
  intros Hreply Hfail.
  destruct (load_cells env st) as (_ & _ & _ & Hcells).
  rewrite Hreply, Hfail in Hcells. destruct Hcells as [Hitems Herror].
  split_and!; [done | done |].
  by rewrite load_eq, Hreply, Hfail.
Qed.
End Catalog.

(** C2, the failing input: on the first render the catalog answers
    [{ success: false }]; the error cell is empty afterwards, and the list
    is the empty one of the first render. *)
Lemma load_refused_clears_error_witness :
  products_reply Sample.env_catalog_refuses
    = Parsed {| pb_success := false; pb_data := [] |}
  ∧ error (load Sample.env_catalog_refuses initial).1 = None
  ∧ items (load Sample.env_catalog_refuses initial).1 = [].
Proof.
  split; [reflexivity |].
  destruct (load_refused_clears_error Sample.env_catalog_refuses initial _
              eq_refl eq_refl) as (Hitems & Herror & _).
  split; [exact Herror | exact Hitems].
Defined.

(** ** Binary64 arithmetic: what [SFadd] and [SFdiv] compute *)

Section NumberFacts.
Local Open Scope Z_scope.

(** *** Digits and shifts *)

(** The number of bits of a significand. *)
Lemma digits2_pos_log2 p : Z.pos (digits2_pos p) = Z.log2 (Z.pos p) + 1.
Proof.
  induction p as [p IH | p IH |]; simpl digits2_pos.
  - rewrite Pos2Z.inj_succ, IH. change (Z.pos p~1) with (2 * Z.pos p + 1).
    rewrite Z.log2_succ_double by lia. lia.
  - rewrite Pos2Z.inj_succ, IH. change (Z.pos p~0) with (2 * Z.pos p).
    rewrite Z.log2_double by lia. lia.
  - reflexivity.
Qed.

Lemma Zdigits2_log2 m : 0 < m -> Zdigits2 m = Z.log2 m + 1.
Proof. destruct m as [| p | p]; try lia. intros _. apply digits2_pos_log2. Qed.

(** The iteration of [SpecFloat], by unary numbers. *)
Lemma iter_pos_nat {A} (f : A -> A) p x :
  SpecFloat.iter_pos f p x = Nat.iter (Pos.to_nat p) f x.
Proof.
  revert x. induction p as [p IH | p IH |]; intros x; cbn [SpecFloat.iter_pos].
  - rewrite !IH, Pos2Nat.inj_xI.
    replace (S (2 * Pos.to_nat p)) with (Pos.to_nat p + S (Pos.to_nat p))%nat by lia.
    rewrite Nat.iter_add, Nat.iter_succ_r. reflexivity.
  - rewrite !IH, Pos2Nat.inj_xO.
    replace (2 * Pos.to_nat p)%nat with (Pos.to_nat p + Pos.to_nat p)%nat by lia.
    rewrite Nat.iter_add. reflexivity.
  - reflexivity.
Qed.

(** Right shifts that drop zeros only. *)
Lemma shr_1_even M :
  0 < M ->
  shr_1 {| shr_m := 2 * M; shr_r := false; shr_s := false |}
  = {| shr_m := M; shr_r := false; shr_s := false |}.
Proof. destruct M as [| p | p]; try lia. reflexivity. Qed.

Lemma iter_shr_1_exact (d : nat) M :
  0 < M ->
  Nat.iter d shr_1 {| shr_m := M * 2 ^ Z.of_nat d; shr_r := false; shr_s := false |}
  = {| shr_m := M; shr_r := false; shr_s := false |}.
Proof.
  intros HM. induction d as [| d IH].
  - simpl. f_equal. lia.
  - rewrite Nat.iter_succ_r.
    replace (M * 2 ^ Z.of_nat (S d)) with (2 * (M * 2 ^ Z.of_nat d)).
    + rewrite shr_1_even by (apply Z.mul_pos_pos; [lia | apply Z.pow_pos_nonneg; lia]).
      exact IH.
    + rewrite Nat2Z.inj_succ, Z.pow_succ_r by lia. lia.
Qed.

Lemma shr_exact M d e :
  0 < M -> 0 <= d ->
  shr {| shr_m := M * 2 ^ d; shr_r := false; shr_s := false |} e d
  = ({| shr_m := M; shr_r := false; shr_s := false |}, e + d).
Proof.
  intros HM Hd. destruct d as [| p | p]; try lia.
  - simpl. rewrite Z.mul_1_r, Z.add_0_r. reflexivity.
  - unfold shr. rewrite iter_pos_nat.
    rewrite <- (positive_nat_Z p) at 1. rewrite iter_shr_1_exact by lia.
    reflexivity.
Qed.

(** The exponent of a normal number of [n] bits above zero. *)
Lemma fexp_normal n : emin64 <= n - prec -> fexp prec emax n = n - prec.
Proof. unfold fexp, emin64. intros. lia. Qed.

(** *** Results that are exact

    Rounding a significand of 53 bits followed by [d] zeros. *)
Lemma binary_round_aux_shift M d e :
  0 < M -> Z.log2 M = 52 -> 0 <= d -> emin64 <= e + d <= emax - prec ->
  binary_round_aux prec emax false (M * 2 ^ d) e loc_Exact
  = S754_finite false (Z.to_pos M) (e + d).
Proof.
  intros HM Hlog Hd He.
  assert (0 < M * 2 ^ d) as HMd by (apply Z.mul_pos_pos; [lia | apply Z.pow_pos_nonneg; lia]).
  unfold binary_round_aux, shr_fexp.
  rewrite (Zdigits2_log2 _ HMd), Z.log2_mul_pow2, Hlog by lia.
  rewrite fexp_normal by (unfold prec; lia).
  replace (d + 52 + 1 + e - prec - e) with d by (unfold prec; lia).
  simpl shr_record_of_loc. rewrite shr_exact by lia.
  simpl loc_of_shr_record. simpl round_nearest_even. simpl shr_m at 1.
  rewrite (Zdigits2_log2 _ HM), Hlog.
  rewrite fexp_normal by (unfold prec; lia).
  replace (52 + 1 + (e + d) - prec - (e + d)) with 0 by (unfold prec; lia).
  simpl. destruct M as [| p | p]; try lia.
  rewrite (proj2 (Z.leb_le _ _)) by lia. reflexivity.
Qed.

(** The alignment of two significands on the smaller exponent. *)
Lemma pos_iter_xO m d : Z.pos (Pos.iter xO m d) = Z.pos m * 2 ^ Z.pos d.
Proof.
  induction d as [| d IH] using Pos.peano_ind.
  - simpl. lia.
  - rewrite Pos.iter_succ, Pos2Z.inj_xO, IH, Pos2Z.inj_succ, Z.pow_succ_r by lia. lia.
Qed.

Lemma shl_align_le mx ex ex' :
  ex' <= ex ->
  Z.pos (fst (shl_align mx ex ex')) = Z.pos mx * 2 ^ (ex - ex')
  /\ snd (shl_align mx ex ex') = ex'.
Proof.
  intros Hle. unfold shl_align.
  destruct (ex' - ex) as [| p | p] eqn:E; try lia.
  - replace (ex - ex') with 0 by lia. rewrite Z.pow_0_r, Z.mul_1_r.
    cbn [fst snd]. split; [reflexivity | lia].
  - cbn [fst snd]. rewrite pos_iter_xO.
    replace (ex - ex') with (Z.pos p) by lia. split; reflexivity.
Qed.

Lemma shl_align_ge mx ex ex' : ex <= ex' -> shl_align mx ex ex' = (mx, ex).
Proof.
  intros Hle. unfold shl_align. destruct (ex' - ex) as [| p | p] eqn:E; try lia; reflexivity.
Qed.

Lemma log2_lt_53 v : 0 < v < 2 ^ 53 -> 0 <= Z.log2 v <= 52.
Proof.
  intros [H0 H1]. split; [apply Z.log2_nonneg |].
  apply Z.log2_lt_pow2 in H1; lia.
Qed.

(** The number of [v * 2^t * 2^e], for [v] below [2^53], is the normal
    form of [v * 2^(e + t)]. *)
Lemma binary_normalize_scaled v t e :
  0 < v < 2 ^ 53 -> 0 <= t ->
  emin64 <= e + t - (52 - Z.log2 v) -> e + t - (52 - Z.log2 v) <= emax - prec ->
  binary_normalize prec emax (v * 2 ^ t) e false = canonical v (e + t).
Proof.
  intros Hv Ht Hlo Hhi. pose proof (log2_lt_53 v Hv) as Hlog.
  set (j := 52 - Z.log2 v) in *.
  assert (0 < v * 2 ^ t) as Hpos by (apply Z.mul_pos_pos; [lia | apply Z.pow_pos_nonneg; lia]).
  assert (0 < v * 2 ^ j) as Hposj by (apply Z.mul_pos_pos; [lia | apply Z.pow_pos_nonneg; lia]).
  assert (Z.log2 (v * 2 ^ j) = 52) as Hlogj by (rewrite Z.log2_mul_pow2; lia).
  destruct (v * 2 ^ t) as [| M | M] eqn:EM; try lia.
  unfold binary_normalize, binary_round.
  rewrite digits2_pos_log2, <- EM, Z.log2_mul_pow2 by lia.
  rewrite fexp_normal by (unfold prec; lia).
  replace (t + Z.log2 v + 1 + e - prec) with (e + t - j) by (unfold prec; lia).
  destruct (Z.le_gt_cases t j) as [Hle | Hgt].
  - destruct (shl_align_le M e (e + t - j)) as [Hm He]; [lia |].
    destruct (shl_align M e (e + t - j)) as [mz ez]. cbn [fst snd] in Hm, He. subst ez.
    rewrite Hm, <- EM.
    replace (v * 2 ^ t * 2 ^ (e - (e + t - j))) with (v * 2 ^ j * 2 ^ 0).
    + rewrite binary_round_aux_shift; try lia. unfold canonical. fold j. f_equal. lia.
    + replace (e - (e + t - j)) with (j - t) by lia.
      rewrite Z.pow_0_r, Z.mul_1_r, <- Z.mul_assoc, <- Z.pow_add_r by lia.
      do 2 f_equal. lia.
  - rewrite shl_align_ge by lia. rewrite <- EM.
    replace (v * 2 ^ t) with (v * 2 ^ j * 2 ^ (t - j)).
    + rewrite binary_round_aux_shift; try lia. unfold canonical. fold j. f_equal. lia.
    + rewrite <- Z.mul_assoc, <- Z.pow_add_r by lia. do 2 f_equal. lia.
Qed.

Lemma dyadic_canonical k a :
  (k <= 1021)%nat -> 0 < a < 2 ^ 53 -> dyadic k a = canonical a (- Z.of_nat k).
Proof.
  intros Hk Ha. pose proof (log2_lt_53 a Ha) as Hlog. unfold dyadic.
  rewrite <- (Z.mul_1_r a) at 1. rewrite <- (Z.pow_0_r 2).
  rewrite binary_normalize_scaled; try lia.
  - f_equal. lia.
  - unfold emin64, emin, emax, prec. lia.
  - unfold emax, prec. lia.
Qed.

Lemma canonical_mantissa_pos v :
  0 < v -> 0 <= Z.log2 v <= 52 ->
  Z.pos (Z.to_pos (v * 2 ^ (52 - Z.log2 v))) = v * 2 ^ (52 - Z.log2 v).
Proof.
  intros Hv Hlog. apply Z2Pos.id. apply Z.mul_pos_pos; [lia | apply Z.pow_pos_nonneg; lia].
Qed.

(** Two whole numbers of units of [1 / 2^k] add exactly. *)
Lemma num_add_dyadic k a b :
  (k <= 1021)%nat -> 0 <= a -> 0 <= b -> a + b < 2 ^ 53 ->
  num_add (dyadic k a) (dyadic k b) = dyadic k (a + b).
Proof.
  intros Hk Ha Hb Hsum. unfold num_add.
  destruct (Z.eq_dec a 0) as [-> | Ha0].
  { destruct (Z.eq_dec b 0) as [-> | Hb0]; [reflexivity |].
    rewrite Z.add_0_l. rewrite (dyadic_canonical k b) by lia. reflexivity. }
  destruct (Z.eq_dec b 0) as [-> | Hb0].
  { rewrite Z.add_0_r. rewrite (dyadic_canonical k a) by lia. reflexivity. }
  pose proof (log2_lt_53 a ltac:(lia)) as Hla.
  pose proof (log2_lt_53 b ltac:(lia)) as Hlb.
  pose proof (log2_lt_53 (a + b) ltac:(lia)) as Hlab.
  rewrite (dyadic_canonical k a), (dyadic_canonical k b), (dyadic_canonical k (a + b)) by lia.
  unfold canonical at 1 2. unfold SFadd.
  set (ex := - Z.of_nat k - (52 - Z.log2 a)).
  set (ey := - Z.of_nat k - (52 - Z.log2 b)).
  destruct (shl_align_le (Z.to_pos (a * 2 ^ (52 - Z.log2 a))) ex (Z.min ex ey)) as [Hx _]; [lia |].
  destruct (shl_align_le (Z.to_pos (b * 2 ^ (52 - Z.log2 b))) ey (Z.min ex ey)) as [Hy _]; [lia |].
  cbn [cond_Zopp]. rewrite Hx, Hy, !canonical_mantissa_pos by lia.
  replace (a * 2 ^ (52 - Z.log2 a) * 2 ^ (ex - Z.min ex ey)
           + b * 2 ^ (52 - Z.log2 b) * 2 ^ (ey - Z.min ex ey))
    with ((a + b) * 2 ^ (- Z.of_nat k - Z.min ex ey)).
  - rewrite binary_normalize_scaled; try lia.
    + f_equal. lia.
    + unfold emin64, emin, emax, prec. lia.
    + unfold emax, prec. lia.
  - rewrite <- !Z.mul_assoc, <- !Z.pow_add_r by lia.
    replace (52 - Z.log2 a + (ex - Z.min ex ey)) with (- Z.of_nat k - Z.min ex ey) by lia.
    replace (52 - Z.log2 b + (ey - Z.min ex ey)) with (- Z.of_nat k - Z.min ex ey) by lia.
    lia.
Qed.

(** *** Results that are rounded

    One right shift: the bit shifted out, and whether any was before. *)
Lemma shr_1_nonneg m r s :
  0 <= m ->
  shr_1 {| shr_m := m; shr_r := r; shr_s := s |}
  = {| shr_m := m / 2; shr_r := Z.odd m; shr_s := r || s |}.
Proof.
  intros Hm. rewrite <- Z.div2_div.
  destruct m as [| [p | p |] | p]; try lia; reflexivity.
Qed.

Lemma mod_pow2_succ M d :
  0 <= d -> M mod 2 ^ (d + 1) = M mod 2 ^ d + 2 ^ d * ((M / 2 ^ d) mod 2).
Proof.
  intros Hd. rewrite Z.pow_add_r, Z.pow_1_r by lia.
  apply Z.rem_mul_r; [apply Z.pow_nonzero; lia | lia].
Qed.

(** [n + 1] right shifts. *)
Lemma iter_shr_1_shifted (n : nat) M :
  0 <= M ->
  Nat.iter (S n) shr_1 {| shr_m := M; shr_r := false; shr_s := false |}
  = shifted M (Z.of_nat (S n)).
Proof.
  intros HM. induction n as [| n IH].
  - cbn [Nat.iter]. rewrite shr_1_nonneg by lia. unfold shifted.
    change (Z.of_nat 1) with 1. change (2 ^ (1 - 1)) with 1. change (2 ^ 1) with 2.
    f_equal.
    + rewrite Zmod_odd. destruct (Z.odd M); reflexivity.
    + rewrite Z.mod_1_r. reflexivity.
  - rewrite Nat.iter_succ, IH. unfold shifted at 1.
    assert (0 < 2 ^ Z.of_nat (S n)) as Hpow by (apply Z.pow_pos_nonneg; lia).
    rewrite shr_1_nonneg by (apply Z.div_pos; lia).
    set (d := Z.of_nat (S n)) in *.
    assert (Z.of_nat (S (S n)) = d + 1) as -> by lia.
    assert (1 <= d) as Hd by lia.
    unfold shifted. replace (d + 1 - 1) with d by lia.
    pose proof (mod_pow2_succ M d ltac:(lia)) as Hsucc.
    pose proof (Z.mod_pos_bound M (2 ^ d) Hpow) as HR.
    set (R := M mod 2 ^ d) in *.
    assert (2 ^ d = 2 * 2 ^ (d - 1)) as Hdd.
    { rewrite <- Z.pow_succ_r by lia. f_equal. lia. }
    assert (0 < 2 ^ (d - 1)) as Hpow' by (apply Z.pow_pos_nonneg; lia).
    f_equal.
    + rewrite Z.div_div by lia. f_equal. rewrite Z.pow_add_r by lia. reflexivity.
    + rewrite Hsucc, Zmod_odd. destruct (Z.odd (M / 2 ^ d)).
      * symmetry. apply Z.leb_le. lia.
      * symmetry. apply Z.leb_gt. lia.
    + rewrite Hsucc.
      assert ((R + 2 ^ d * ((M / 2 ^ d) mod 2)) mod 2 ^ d = R) as ->.
      { rewrite (Z.mul_comm (2 ^ d)), Z.mod_add by lia. apply Z.mod_small. lia. }
      destruct (Z.eq_dec R 0) as [HR0 | HR0].
      * rewrite HR0, Z.mod_0_l by lia.
        rewrite (proj2 (Z.leb_gt _ _)) by lia. reflexivity.
      * rewrite (proj2 (Z.eqb_neq R 0)) by lia.
        destruct (Z.leb_spec (2 ^ (d - 1)) R) as [Hle | Hlt]; [reflexivity |].
        rewrite (Z.mod_small R) by lia.
        rewrite (proj2 (Z.eqb_neq R 0)) by lia. reflexivity.
Qed.

(** Rounding after [d] shifts is within half a unit of the last place. *)
Lemma round_shifted_error M d :
  0 <= M -> 1 <= d ->
  let m1 := round_nearest_even (shr_m (shifted M d)) (loc_of_shr_record (shifted M d)) in
  M / 2 ^ d <= m1 <= M / 2 ^ d + 1 ∧ 2 * Z.abs (m1 * 2 ^ d - M) <= 2 ^ d.
Proof.
  intros HM Hd. unfold shifted. cbn [shr_m].
  assert (0 < 2 ^ (d - 1)) as HP by (apply Z.pow_pos_nonneg; lia).
  assert (2 ^ d = 2 * 2 ^ (d - 1)) as Hdd.
  { rewrite <- Z.pow_succ_r by lia. f_equal. lia. }
  pose proof (Z.div_mod M (2 ^ d) ltac:(lia)) as HMeq.
  pose proof (Z.mod_pos_bound M (2 ^ d) ltac:(lia)) as HR.
  set (q := M / 2 ^ d) in *. set (R := M mod 2 ^ d) in *.
  set (P := 2 ^ (d - 1)) in *. rewrite Hdd in *. clearbody q R P. clear Hdd.
  destruct (Z.leb_spec P R) as [Hle | Hlt].
  - destruct (Z.eqb_spec (R mod P) 0) as [Hs | Hs]; cbn [negb loc_of_shr_record round_nearest_even].
    + assert (R = P) as ->.
      { pose proof (Z.div_mod R P ltac:(lia)) as HRP. rewrite Hs in HRP.
        assert (R / P = 1) by nia. nia. }
      destruct (Z.even q); split; nia.
    + split; nia.
  - destruct (Z.eqb_spec (R mod P) 0) as [Hs | Hs]; cbn [negb loc_of_shr_record round_nearest_even];
      split; nia.
Qed.

Lemma log2_div_pow2 M d :
  0 < M -> 0 <= d -> Z.log2 M = 52 + d -> Z.log2 (M / 2 ^ d) = 52.
Proof.
  intros HM Hd Hlog. rewrite <- Z.shiftr_div_pow2 by lia.
  rewrite Z.log2_shiftr by lia. lia.
Qed.

Lemma log2_52_bounds m : 0 < m -> (Z.log2 m = 52 <-> 2 ^ 52 <= m < 2 ^ 53).
Proof.
  intros Hm. split.
  - intros Hlog. pose proof (Z.log2_spec m Hm) as H. rewrite Hlog in H.
    change (Z.succ 52) with 53 in H. exact H.
  - intros H. apply Z.log2_unique; [lia |]. exact H.
Qed.

(** [binary_round_aux] on a significand of [53 + d] bits: a significand
    of 53 bits, within half a unit of the last place kept. *)
Lemma binary_round_aux_error M e d :
  0 < M -> Z.log2 M = 52 + d -> 0 <= d ->
  emin64 <= e + d -> e + d + 1 <= emax - prec ->
  exists m' d',
    binary_round_aux prec emax false M e loc_Exact = S754_finite false m' (e + d')
    ∧ Z.log2 (Z.pos m') = 52
    ∧ (d' = d ∨ d' = d + 1)
    ∧ 2 * Z.abs (Z.pos m' * 2 ^ d' - M) <= 2 ^ d.
Proof.
  intros HM Hlog Hd Hlo Hhi.
  destruct (Z.eq_dec d 0) as [-> | Hd0].
  { exists (Z.to_pos M), 0. rewrite <- (Z.mul_1_r M) at 1. rewrite <- (Z.pow_0_r 2).
    rewrite binary_round_aux_shift by lia.
    rewrite Z2Pos.id by lia. repeat split; lia. }
  assert (1 <= d) as Hd1 by lia.
  pose proof (round_shifted_error M d ltac:(lia) Hd1) as [Hm1 Herr].
  pose proof (log2_div_pow2 M d HM Hd Hlog) as Hq.
  assert (0 < 2 ^ d) as Hpow by (apply Z.pow_pos_nonneg; lia).
  assert (0 < M / 2 ^ d) as Hqpos.
  { apply Z.div_str_pos. split; [lia |].
    pose proof (Z.log2_spec M HM) as [Hl _]. rewrite Hlog in Hl.
    rewrite Z.pow_add_r in Hl by lia.
    assert (0 < 2 ^ 52) by (apply Z.pow_pos_nonneg; lia). nia. }
  apply (log2_52_bounds _ Hqpos) in Hq.
  unfold binary_round_aux, shr_fexp.
  rewrite (Zdigits2_log2 _ HM), Hlog.
  rewrite fexp_normal by (unfold prec; lia).
  replace (52 + d + 1 + e - prec - e) with d by (unfold prec; lia).
  cbn [shr_record_of_loc].
  assert (shr {| shr_m := M; shr_r := false; shr_s := false |} e d = (shifted M d, e + d)) as ->.
  { destruct d as [| p | p]; try lia. unfold shr. rewrite iter_pos_nat.
    destruct (Pos2Nat.is_succ p) as [n Hn]. rewrite Hn.
    rewrite iter_shr_1_shifted by lia. rewrite <- Hn, positive_nat_Z. reflexivity. }
  set (m1 := round_nearest_even (shr_m (shifted M d)) (loc_of_shr_record (shifted M d))) in *.
  assert (0 < m1) as Hm1pos by lia.
  destruct (Z.eq_dec m1 (2 ^ 53)) as [Hcarry | Hnocarry].
  - rewrite (Zdigits2_log2 _ Hm1pos), Hcarry. rewrite Z.log2_pow2 by lia.
    rewrite fexp_normal by (unfold prec; lia).
    replace (53 + 1 + (e + d) - prec - (e + d)) with 1 by (unfold prec; lia).
    cbn [shr_record_of_loc]. unfold shr. cbn [SpecFloat.iter_pos].
    rewrite shr_1_nonneg by lia. cbn [shr_m].
    change (2 ^ 53 / 2) with (Z.pos (2 ^ 52)%positive).
    rewrite (proj2 (Z.leb_le _ _)) by lia.
    exists (2 ^ 52)%positive, (d + 1). rewrite Z.add_assoc.
    repeat split; try lia.
    rewrite Z.pow_add_r, Z.pow_1_r by lia.
    replace (Z.pos (2 ^ 52) * (2 ^ d * 2)) with (m1 * 2 ^ d); [exact Herr |].
    rewrite Hcarry. change (Z.pos (2 ^ 52)) with (2 ^ 52). lia.
  - assert (Z.log2 m1 = 52) as Hlog1 by (apply (log2_52_bounds _ Hm1pos); lia).
    rewrite (Zdigits2_log2 _ Hm1pos), Hlog1.
    rewrite fexp_normal by (unfold prec; lia).
    replace (52 + 1 + (e + d) - prec - (e + d)) with 0 by (unfold prec; lia).
    cbn [shr_record_of_loc shr shr_m].
    destruct m1 as [| p1 | p1] eqn:Em1; try lia.
    rewrite (proj2 (Z.leb_le _ _)) by lia.
    exists p1, d. repeat split; lia.
Qed.

(** *** Addition

    The sum of two positive normal numbers is a normal number within the
    relative error [2^-53] of the exact sum (values in units of
    [2^emin64]). *)
Lemma num_add_normal ma ea mb eb :
  Z.log2 (Z.pos ma) = 52 -> Z.log2 (Z.pos mb) = 52 ->
  emin64 <= ea < 0 -> emin64 <= eb < 0 ->
  exists m' e',
    num_add (S754_finite false ma ea) (S754_finite false mb eb)
    = S754_finite false m' e'
    ∧ Z.log2 (Z.pos m') = 52
    ∧ emin64 <= e'
    ∧ 2 ^ 53 * Z.abs (Z.pos m' * 2 ^ (e' - emin64)
                       - (Z.pos ma * 2 ^ (ea - emin64) + Z.pos mb * 2 ^ (eb - emin64)))
       <= Z.pos ma * 2 ^ (ea - emin64) + Z.pos mb * 2 ^ (eb - emin64).
Proof.
  intros Hla Hlb Hea Heb.
  apply log2_52_bounds in Hla; [| lia]. apply log2_52_bounds in Hlb; [| lia].
  unfold num_add, SFadd. set (ez := Z.min ea eb).
  destruct (shl_align_le ma ea ez) as [Hx _]; [lia |].
  destruct (shl_align_le mb eb ez) as [Hy _]; [lia |].
  cbn [cond_Zopp]. rewrite Hx, Hy. clear Hx Hy.
  set (M := Z.pos ma * 2 ^ (ea - ez) + Z.pos mb * 2 ^ (eb - ez)).
  assert (0 < 2 ^ (ea - ez)) as Hpa by (apply Z.pow_pos_nonneg; lia).
  assert (0 < 2 ^ (eb - ez)) as Hpb by (apply Z.pow_pos_nonneg; lia).
  set (ex := Z.max ea eb).
  assert (2 ^ (ea - ez) <= 2 ^ (ex - ez)) as Hpa' by (apply Z.pow_le_mono_r; lia).
  assert (2 ^ (eb - ez) <= 2 ^ (ex - ez)) as Hpb' by (apply Z.pow_le_mono_r; lia).
  assert (2 ^ 52 <= M) as HMlo.
  { unfold M. assert (ea = ez ∨ eb = ez) as [E | E] by lia.
    - rewrite E, Z.sub_diag, Z.pow_0_r in *. nia.
    - rewrite E, Z.sub_diag, Z.pow_0_r in *. nia. }
  assert (M < 2 ^ (54 + (ex - ez))) as HMhi.
  { rewrite Z.pow_add_r by lia. unfold M. nia. }
  assert (0 < M) as HMpos by lia.
  assert (52 <= Z.log2 M) as Hl1 by (apply Z.log2_le_pow2; lia).
  assert (Z.log2 M < 54 + (ex - ez)) as Hl2 by (apply Z.log2_lt_pow2; lia).
  set (d := Z.log2 M - 52).
  destruct M as [| Mp | Mp] eqn:EM; try lia.
  unfold binary_normalize, binary_round.
  rewrite digits2_pos_log2, fexp_normal by (unfold prec, emin64, emin, emax in *; lia).
  rewrite shl_align_ge by (unfold prec; lia).
  destruct (binary_round_aux_error (Z.pos Mp) ez d) as (m' & d' & Hres & Hlog & Hd' & Herr);
    try (unfold d, prec, emax; lia).
  exists m', (ez + d'). rewrite Hres. split; [reflexivity |].
  split; [exact Hlog |]. split; [lia |].
  set (S := 2 ^ (ez - emin64)).
  assert (0 < S) as HS by (apply Z.pow_pos_nonneg; lia).
  assert (2 ^ (ez + d' - emin64) = 2 ^ d' * S) as ->.
  { unfold S. rewrite <- Z.pow_add_r by lia. f_equal. lia. }
  assert (2 ^ (ea - emin64) = 2 ^ (ea - ez) * S) as ->.
  { unfold S. rewrite <- Z.pow_add_r by lia. f_equal. lia. }
  assert (2 ^ (eb - emin64) = 2 ^ (eb - ez) * S) as ->.
  { unfold S. rewrite <- Z.pow_add_r by lia. f_equal. lia. }
  assert (2 ^ (52 + d) <= Z.pos Mp) as Hpow.
  { replace (52 + d) with (Z.log2 (Z.pos Mp)) by (unfold d; lia).
    apply Z.log2_spec. lia. }
  rewrite Z.pow_add_r in Hpow by (unfold d; lia).
  assert (0 < 2 ^ d) as Hpd by (apply Z.pow_pos_nonneg; unfold d; lia).
  replace (Z.pos m' * (2 ^ d' * S) - (Z.pos ma * (2 ^ (ea - ez) * S) + Z.pos mb * (2 ^ (eb - ez) * S)))
    with ((Z.pos m' * 2 ^ d' - Z.pos Mp) * S) by (rewrite <- EM; unfold M; ring).
  replace (Z.pos ma * (2 ^ (ea - ez) * S) + Z.pos mb * (2 ^ (eb - ez) * S))
    with (Z.pos Mp * S) by (rewrite <- EM; unfold M; ring).
  rewrite Z.abs_mul, (Z.abs_eq S) by lia.
  assert (2 ^ 53 * Z.abs (Z.pos m' * 2 ^ d' - Z.pos Mp) <= Z.pos Mp) as Hrel.
  { change (2 ^ 53) with (2 ^ 52 * 2). lia. }
  nia.
Qed.

(** *** Division *)

Lemma loc_of_record_of_loc m l : loc_of_shr_record (shr_record_of_loc m l) = l.
Proof. destruct l as [| []]; reflexivity. Qed.

(** The location of [q + r / D] between [q] and [q + 1], for an even [D]. *)
Lemma new_location_even_spec D r :
  Z.even D = true -> 0 <= r < D ->
  new_location D r =
    if r =? 0 then loc_Exact else loc_Inexact (2 * r ?= D).
Proof. intros Heven Hr. unfold new_location. rewrite Heven. reflexivity. Qed.

(** Rounding [q + r / D] to an integer. *)
Lemma round_location_error q D r :
  0 <= q -> Z.even D = true -> 0 <= r < D ->
  let m1 := round_nearest_even q (new_location D r) in
  q <= m1 <= q + 1 ∧ 2 * Z.abs (m1 * D - (q * D + r)) <= D.
Proof.
  intros Hq Heven Hr. rewrite new_location_even_spec by assumption.
  destruct (Z.eqb_spec r 0) as [-> | Hr0]; cbn [round_nearest_even].
  - split; [lia | nia].
  - destruct (Z.compare_spec (2 * r) D) as [Heq | Hlt | Hgt].
    + destruct (Z.even q); split; nia.
    + split; nia.
    + split; nia.
Qed.

(** Rounding [(q + r / D) / 2] to an integer. *)
Lemma round_location_shift_error q D r :
  0 <= q -> Z.even D = true -> 0 <= r < D ->
  let mrs := shr_1 (shr_record_of_loc q (new_location D r)) in
  let m1 := round_nearest_even (shr_m mrs) (loc_of_shr_record mrs) in
  q / 2 <= m1 <= q / 2 + 1 ∧ 2 * Z.abs (m1 * 2 * D - (q * D + r)) <= 2 * D.
Proof.
  intros Hq Heven Hr. rewrite new_location_even_spec by assumption.
  pose proof (Z.div_mod q 2 ltac:(lia)) as Hq2.
  pose proof (Zmod_odd q) as Hodd.
  destruct (Z.eqb_spec r 0) as [-> | Hr0].
  - cbn [shr_record_of_loc]. rewrite shr_1_nonneg by lia.
    cbn [shr_m loc_of_shr_record orb].
    destruct (Z.odd q); cbn [loc_of_shr_record round_nearest_even].
    + destruct (Z.even (q / 2)); split; nia.
    + split; nia.
  - assert (shr_1 (shr_record_of_loc q (loc_Inexact (2 * r ?= D)))
            = {| shr_m := q / 2; shr_r := Z.odd q; shr_s := true |}) as ->.
    { destruct (2 * r ?= D); cbn [shr_record_of_loc]; rewrite shr_1_nonneg by lia;
        f_equal; apply orb_true_r. }
    cbn [shr_m].
    destruct (Z.odd q); cbn [loc_of_shr_record round_nearest_even]; split; nia.
Qed.

Lemma binary_round_aux_finish sx mx ex lx :
  binary_round_aux prec emax sx mx ex lx =
    let '(mrs', e') := shr_fexp prec emax mx ex lx in
    finish sx (round_nearest_even (shr_m mrs') (loc_of_shr_record mrs')) e'.
Proof. reflexivity. Qed.

Lemma finish_spec m1 e :
  2 ^ 52 <= m1 <= 2 ^ 53 -> emin64 <= e -> e + 1 <= emax - prec ->
  exists m' c,
    finish false m1 e = S754_finite false m' (e + c)
    ∧ Z.log2 (Z.pos m') = 52 ∧ 0 <= c <= 1 ∧ Z.pos m' * 2 ^ c = m1.
Proof.
  intros Hm1 Hlo Hhi. assert (0 < m1) as Hpos by lia. unfold finish, shr_fexp.
  destruct (Z.eq_dec m1 (2 ^ 53)) as [Hcarry | Hnocarry].
  - rewrite (Zdigits2_log2 _ Hpos), Hcarry. rewrite Z.log2_pow2 by lia.
    rewrite fexp_normal by (unfold prec; lia).
    replace (53 + 1 + e - prec - e) with 1 by (unfold prec; lia).
    cbn [shr_record_of_loc]. unfold shr. cbn [SpecFloat.iter_pos].
    rewrite shr_1_nonneg by lia. cbn [shr_m].
    change (2 ^ 53 / 2) with (Z.pos (2 ^ 52)%positive).
    rewrite (proj2 (Z.leb_le _ _)) by lia.
    exists (2 ^ 52)%positive, 1. repeat split; try lia.
  - assert (Z.log2 m1 = 52) as Hlog1 by (apply (log2_52_bounds _ Hpos); lia).
    rewrite (Zdigits2_log2 _ Hpos), Hlog1.
    rewrite fexp_normal by (unfold prec; lia).
    replace (52 + 1 + e - prec - e) with 0 by (unfold prec; lia).
    cbn [shr_record_of_loc shr shr_m].
    destruct m1 as [| p1 | p1] eqn:Em1; try lia.
    rewrite (proj2 (Z.leb_le _ _)) by lia.
    exists p1, 0. rewrite Z.add_0_r. repeat split; lia.
Qed.

(** [binary_round_aux] on the quotient [q] (of 53 or 54 bits) and the
    place of the remainder [r]. *)
Lemma binary_round_aux_location q e D r sh0 :
  0 < q -> Z.log2 q = 52 + sh0 -> 0 <= sh0 <= 1 ->
  Z.even D = true -> 0 <= r < D ->
  emin64 <= e + sh0 -> e + sh0 + 1 <= emax - prec ->
  exists m' sh,
    binary_round_aux prec emax false q e (new_location D r)
      = S754_finite false m' (e + sh)
    ∧ Z.log2 (Z.pos m') = 52
    ∧ sh0 <= sh <= sh0 + 1
    ∧ 2 * Z.abs (Z.pos m' * 2 ^ sh * D - (q * D + r)) <= 2 ^ sh0 * D.
Proof.
  intros Hq Hlog Hsh0 Heven Hr Hlo Hhi.
  rewrite binary_round_aux_finish. unfold shr_fexp.
  rewrite (Zdigits2_log2 _ Hq), Hlog.
  rewrite fexp_normal by (unfold prec; lia).
  replace (52 + sh0 + 1 + e - prec - e) with sh0 by (unfold prec; lia).
  pose proof (Z.log2_spec q Hq) as Hqb. rewrite Hlog in Hqb.
  assert (sh0 = 0 ∨ sh0 = 1) as [-> | ->] by lia.
  - cbn [shr]. rewrite loc_of_record_of_loc.
    assert (shr_m (shr_record_of_loc q (new_location D r)) = q) as ->.
    { destruct (new_location D r) as [| []]; reflexivity. }
    pose proof (round_location_error q D r ltac:(lia) Heven Hr) as [Hm1 Herr].
    set (m1 := round_nearest_even q (new_location D r)) in *.
    change (Z.succ (52 + 0)) with 53 in Hqb. change (52 + 0) with 52 in Hqb.
    destruct (finish_spec m1 e) as (m' & c & Hres & Hlogm & Hc & Hval); try lia.
    exists m', c. rewrite Z.add_0_r in *. rewrite Hres.
    repeat split; try lia.
  - unfold shr. cbn [SpecFloat.iter_pos].
    pose proof (round_location_shift_error q D r ltac:(lia) Heven Hr) as [Hm1 Herr].
    set (mrs := shr_1 (shr_record_of_loc q (new_location D r))) in *.
    set (m1 := round_nearest_even (shr_m mrs) (loc_of_shr_record mrs)) in *.
    change (Z.succ (52 + 1)) with 54 in Hqb. change (52 + 1) with 53 in Hqb.
    assert (2 ^ 52 <= q / 2 < 2 ^ 53) as Hhalf.
    { split.
      - apply Z.div_le_lower_bound; [lia |]. change (2 * 2 ^ 52) with (2 ^ 53). lia.
      - apply Z.div_lt_upper_bound; [lia |]. change (2 * 2 ^ 53) with (2 ^ 54). lia. }
    destruct (finish_spec m1 (e + 1)) as (m' & c & Hres & Hlogm & Hc & Hval); try lia.
    exists m', (1 + c). rewrite Z.add_assoc, Hres.
    repeat split; try lia.
    rewrite Z.pow_add_r, Z.mul_assoc by lia.
    replace (Z.pos m' * 2 ^ 1 * 2 ^ c) with (m1 * 2) by (rewrite <- Hval; ring).
    change (2 ^ 1) with 2. lia.
Qed.

(** The quotient of two positive normal numbers, the divisor of an even
    significand, is a normal number within the relative error [2^-53] of
    the exact quotient. *)
Lemma num_div_normal m1 e1 m2 e2 :
  Z.log2 (Z.pos m1) = 52 -> Z.log2 (Z.pos m2) = 52 -> Z.even (Z.pos m2) = true ->
  emin64 <= e1 - e2 - 53 -> e1 - e2 - 53 + 2 <= emax - prec ->
  exists m' sh,
    num_div (S754_finite false m1 e1) (S754_finite false m2 e2)
      = S754_finite false m' (e1 - e2 - 53 + sh)
    ∧ Z.log2 (Z.pos m') = 52
    ∧ 0 <= sh <= 2
    ∧ 2 ^ 53 * Z.abs (Z.pos m' * 2 ^ sh * Z.pos m2 - Z.pos m1 * 2 ^ 53)
       <= Z.pos m1 * 2 ^ 53.
Proof.
  intros Hl1 Hl2 Heven Hlo Hhi.
  unfold num_div, SFdiv, SFdiv_core_binary. cbn [xorb].
  rewrite !(Zdigits2_log2 _ (Pos2Z.is_pos _)), Hl1, Hl2.
  rewrite fexp_normal by (unfold prec; lia).
  replace (52 + 1 + e1 - (52 + 1 + e2) - prec) with (e1 - e2 - 53) by (unfold prec; lia).
  rewrite Z.min_l by lia.
  replace (e1 - e2 - (e1 - e2 - 53)) with 53 by lia.
  rewrite Z.shiftl_mul_pow2 by lia.
  apply log2_52_bounds in Hl1; [| lia]. apply log2_52_bounds in Hl2; [| lia].
  set (N := Z.pos m1 * 2 ^ 53). set (D := Z.pos m2) in *.
  pose proof (Z.div_eucl_eq N D ltac:(lia)) as Heq.
  pose proof (Z.mod_pos_bound N D ltac:(lia)) as Hr.
  unfold Z.modulo in Hr.
  destruct (Z.div_eucl N D) as [q r].
  assert (2 ^ 52 <= q < 2 ^ 54) as Hq.
  { unfold N in Heq. change (2 ^ 54) with (2 * 2 ^ 53). split; nia. }
  assert (0 < q) as Hqpos by lia.
  set (sh0 := Z.log2 q - 52).
  assert (0 <= sh0 <= 1) as Hsh0.
  { unfold sh0. split.
    - assert (52 <= Z.log2 q) by (apply Z.log2_le_pow2; lia). lia.
    - assert (Z.log2 q < 54) by (apply Z.log2_lt_pow2; lia). lia. }
  destruct (binary_round_aux_location q (e1 - e2 - 53) D r sh0)
    as (m' & sh & Hres & Hlog & Hsh & Herr); try (unfold sh0; lia); try assumption.
  exists m', sh. rewrite Hres. repeat split; try lia.
  assert (2 ^ (52 + sh0) <= q) as Hqlo.
  { replace (52 + sh0) with (Z.log2 q) by (unfold sh0; lia). apply Z.log2_spec. lia. }
  rewrite Z.pow_add_r in Hqlo by lia.
  assert (0 < 2 ^ sh0) by (apply Z.pow_pos_nonneg; lia).
  rewrite Heq. replace (D * q + r) with (q * D + r) by ring.
  change (2 ^ 53) with (2 * 2 ^ 52). nia.
Qed.

(** An integer below [2^53] is read exactly. *)
Lemma num_of_Z_canonical c : 0 < c < 2 ^ 53 -> num_of_Z c = canonical c 0.
Proof.
  intros Hc. pose proof (log2_lt_53 c Hc) as Hlog. unfold num_of_Z.
  rewrite <- (Z.mul_1_r c) at 1. rewrite <- (Z.pow_0_r 2).
  rewrite binary_normalize_scaled; try lia.
  - reflexivity.
  - unfold emin64, emin, emax, prec. lia.
  - unfold emax, prec. lia.
Qed.
End NumberFacts.

(** ** Numbers: sums of amounts in cents *)

(** The scale and the two bounds as numerals, for linear arithmetic. *)
Ltac numeral_scale :=
  unfold unit_scale, max_total_cents, max_packages, emin64, emin, emax, prec in *;
  let v := eval vm_compute in (2 ^ 1074) in
  change (2 ^ (- (3 - 1024 - 53))) with v in *.

Section CentsFacts.
Local Open Scope Z_scope.

Lemma scaled_nonneg x : 0 ≤ scaled x.
Proof. destruct x as [| | | [] m e]; cbn [scaled]; lia. Qed.

(** Adding two amounts that stay below [2^51]: the result is an amount,
    within the relative error [2^-53] of the exact sum. *)
Lemma num_add_amount a b :
  amount a → amount b → scaled a + scaled b ≤ 2 ^ 51 * unit_scale →
  amount (num_add a b)
  ∧ 2 ^ 53 * Z.abs (scaled (num_add a b) - (scaled a + scaled b))
    ≤ scaled a + scaled b.
Proof.
  intros Ha Hb Hsum. pose proof (scaled_nonneg a). pose proof (scaled_nonneg b).
  destruct a as [[] | | | [] ma ea]; try contradiction;
    destruct b as [[] | | | [] mb eb]; try contradiction.
  - split; [exact I |]. simpl. lia.
  - split; [exact Hb |]. change (num_add _ _) with (S754_finite false mb eb).
    rewrite Z.add_0_l, Z.sub_diag. simpl Z.abs. lia.
  - split; [exact Ha |]. change (num_add _ _) with (S754_finite false ma ea).
    change (scaled (S754_zero false)) with 0 in *.
    rewrite Z.add_0_r, Z.sub_diag. simpl Z.abs. lia.
  - destruct Ha as [Hla Hea], Hb as [Hlb Heb].
    destruct (num_add_normal ma ea mb eb Hla Hlb Hea Heb)
      as (m' & e' & Hres & Hlog & He' & Herr).
    rewrite Hres. cbn [scaled amount] in *.
    split; [| exact Herr].
    split; [exact Hlog |]. split; [exact He' |].
    destruct (Z.lt_ge_cases e' 0) as [Hneg | Hpos]; [exact Hneg | exfalso].
    set (s := Z.pos ma * 2 ^ (ea - emin64) + Z.pos mb * 2 ^ (eb - emin64)) in *.
    apply log2_52_bounds in Hlog; [| lia].
    assert (unit_scale ≤ 2 ^ (e' - emin64)) as Hscale.
    { unfold unit_scale. apply Z.pow_le_mono_r; lia. }
    assert (0 < unit_scale)
      by (apply Z.pow_pos_nonneg; unfold emin64, emin, emax, prec; lia).
    assert (2 ^ 52 * unit_scale ≤ Z.pos m' * 2 ^ (e' - emin64)) by nia.
    lia.
Qed.

Lemma round_scaled_nonneg f m e : 0 ≤ round_scaled f m e.
Proof.
  unfold round_scaled.
  assert (0 < 10 ^ Z.of_nat f) by (apply Z.pow_pos_nonneg; lia).
  destruct (Z.leb_spec 0 e).
  - assert (0 < 2 ^ e) by (apply Z.pow_pos_nonneg; lia). nia.
  - assert (0 < 2 ^ (- e)) by (apply Z.pow_pos_nonneg; lia).
    apply Z.div_pos; nia.
Qed.

Lemma cents_nonneg x : 0 ≤ cents x.
Proof.
  destruct x as [| | | [] m e]; cbn [cents]; try lia. apply round_scaled_nonneg.
Qed.

Lemma total_cents_cons p pkgs :
  total_cents (p :: pkgs) = cents (courierPrice p) + total_cents pkgs.
Proof. reflexivity. Qed.

Lemma total_cents_nonneg pkgs : 0 ≤ total_cents pkgs.
Proof.
  induction pkgs as [| p pkgs IH]; [done |].
  rewrite total_cents_cons. pose proof (cents_nonneg (courierPrice p)). lia.
Qed.

Lemma total_cents_perm pkgs pkgs' :
  pkgs ≡ₚ pkgs' → total_cents pkgs' = total_cents pkgs.
Proof.
  induction 1 as [| p l l' _ IH | p q l | l l' l'' _ IH1 _ IH2];
    rewrite ?total_cents_cons; lia.
Qed.

(** The error of the running sum: after [k] prices it is at most [3 * k]
    times [2^-53] of the largest total allowed. *)
Lemma fold_cents_prices pkgs : ∀ acc Cacc k,
  amount acc → 0 ≤ Cacc → 0 ≤ k →
  2 ^ 53 * Z.abs (100 * scaled acc - Cacc * unit_scale)
    ≤ 3 * k * (max_total_cents * unit_scale) →
  Forall (λ p, cents_price (courierPrice p)) pkgs →
  Cacc + total_cents pkgs ≤ max_total_cents →
  k + Z.of_nat (length pkgs) ≤ max_packages →
  let r := foldl (λ sum pkg, num_add sum (Number (courierPrice pkg))) acc pkgs in
  amount r
  ∧ 2 ^ 53 * Z.abs (100 * scaled r - (Cacc + total_cents pkgs) * unit_scale)
    ≤ 3 * (k + Z.of_nat (length pkgs)) * (max_total_cents * unit_scale).
Proof.
  induction pkgs as [| p pkgs IH];
    intros acc Cacc k Hacc HC Hk Hinv Hall Htotal Hlen.
  - cbn [foldl length] in *. change (total_cents []) with 0.
    rewrite !Z.add_0_r. split; [exact Hacc | exact Hinv].
  - apply Forall_cons in Hall as [[Hp Hperr] Hall].
    rewrite total_cents_cons in *. unfold Number at 1.
    set (x := courierPrice p) in *.
    pose proof (cents_nonneg x) as Hc. pose proof (total_cents_nonneg pkgs) as Ht.
    pose proof (scaled_nonneg acc) as Hsa. pose proof (scaled_nonneg x) as Hsp.
    cbn [foldl length] in *. rewrite Nat2Z.inj_succ in *.
    destruct (num_add_amount acc x Hacc Hp) as [Hacc' Herr].
    { clear IH. numeral_scale. lia. }
    assert (2 ^ 53 * Z.abs (100 * scaled (num_add acc x)
                            - (Cacc + cents x) * unit_scale)
            ≤ 3 * (k + 1) * (max_total_cents * unit_scale)) as Hinv'.
    { clear IH. numeral_scale. lia. }
    destruct (IH (num_add acc x) (Cacc + cents x) (k + 1) Hacc'
                ltac:(lia) ltac:(lia) Hinv' Hall ltac:(lia) ltac:(lia))
      as [Hr Hrinv].
    split; [exact Hr |].
    replace (Cacc + (cents x + total_cents pkgs))
      with (Cacc + cents x + total_cents pkgs) by lia.
    replace (k + Z.succ (Z.of_nat (length pkgs)))
      with (k + 1 + Z.of_nat (length pkgs)) by lia.
    exact Hrinv.
Qed.

(** An amount that close to [C] cents has [C] as its nearest cent. *)
Lemma cents_of_amount x C :
  amount x → 0 ≤ C →
  2 ^ 53 * Z.abs (100 * scaled x - C * unit_scale)
    ≤ 3 * max_packages * (max_total_cents * unit_scale) →
  cents x = C.
Proof.
  intros Hx HC Herr.
  destruct x as [[] | | | [] m e]; try contradiction; cbn [cents scaled] in *.
  - numeral_scale. lia.
  - destruct Hx as [Hlog He]. unfold round_scaled.
    rewrite (proj2 (Z.leb_gt 0 e)) by lia.
    change (10 ^ Z.of_nat 2) with 100.
    set (Q := 2 ^ (- e)). set (P := 2 ^ (e - emin64)) in *.
    assert (0 < Q) as HQ by (apply Z.pow_pos_nonneg; lia).
    assert (0 < P) as HP by (apply Z.pow_pos_nonneg; lia).
    assert (unit_scale = Q * P) as HG.
    { unfold unit_scale, Q, P. rewrite <- Z.pow_add_r by lia. f_equal. lia. }
    rewrite HG in Herr.
    replace (100 * (Z.pos m * P) - C * (Q * P))
      with ((100 * Z.pos m - C * Q) * P) in Herr by ring.
    rewrite Z.abs_mul, (Z.abs_eq P) in Herr by lia.
    assert (2 ^ 53 * Z.abs (100 * Z.pos m - C * Q)
            ≤ 3 * max_packages * max_total_cents * Q) as Hrel.
    { apply (Z.mul_le_mono_pos_r _ _ P HP).
      replace (2 ^ 53 * Z.abs (100 * Z.pos m - C * Q) * P)
        with (2 ^ 53 * (Z.abs (100 * Z.pos m - C * Q) * P)) by ring.
      replace (3 * max_packages * max_total_cents * Q * P)
        with (3 * max_packages * (max_total_cents * (Q * P))) by ring.
      exact Herr. }
    clear Herr HG. unfold max_packages, max_total_cents in Hrel.
    symmetry.
    apply (Z.div_unique _ _ C (2 * (Z.pos m * 100) + Q - 2 * Q * C)); lia.
Qed.

(** [toFixed(2)] of an amount writes its nearest cent. *)
Lemma toFixed_amount x : amount x → toFixed 2 x = fixed_digits 2 (cents x).
Proof.
  destruct x as [[] | | | [] m e]; try contradiction; [done |].
  intros [Hlog He]. cbn [toFixed cents].
  assert (at_least_1e21 m e = false) as ->; [| done].
  unfold at_least_1e21. rewrite (proj2 (Z.leb_gt 0 e)) by lia.
  apply Z.leb_gt. apply log2_52_bounds in Hlog; [| lia].
  assert (1 ≤ 2 ^ (- e)) by (apply (Z.pow_le_mono_r 2 0); lia).
  change (2 ^ 53) with 9007199254740992 in Hlog.
  change (10 ^ 21) with 1000000000000000000000. lia.
Qed.

(** The number written [c / 100], for [c] up to [10^11], is an amount in
    whole cents, and its cents are [c]. *)
Lemma decimal2_cents_price c :
  0 <= c <= max_total_cents ->
  cents_price (decimal c 2) ∧ cents (decimal c 2) = c.
Proof.
  intros Hc.
  destruct (Z.eq_dec c 0) as [-> | Hc0].
  { split; [| reflexivity]. split; [exact I |]. vm_compute. discriminate. }
  assert (0 < c < 2 ^ 53) as Hc53 by (unfold max_total_cents in Hc; lia).
  pose proof (log2_lt_53 c Hc53) as Hlog.
  unfold decimal. rewrite (num_of_Z_canonical c Hc53).
  change (num_of_Z (10 ^ Z.of_nat 2)) with (S754_finite false 7036874417766400 (-46)).
  unfold canonical. set (j := 52 - Z.log2 c) in *.
  assert (0 < c * 2 ^ j) as Hm1 by (apply Z.mul_pos_pos; [lia | apply Z.pow_pos_nonneg; lia]).
  destruct (num_div_normal (Z.to_pos (c * 2 ^ j)) (0 - j) 7036874417766400 (-46))
    as (m' & sh & Hres & Hlogm & Hsh & Herr).
  { rewrite Z2Pos.id by lia. rewrite Z.log2_mul_pow2 by lia. lia. }
  { reflexivity. }
  { reflexivity. }
  { unfold emin64, emin, emax, prec. lia. }
  { unfold emax, prec. lia. }
  fold (num_div (S754_finite false (Z.to_pos (c * 2 ^ j)) (0 - j))
                (S754_finite false 7036874417766400 (-46))).
  rewrite Hres. rewrite Z2Pos.id in Herr by lia.
  set (E := 0 - j - -46 - 53 + sh) in *.
  set (x := S754_finite false m' E).
  assert (amount x) as Hamount.
  { cbn [amount x]. unfold x, amount. split; [exact Hlogm |].
    unfold E, emin64, emin, emax, prec. lia. }
  assert (2 ^ 53 * Z.abs (100 * scaled x - c * unit_scale) <= c * unit_scale) as Hrel.
  { unfold x. cbn [scaled].
    set (W := 2 ^ (- emin64 - j - 53)).
    assert (0 < W) as HW by (apply Z.pow_pos_nonneg; unfold emin64, emin, emax, prec; lia).
    assert (unit_scale = 2 ^ j * 2 ^ 53 * W) as ->.
    { unfold unit_scale, W. rewrite <- !Z.pow_add_r by (unfold emin64, emin, emax, prec; lia).
      f_equal. lia. }
    assert (100 * 2 ^ (E - emin64) = 2 ^ sh * 7036874417766400 * W) as HE.
    { change 7036874417766400 with (100 * 2 ^ 46). unfold W.
      replace (E - emin64) with (sh + 46 + (- emin64 - j - 53)) by (unfold E; lia).
      rewrite !Z.pow_add_r by (unfold emin64, emin, emax, prec; lia). ring. }
    replace (100 * (Z.pos m' * 2 ^ (E - emin64))) with (Z.pos m' * (100 * 2 ^ (E - emin64))) by ring.
    rewrite HE.
    replace (Z.pos m' * (2 ^ sh * 7036874417766400 * W) - c * (2 ^ j * 2 ^ 53 * W))
      with ((Z.pos m' * 2 ^ sh * 7036874417766400 - c * 2 ^ j * 2 ^ 53) * W) by ring.
    rewrite Z.abs_mul, (Z.abs_eq W) by lia.
    replace (c * (2 ^ j * 2 ^ 53 * W)) with (c * 2 ^ j * 2 ^ 53 * W) by ring.
    rewrite Z.mul_assoc. apply Z.mul_le_mono_nonneg_r; [lia | exact Herr]. }
  assert (cents x = c) as Hcents.
  { apply cents_of_amount; [exact Hamount | lia |].
    etransitivity; [exact Hrel |]. clear - Hc. numeral_scale. lia. }
  split; [| exact Hcents]. split; [exact Hamount |]. rewrite Hcents. exact Hrel.
Qed.
End CentsFacts.

(** ** ResultAggregator *)

Section AggregateFacts.
Local Open Scope string_scope.
Local Open Scope Z_scope.

Lemma append_nil t : "" ++ t = t.
Proof. reflexivity. Qed.

Lemma append_cons c s t : String c s ++ t = String c (s ++ t).
Proof. reflexivity. Qed.

Lemma all_digits_app s t :
  all_digits (s ++ t) = all_digits s && all_digits t.
Proof.
  induction s as [| c s IH]; [done |].
  rewrite append_cons. simpl. by rewrite IH, andb_assoc.
Qed.

Lemma length_string_app s t :
  String.length (s ++ t) = (String.length s + String.length t)%nat.
Proof.
  induction s as [| c s IH]; [done |].
  rewrite append_cons. simpl. by rewrite IH.
Qed.

Lemma all_digits_repeat_zero k : all_digits (repeat_char "0" k) = true.
Proof. induction k as [| k IH]; simpl; [done |]. exact IH. Qed.

Lemma length_repeat_char c k : String.length (repeat_char c k) = k.
Proof. induction k as [| k IH]; simpl; [done |]. by rewrite IH. Qed.

Lemma take_drop_string k s : take_string k s ++ drop_string k s = s.
Proof.
  revert s. induction k as [| k IH]; intros [| c s]; simpl; try done.
  by rewrite append_cons, IH.
Qed.

Lemma length_drop_string k s :
  String.length (drop_string k s) = (String.length s - k)%nat.
Proof.
  revert s. induction k as [| k IH]; intros [| c s]; simpl; try done.
Qed.

Lemma length_take_string k s :
  (k ≤ String.length s)%nat → String.length (take_string k s) = k.
Proof.
  revert s. induction k as [| k IH]; intros [| c s]; simpl; try done; try lia.
  intros Hk. rewrite IH; lia.
Qed.

Lemma all_digits_uint d :
  all_digits (DecimalString.NilEmpty.string_of_uint d) = true.
Proof. induction d; simpl; done. Qed.

Lemma all_digits_digits_of n : all_digits (digits_of n) = true.
Proof.
  unfold digits_of, DecimalString.NilZero.string_of_uint.
  destruct (N.to_uint n); try apply all_digits_uint. done.
Qed.

Lemma length_digits_of n : (1 ≤ String.length (digits_of n))%nat.
Proof.
  unfold digits_of, DecimalString.NilZero.string_of_uint.
  destruct (N.to_uint n); simpl; lia.
Qed.

(** Steps 11.b and 11.c with two fraction digits. *)
Lemma fixed_digits_two n :
  ∃ whole frac,
    fixed_digits 2 n = whole ++ "." ++ frac
    ∧ (1 ≤ String.length whole)%nat ∧ all_digits whole = true
    ∧ String.length frac = 2%nat ∧ all_digits frac = true.
Proof.
  unfold fixed_digits.
  pose proof (all_digits_digits_of (Z.to_N n)) as Hd.
  pose proof (length_digits_of (Z.to_N n)) as Hl.
  set (m := digits_of (Z.to_N n)) in *.
  set (m' := if bool_decide (String.length m ≤ 2)%nat
             then repeat_char "0" (2 + 1 - String.length m) ++ m else m).
  assert (all_digits m' = true) as Hdigits.
  { subst m'. case_bool_decide; [| done].
    by rewrite all_digits_app, all_digits_repeat_zero, Hd. }
  assert (3 ≤ String.length m')%nat as Hlen.
  { subst m'. case_bool_decide; [| lia].
    rewrite length_string_app, length_repeat_char. lia. }
  rewrite (bool_decide_eq_false_2 (2%nat = 0%nat)) by discriminate.
  exists (take_string (String.length m' - 2) m'),
         (drop_string (String.length m' - 2) m').
  rewrite <- (take_drop_string (String.length m' - 2) m') in Hdigits.
  rewrite all_digits_app in Hdigits. apply andb_prop in Hdigits as [Hw Hf].
  split_and!; try done.
  - rewrite length_take_string; lia.
  - rewrite length_drop_string. lia.
Qed.

(** In fixed notation [toFixed(2)] writes exactly two decimal places. *)
Lemma toFixed_two_decimal_places x :
  fixed_range x = true → two_decimal_places (toFixed 2 x).
Proof.
  destruct x as [sz | | | sx m e]; simpl; try done; intros Hrange.
  - destruct (fixed_digits_two 0) as (whole & frac & E & ?).
    exists "", whole, frac. rewrite E. split_and!; tauto.
  - apply negb_true_iff in Hrange. rewrite Hrange.
    destruct (fixed_digits_two (round_scaled 2 m e)) as (whole & frac & E & ?).
    exists (if sx then "-" else ""), whole, frac. rewrite E.
    split_and!; try tauto. destruct sx; auto.
Qed.

(** Adding two numbers does not depend on their order. *)
Lemma num_add_comm a b : num_add a b = num_add b a.
Proof.
  unfold num_add. destruct a as [[] | [] | | sa ma ea], b as [[] | [] | | sb mb eb];
    try reflexivity.
  unfold SFadd. by rewrite Z.min_comm, Z.add_comm.
Qed.

(** Adding to the sum that starts at [+0]: two prices in either order. *)
Lemma num_add_zero_swap a b :
  num_add (num_add (S754_zero false) a) b = num_add (num_add (S754_zero false) b) a.
Proof.
  destruct a as [[] | [] | | sa ma ea], b as [[] | [] | | sb mb eb];
    try reflexivity.
  change (num_add (S754_zero false) (S754_finite sa ma ea)) with (S754_finite sa ma ea).
  change (num_add (S754_zero false) (S754_finite sb mb eb)) with (S754_finite sb mb eb).
  apply num_add_comm.
Qed.

Lemma courier_sum_swap_first p q (rest : list Package) :
  courier_sum (p :: q :: rest) = courier_sum (q :: p :: rest).
Proof. unfold courier_sum, Number. cbn [foldl]. by rewrite num_add_zero_swap. Qed.
End AggregateFacts.

Section Aggregate.
Local Open Scope string_scope.
Local Open Scope Z_scope.

Lemma total_units_nonneg k pkgs :
  Forall (λ p, whole_units k (courierPrice p)) pkgs → 0 ≤ total_units k pkgs.
Proof.
  unfold total_units, total_amount.
  induction 1 as [| p pkgs [Hp _] _ IH]; cbn [fmap list_fmap foldr]; lia.
Qed.

Lemma total_units_perm k pkgs pkgs' :
  pkgs ≡ₚ pkgs' → total_units k pkgs' = total_units k pkgs.
Proof.
  unfold total_units, total_amount.
  induction 1 as [| p l l' _ IH | p q l | l l' l'' _ IH1 _ IH2];
    cbn [fmap list_fmap foldr]; lia.
Qed.

(** Adding prices that are whole numbers of units to a sum that is one:
    every addition is exact. *)
Lemma fold_whole_units k acc pkgs :
  (k ≤ 1021)%nat → 0 ≤ acc →
  Forall (λ p, whole_units k (courierPrice p)) pkgs →
  acc + total_units k pkgs < 2 ^ 53 →
  foldl (λ sum pkg, num_add sum (Number (courierPrice pkg))) (dyadic k acc) pkgs
  = dyadic k (acc + total_units k pkgs).
Proof.
  intros Hk Hacc Hall. revert acc Hacc.
  induction Hall as [| p pkgs [Hp Hprice] Hall IH]; intros acc Hacc Hsum.
  - cbn [foldl]. f_equal. unfold total_units, total_amount. cbn [fmap list_fmap foldr]. lia.
  - pose proof (total_units_nonneg k pkgs Hall) as Hrest.
    assert (total_units k (p :: pkgs) = units k (courierPrice p) + total_units k pkgs)
      as Hcons by reflexivity.
    rewrite Hcons in Hsum |- *. clear Hcons.
    set (u := units k (courierPrice p)) in *.
    cbn [foldl]. rewrite Hprice. change (Number (dyadic k u)) with (dyadic k u).
    rewrite num_add_dyadic by lia. rewrite IH by lia. f_equal. lia.
Qed.

Lemma courier_sum_whole_units k pkgs :
  (k ≤ 1021)%nat →
  Forall (λ p, whole_units k (courierPrice p)) pkgs →
  total_units k pkgs < 2 ^ 53 →
  courier_sum pkgs = dyadic k (total_units k pkgs).
Proof.
  intros Hk Hall Hsum. unfold courier_sum.
  change (S754_zero false) with (dyadic k 0).
  rewrite fold_whole_units; [done | done | lia | done | lia].
Qed.

(** The sum of prices in whole cents is an amount whose nearest cent is
    the exact total. *)
Lemma courier_sum_cents pkgs :
  Forall (λ p, cents_price (courierPrice p)) pkgs →
  Z.of_nat (length pkgs) ≤ max_packages →
  total_cents pkgs ≤ max_total_cents →
  amount (courier_sum pkgs) ∧ cents (courier_sum pkgs) = total_cents pkgs.
Proof.
  intros Hall Hlen Htotal.
  assert (2 ^ 53 * Z.abs (100 * scaled (S754_zero false) - 0 * unit_scale)
          ≤ 3 * 0 * (max_total_cents * unit_scale)) as Hstart by done.
  destruct (fold_cents_prices pkgs (S754_zero false) 0 0 I ltac:(lia) ltac:(lia)
              Hstart Hall ltac:(lia) ltac:(lia)) as [Hr Herr].
  fold (courier_sum pkgs) in Hr, Herr. split; [exact Hr |].
  apply cents_of_amount; [exact Hr | apply total_cents_nonneg |].
  rewrite !Z.add_0_l in Herr. etrans; [exact Herr |].
  clear Herr. numeral_scale. lia.
Qed.

(** C6, as the code has it. The aggregate reports the number of
    packages and the total got by adding the courier prices to 0 in the
    order of the list, in binary64 arithmetic, written by [toFixed(2)]:
    with exactly two decimal places when the total is finite and below
    [10^21]. When every price is an amount in whole cents, with at most
    [10^4] packages and [10^11] cents in all, the total written is the
    exact sum of the cents, whatever the order. The first two packages can
    be exchanged. When every price is a whole number of units of [1 / 2^k]
    and the prices sum to less than [2^53] units, the total is the exact
    sum, whatever the order. *)
Theorem aggregate_total (pkgs : list Package) :
  renderPackages (Some pkgs) =
    Some {| package_count := length pkgs;
            plural_mark := if bool_decide (length pkgs ≠ 1%nat) then "s" else "";
            total_courier_charges := "$" ++ toFixed 2 (courier_sum pkgs) |}
  ∧ (∀ p, courier_sum (pkgs ++ [p]) = num_add (courier_sum pkgs) (courierPrice p))
  ∧ (fixed_range (courier_sum pkgs) = true →
     two_decimal_places (toFixed 2 (courier_sum pkgs)))
  ∧ (∀ pkgs',
     Forall (λ p, cents_price (courierPrice p)) pkgs →
     Z.of_nat (length pkgs) ≤ max_packages →
     total_cents pkgs ≤ max_total_cents →
     pkgs ≡ₚ pkgs' →
     toFixed 2 (courier_sum pkgs) = fixed_digits 2 (total_cents pkgs)
     ∧ renderPackages (Some pkgs') = renderPackages (Some pkgs))
  ∧ (∀ p q rest, pkgs = p :: q :: rest →
     renderPackages (Some (q :: p :: rest)) = renderPackages (Some pkgs))
  ∧ (∀ k pkgs', (k ≤ 1021)%nat →
     Forall (λ p, whole_units k (courierPrice p)) pkgs →
     total_units k pkgs < 2 ^ 53 →
     pkgs ≡ₚ pkgs' →
     courier_sum pkgs = dyadic k (total_units k pkgs)
     ∧ renderPackages (Some pkgs') = renderPackages (Some pkgs)).
Proof.
  split_and!.
  - reflexivity.
  - intros p. unfold courier_sum. by rewrite foldl_snoc.
  - apply toFixed_two_decimal_places.
  - intros pkgs' Hall Hlen Htotal Hperm.
    destruct (courier_sum_cents pkgs Hall Hlen Htotal) as [Ha Hc].
    destruct (courier_sum_cents pkgs') as [Ha' Hc'].
    { by rewrite <- Hperm. }
    { by rewrite <- (Permutation_length Hperm). }
    { by rewrite (total_cents_perm pkgs pkgs'). }
    rewrite (total_cents_perm pkgs pkgs' Hperm) in Hc'.
    split; [by rewrite toFixed_amount, Hc |].
    unfold renderPackages.
    by rewrite !toFixed_amount, Hc, Hc', (Permutation_length Hperm).
  - intros p q rest ->. unfold renderPackages.
    by rewrite (courier_sum_swap_first q p).
  - intros k pkgs' Hk Hall Hsum Hperm.
    split; [by apply courier_sum_whole_units |].
    unfold renderPackages.
    rewrite (courier_sum_whole_units k pkgs), (courier_sum_whole_units k pkgs');
      try done.
    + by rewrite (total_units_perm k pkgs pkgs'), (Permutation_length Hperm).
    + by rewrite <- Hperm.
    + by rewrite (total_units_perm k pkgs pkgs').
Qed.
End Aggregate.

(** C6, a run of it: the courier prices 5.00 and 7.50 are amounts in
    whole cents, 500 and 750; the aggregate reports 2 packages and
    ["$12.50"], in either order. *)
Lemma aggregate_total_witness :
  Forall (λ p, cents_price (courierPrice p)) [Sample.pkg_A; Sample.pkg_B]
  ∧ total_cents [Sample.pkg_A; Sample.pkg_B] = 1250
  ∧ renderPackages (Some [Sample.pkg_A; Sample.pkg_B])
    = Some {| package_count := 2; plural_mark := "s";
              total_courier_charges := "$12.50" |}
  ∧ renderPackages (Some [Sample.pkg_B; Sample.pkg_A])
    = renderPackages (Some [Sample.pkg_A; Sample.pkg_B]).
Proof.
  assert (Forall (λ p, cents_price (courierPrice p)) [Sample.pkg_A; Sample.pkg_B])
    as Hall.
  { apply Forall_cons_2; [apply (decimal2_cents_price 500); by vm_compute |].
    apply Forall_cons_2; [apply (decimal2_cents_price 750); by vm_compute |].
    apply Forall_nil_2. }
  split; [exact Hall |]. split; [vm_compute; reflexivity |].
  destruct (aggregate_total [Sample.pkg_A; Sample.pkg_B])
    as (Hview & _ & _ & Hcents & _ & _).
  split; [rewrite Hview; vm_compute; reflexivity |].
  refine (proj2 (Hcents [Sample.pkg_B; Sample.pkg_A] Hall _ _ _)).
  - vm_compute. discriminate.
  - vm_compute. discriminate.
  - apply Permutation_swap.
Defined.

(** C6, as stated, fails. (1) The courier prices 1.05, 1.1 and 5.125 give
    ["$7.28"] in that order and ["$7.27"] in the reverse order: the total
    depends on the order of the packages. (2) A total of [10^21] is written
    ["$1e+21"], without decimal places. *)
Lemma total_depends_on_order :
  Sample.pkgs_backward ≡ₚ Sample.pkgs_forward
  ∧ total_courier_charges <$> renderPackages (Some Sample.pkgs_forward)
    = Some "$7.28"%string
  ∧ total_courier_charges <$> renderPackages (Some Sample.pkgs_backward)
    = Some "$7.27"%string
  ∧ total_courier_charges <$>
      renderPackages (Some [Sample.package_of "A" 100 10 (num_of_Z (10 ^ 21))])
    = Some "$1e+21"%string.
Proof.
  split_and!; [| vm_compute; reflexivity ..].
  unfold Sample.pkgs_backward. symmetry. apply Permutation_rev.
Qed.

(** * Further properties of the code *)

(** ** Sequences of toggles *)

Section Toggles.
Context {Id : Type} `{EqDecision Id}.
Implicit Types (s xs : list Id) (x y : Id).

(** X1. After any sequence of changes of checkboxes, an identifier is in
    the selection exactly when it was in and its checkbox changed an even
    number of times, or it was out and its checkbox changed an odd number
    of times: [has] after the toggles is the exclusive or of [has] before
    and the parity of the number of toggles of that identifier. *)
Theorem toggles_parity xs s x :
  JsSet.has x (toggles xs s)
  = xorb (JsSet.has x s) (Nat.odd (length (filter (λ y, y = x) xs))).
Proof.
  revert s. induction xs as [| y xs IH]; intros s.
  - simpl. by rewrite xorb_false_r.
  - unfold toggles in *. cbn [foldl]. rewrite IH, filter_cons.
    assert (JsSet.has x (toggle y s)
            = if decide (y = x) then negb (JsSet.has x s) else JsSet.has x s) as ->.
    { unfold JsSet.has. destruct (decide (y = x)) as [-> | Hne].
      - destruct (decide (x ∈ s)) as [Hin | Hout].
        + rewrite (bool_decide_eq_true_2 _ Hin), bool_decide_eq_false_2; [done |].
          rewrite elem_of_toggle. tauto.
        + rewrite (bool_decide_eq_false_2 _ Hout), bool_decide_eq_true_2; [done |].
          rewrite elem_of_toggle. tauto.
      - apply bool_decide_ext. rewrite elem_of_toggle.
        split; [intros [[-> _] | [_ ?]]; done |].
        intros ?; right; split; [congruence | done]. }
    destruct (decide (y = x)); [| done].
    cbn [length]. rewrite Nat.odd_succ, <- Nat.negb_odd.
    by destruct (JsSet.has x s), (Nat.odd _).
Qed.

Lemma length_delete_present x s :
  NoDup s → x ∈ s → S (length (JsSet.delete x s)) = length s.
Proof.
  unfold JsSet.delete.
  induction 1 as [| y s Hy Hnd IH]; [by intros ?%elem_of_nil |].
  intros Hx. rewrite filter_cons. destruct (decide (y ≠ x)) as [Hne | Heq].
  - simpl. f_equal. apply IH. apply elem_of_cons in Hx as [-> | Hx]; done.
  - apply dec_stable in Heq as ->. simpl. f_equal.
    clear IH Hnd Hx. induction s as [| z s IH]; [done |].
    rewrite filter_cons. apply not_elem_of_cons in Hy as [Hz Hy].
    destruct (decide (z ≠ x)); [| done]. simpl. f_equal. by apply IH.
Qed.

(** X2. On a selection without duplicates, a toggle changes the size by
    exactly one: one less when the identifier was in, one more when it was
    out. The size is the count on the button. *)
Theorem toggle_size x s :
  NoDup s →
  JsSet.size (toggle x s)
  = if JsSet.has x s then (JsSet.size s - 1)%nat else (JsSet.size s + 1)%nat.
Proof.
  intros Hnd. unfold JsSet.size. destruct (JsSet.has x s) eqn:E.
  - apply JsSet_has_true in E. rewrite toggle_present, JsSet_copy_id by done.
    pose proof (length_delete_present x s Hnd E). lia.
  - apply JsSet_has_false in E. rewrite toggle_absent, JsSet_copy_id by done.
    rewrite length_app. simpl. lia.
Qed.
End Toggles.

(** X2, a run of it: from the selection 3, 1, the checkbox of 3 leaves one
    identifier and the checkbox of 2 makes three. *)
Lemma toggle_size_witness :
  NoDup ([3; 1] : list Z)
  ∧ JsSet.size (toggle 3 [3; 1]) = 1%nat
  ∧ JsSet.size (toggle 2 [3; 1]) = 3%nat.
Proof.
  assert (NoDup ([3; 1] : list Z)) as Hnd by compute_done.
  split; [exact Hnd |]. split.
  - exact (toggle_size 3 [3; 1] Hnd).
  - exact (toggle_size 2 [3; 1] Hnd).
Defined.

(** ** The outcomes of the two requests *)

Section Outcomes.
Context {Id : Type} `{EqDecision Id}.
Local Open Scope string_scope.
Local Open Scope list_scope.
Implicit Types (st : State (Id := Id)) (env : Env (Id := Id)).

(** X3. When the catalog cannot be fetched or read ([fetch] or
    [response.json()] rejects), [fetchItems] catches the error: it sets
    the message ["Failed to load items"], keeps the list of items, the
    selection and the packages, lowers the loading flag, and logs the
    error on the console after its one request. *)
Theorem load_rejected env st e :
  products_reply env = Rejected e →
  load env st =
    ({| items := items st; selectedItems := selectedItems st;
        packages := packages st; loading := false;
        error := Some "Failed to load items" |},
     [Net GetProducts; Console "Error fetching items:" e]).
Proof. intros Hreply. by rewrite load_eq, Hreply. Qed.

(** X4. A catalog body whose [success] is true replaces the list of items
    by the items of the body (nothing of the former list is kept),
    empties the error cell, lowers the loading flag, keeps the selection
    and the packages, and logs nothing. *)
Theorem load_replaces_items env st data :
  products_reply env = Parsed data → pb_success data = true →
  load env st =
    ({| items := pb_data data; selectedItems := selectedItems st;
        packages := packages st; loading := false; error := None |},
     [Net GetProducts]).
Proof. intros Hreply Hok. by rewrite load_eq, Hreply, Hok. Qed.

(** X5. When the reply of the calculation cannot be used ([fetch] or
    [response.json()] rejects, or the body says [success] and has no
    [data] member, so that [data.data.packages] throws a [TypeError]),
    [handlePlaceOrder] catches the error: it sets the message ["Failed to
    process order"], keeps every other cell, lowers the loading flag, and
    logs the error on the console. *)
Theorem submit_unreadable_reply env st e :
  JsSet.size (selectedItems st) ≠ 0%nat →
  calculate_reply env (JsSet.array_from (selectedItems st)) = Rejected e
  ∨ (e = TypeError
     ∧ ∃ data,
         calculate_reply env (JsSet.array_from (selectedItems st)) = Parsed data
         ∧ cb_success data = true ∧ cb_data data = None) →
  submit env st =
    ({| items := items st; selectedItems := selectedItems st;
        packages := packages st; loading := false;
        error := Some "Failed to process order" |},
     [Net (PostCalculate (JsSet.array_from (selectedItems st)));
      Console "Error processing order:" e]).
Proof.
  intros Hsize Hreply. rewrite submit_eq. simpl.
  rewrite (bool_decide_eq_false_2 _ Hsize).
  destruct Hreply as [-> | (-> & data & -> & Hok & Hdata)]; [done |].
  by rewrite Hok, Hdata.
Qed.

(** X6. A second click on the button, answered as the first one was,
    sends the same request again and leaves the cells as the first click
    left them. *)
Theorem submit_twice env st :
  submit env (submit env st).1 = submit env st.
Proof.
  rewrite (submit_eq env (submit env st).1).
  assert (selectedItems (submit env st).1 = selectedItems st) as ->.
  { rewrite submit_eq. simpl.
    destruct (bool_decide (JsSet.size (selectedItems st) = 0%nat)); [done |].
    reply_cases env. }
  rewrite submit_eq. simpl.
  destruct (bool_decide (JsSet.size (selectedItems st) = 0%nat)); [done |].
  reply_cases env.
Qed.

(** X7. No handler ends with an error: whatever the services answer, and
    from any state, [fetchItems], [handlePlaceOrder] and
    [toggleItemSelection] return normally, so the promise of an [async]
    handler is never rejected. *)
Theorem handlers_end_normally env st log sel x :
  (run env fetchItems st log).1.1 = inr tt
  ∧ (run env (handlePlaceOrder sel) st log).1.1 = inr tt
  ∧ (run env (toggleItemSelection x) st log).1.1 = inr tt.
Proof.
  split_and!.
  - simpl. destruct (products_reply env) as [e | [[] data]]; done.
  - unfold handlePlaceOrder.
    destruct (bool_decide (JsSet.size sel = 0%nat)); [done |]. simpl.
    reply_cases env.
  - done.
Qed.
End Outcomes.

(** X3, a run of it: no service can be reached on the first render. *)
Lemma load_rejected_witness :
  products_reply Sample.env_down = Rejected FetchRejected
  ∧ error (load Sample.env_down initial).1 = Some "Failed to load items"%string
  ∧ items (load Sample.env_down initial).1 = []
  ∧ (load Sample.env_down initial).2
    = [Net GetProducts; Console "Error fetching items:" FetchRejected].
Proof.
  split; [reflexivity |].
  rewrite (load_rejected Sample.env_down initial FetchRejected eq_refl).
  split_and!; reflexivity.
Defined.

(** X4, a run of it: the catalog of two items comes on the first render. *)
Lemma load_replaces_items_witness :
  products_reply Sample.env_ok
    = Parsed {| pb_success := true; pb_data := [Sample.item_A; Sample.item_B] |}
  ∧ items (load Sample.env_ok initial).1 = [Sample.item_A; Sample.item_B]
  ∧ error (load Sample.env_ok initial).1 = None.
Proof.
  split; [reflexivity |].
  rewrite (load_replaces_items Sample.env_ok initial _ eq_refl eq_refl).
  split; reflexivity.
Defined.

(** X5, a run of it: an order is placed while no service can be reached. *)
Lemma submit_unreadable_reply_witness :
  JsSet.size (selectedItems Sample.st_ordered) ≠ 0%nat
  ∧ calculate_reply Sample.env_down (JsSet.array_from (selectedItems Sample.st_ordered))
    = Rejected FetchRejected
  ∧ error (submit Sample.env_down Sample.st_ordered).1
    = Some "Failed to process order"%string
  ∧ packages (submit Sample.env_down Sample.st_ordered).1 = Some [Sample.pkg_A].
Proof.
  assert (JsSet.size (selectedItems Sample.st_ordered) ≠ 0%nat) as Hsize
    by discriminate.
  split; [exact Hsize |]. split; [reflexivity |].
  rewrite (submit_unreadable_reply Sample.env_down Sample.st_ordered FetchRejected
             Hsize (or_introl eq_refl)).
  split; reflexivity.
Defined.

(** ** The component in use: what holds on every page *)

Section PageFacts.
Context {Id : Type} `{EqDecision Id}.
Local Open Scope string_scope.
Local Open Scope list_scope.
Implicit Types (pg : Page (Id := Id)) (ev : Event (Id := Id)).

Lemma requests_app (l1 l2 : list (Effect (Id := Id))) :
  requests (l1 ++ l2) = requests l1 ++ requests l2.
Proof. unfold requests. apply omap_app. Qed.

Lemma orders_app (l1 l2 : list (Effect (Id := Id))) :
  orders (l1 ++ l2) = orders l1 ++ orders l2.
Proof. unfold orders. by rewrite requests_app, omap_app. Qed.

(** [v || d] is not empty when [d] is not. *)
Lemma or_default_nonempty v d : d ≠ "" → or_default v d ≠ "".
Proof.
  intros Hd. unfold or_default. destruct v as [s |]; [| done].
  by case_bool_decide.
Qed.

Lemma Inv_first_render : Inv (first_render (Id := Id)).
Proof.
  split; simpl; try done.
  - apply NoDup_nil_2.
  - by left.
Qed.

(** Every event keeps the invariant. *)
Lemma Inv_fire ev pg pg' : Inv pg → fire ev pg = Some pg' → Inv pg'.
Proof.
  intros [Hfirst Hnd Hcat Herr Hphase Hreq Hord] Hfire.
  destruct ev as [| x | | n r | n r]; simpl in Hfire.
  - (* Mount: the page is the first render *)
    destruct (mounted pg) eqn:Hm; [done |].
    rewrite (Hfirst eq_refl) in Hfire. injection Hfire as <-.
    split; simpl; try done.
    + apply NoDup_nil_2.
    + right; left. done.
  - (* Change: the list is not empty, so the catalog is not awaited *)
    case_bool_decide as Hx; [| done]. injection Hfire as <-.
    unfold start. simpl. rewrite app_nil_r.
    split; simpl; try done.
    + intros Hm. specialize (Hfirst Hm). subst pg. simpl in Hx.
      by apply elem_of_nil in Hx.
    + apply NoDup_toggle.
    + intros y Hy. apply elem_of_toggle in Hy as [[-> _] | [_ Hy]]; [done |].
      by apply Hcat.
    + destruct Hphase as [Hi | [Hl | Hc]]; [by left | | by right; right].
      destruct Hl as (_ & _ & Hitems & _). unfold catalog_ids in Hx.
      rewrite Hitems in Hx. by apply elem_of_nil in Hx.
  - (* Click: the button is enabled, so the page is idle *)
    destruct (button_disabled (cells pg)) eqn:Hb; [done |].
    apply button_enabled in Hb as [Hidle Hsize].
    injection Hfire as <-.
    assert (selectedItems (cells pg) ≠ []) as Hsel.
    { intros E. apply Hsize. by rewrite E. }
    assert (waiting pg = []) as Hw.
    { destruct Hphase as [[Hw _] | [(_ & Hl & _) | (sel & _ & _ & Hl & _)]];
        [done | congruence ..]. }
    assert (mounted pg = true) as Hm.
    { destruct (mounted pg) eqn:Hm; [done |].
      rewrite (Hfirst eq_refl) in Hsel. done. }
    unfold start, handlePlaceOrder.
    rewrite (bool_decide_eq_false_2 _ Hsize). simpl.
    rewrite Hw, Hm in *. simpl.
    split; simpl; try done.
    + right; right. exists (selectedItems (cells pg)).
      split; [done |]. split; [| split; [done |]].
      * unfold handlePlaceOrder. by rewrite (bool_decide_eq_false_2 _ Hsize).
      * simpl. intros Hitems. apply Hsel, list_nil_subseteq.
        unfold catalog_ids in Hcat. by rewrite Hitems in Hcat.
    + rewrite requests_app, orders_app, Hreq. simpl.
      by rewrite fmap_app, app_comm_cons.
    + rewrite orders_app. simpl. apply Forall_app. split; [done |].
      apply Forall_singleton. done.
  - (* ProductsReply: the handler that waits is [fetchItems] *)
    destruct (waiting pg !! n) as [[| | | | k | ids k] |] eqn:Hn; try done.
    injection Hfire as <-.
    destruct Hphase
      as [[Hw _] | [(Hw & _ & Hitems & Hsel & Hposts) | (sel & Hsel & Hw & _)]].
    + rewrite Hw in Hn. done.
    + rewrite Hw in Hn |- *. destruct n as [| n]; [| done].
      simpl in Hn. injection Hn as <-.
      assert (mounted pg = true) as Hm.
      { destruct (mounted pg) eqn:Hm; [done |].
        rewrite (Hfirst eq_refl) in Hw. done. }
      rewrite Hm in *.
      unfold start.
      destruct r as [e | [[] data]]; simpl.
      all: split; simpl; try done; try (by left).
      all: rewrite ?requests_app, ?orders_app, ?Hreq, ?Hposts, ?Hsel; simpl;
        try done; try apply Forall_nil_2; try apply list_subseteq_nil.
    + destruct sel as [| a sel]; [done |]. rewrite Hw in Hn.
      destruct n; done.
  - (* CalculateReply: the handler that waits is [handlePlaceOrder] *)
    destruct (waiting pg !! n) as [[| | | | k | ids k] |] eqn:Hn; try done.
    injection Hfire as <-.
    destruct Hphase as [[Hw _] | [(Hw & _) | (sel & Hsel & Hw & _)]].
    + rewrite Hw in Hn. done.
    + rewrite Hw in Hn. destruct n; done.
    + destruct sel as [| a sel]; [done |]. rewrite Hw in Hn |- *.
      destruct n as [| n]; [| done].
      simpl in Hn. injection Hn as <- <-.
      assert (mounted pg = true) as Hm.
      { destruct (mounted pg) eqn:Hm; [done |].
        rewrite (Hfirst eq_refl) in Hw. done. }
      rewrite Hm in *.
      unfold start.
      destruct r as [e | [[] [pkgs |] text]]; simpl.
      all: split; simpl; try done; try (by left).
      all: try (rewrite ?requests_app, ?orders_app, Hreq; simpl;
                by rewrite ?app_nil_r).
      all: try (rewrite ?orders_app; simpl; by rewrite ?app_nil_r).
      all: intros [= E]; by apply or_default_nonempty in E.
Qed.

Lemma Inv_fires evs pg pg' : Inv pg → fires evs pg = Some pg' → Inv pg'.
Proof.
  revert pg'. induction evs as [| ev evs IH] using rev_ind; intros pg' Hpg.
  - intros [= <-]. done.
  - unfold fires. rewrite foldl_snoc. fold (fires evs pg).
    destruct (fires evs pg) as [pg1 |] eqn:E; [| done]. simpl.
    intros Hfire. eapply Inv_fire; [| exact Hfire]. by apply IH.
Qed.

Lemma Inv_reachable evs pg : fires evs first_render = Some pg → Inv pg.
Proof. apply Inv_fires, Inv_first_render. Qed.

(** The checked rows are the items whose identifier is selected. *)
Lemma checked_rows (st : State (Id := Id)) :
  length (filter (λ row, row_checked row = true) (rows (render st)))
  = length (filter (λ y, y ∈ selectedItems st) (catalog_ids st)).
Proof.
  unfold render, catalog_ids. simpl.
  induction (items st) as [| item l IH]; [done |].
  rewrite !fmap_cons, !filter_cons. simpl.
  destruct (decide (item_id item ∈ selectedItems st)) as [Hin | Hout].
  - rewrite (proj2 (JsSet_has_true _ _) Hin). simpl. by rewrite IH.
  - rewrite (proj2 (JsSet_has_false _ _) Hout). simpl. by rewrite IH.
Qed.

Lemma checked_count (sel ids : list Id) :
  NoDup sel → NoDup ids → sel ⊆ ids →
  length (filter (λ y, y ∈ sel) ids) = length sel.
Proof.
  intros Hsel Hids Hsub. apply Permutation_length, NoDup_Permutation.
  - by apply NoDup_filter.
  - done.
  - intros y. rewrite list_elem_of_filter. split; [tauto |].
    intros Hy. split; [done | by apply Hsub].
Qed.
End PageFacts.

(** ** The cells shared by the two operations *)

Section SharedCells.
Context {Id : Type} `{EqDecision Id}.
Local Open Scope string_scope.
Local Open Scope list_scope.
Implicit Types (pg : Page (Id := Id)) (ev : Event (Id := Id)).

(** The page on which the catalog is awaited: the first render after the
    mount effect. *)
Lemma awaiting_catalog_fire ev pg pg' :
  Inv pg → fire ev pg = Some pg' →
  (∃ k, waiting pg' = [AwaitProducts k]) →
  pg' = start fetchItems true [] first_render.
Proof.
  intros [Hfirst _ _ _ Hphase _ _] Hfire [k0 Hk].
  destruct ev as [| x | | n r | n r]; simpl in Hfire.
  - destruct (mounted pg) eqn:Hm; [done |].
    rewrite (Hfirst eq_refl) in Hfire. by injection Hfire as <-.
  - case_bool_decide as Hx; [| done]. injection Hfire as <-.
    unfold start in Hk. simpl in Hk. rewrite app_nil_r in Hk.
    destruct Hphase as [[Hw _] | [(_ & _ & Hitems & _) | (sel & Hsel & Hw & _)]].
    + by rewrite Hw in Hk.
    + rewrite Hitems in Hx. by apply elem_of_nil in Hx.
    + destruct sel as [| a sel]; [done |]. by rewrite Hw in Hk.
  - destruct (button_disabled (cells pg)) eqn:Hb; [done |].
    apply button_enabled in Hb as [Hidle Hsize]. injection Hfire as <-.
    unfold start, handlePlaceOrder in Hk.
    rewrite (bool_decide_eq_false_2 _ Hsize) in Hk. simpl in Hk.
    destruct (waiting pg) as [| q [| q' l]]; done.
  - destruct (waiting pg !! n) as [[| | | | k | ids k] |] eqn:Hn; try done.
    injection Hfire as <-.
    destruct Hphase as [[Hw _] | [(Hw & _) | (sel & Hsel & Hw & _)]].
    + by rewrite Hw in Hn.
    + rewrite Hw in Hn, Hk. destruct n as [| n]; [| done].
      simpl in Hn. injection Hn as <-.
      unfold start in Hk. by destruct r as [e | [[] data]].
    + destruct sel as [| a sel]; [done |]. rewrite Hw in Hn. by destruct n.
  - destruct (waiting pg !! n) as [[| | | | k | ids k] |] eqn:Hn; try done.
    injection Hfire as <-.
    destruct Hphase as [[Hw _] | [(Hw & _) | (sel & Hsel & Hw & _)]].
    + by rewrite Hw in Hn.
    + rewrite Hw in Hn. by destruct n.
    + destruct sel as [| a sel]; [done |]. rewrite Hw in Hn, Hk.
      destruct n as [| n]; [| done].
      simpl in Hn. injection Hn as <- <-.
      unfold start in Hk. by destruct r as [e | [[] [pkgs |] text]].
Qed.

Lemma awaiting_catalog_page evs pg :
  fires evs first_render = Some pg →
  (∃ k, waiting pg = [AwaitProducts k]) →
  pg = start fetchItems true [] first_render.
Proof.
  revert pg. induction evs as [| ev evs _] using rev_ind; intros pg.
  - intros [= <-] [k Hk]. done.
  - unfold fires. rewrite foldl_snoc. fold (fires evs (first_render (Id := Id))).
    destruct (fires evs first_render) as [pg1 |] eqn:E; [| done]. simpl.
    intros Hfire. eapply awaiting_catalog_fire; [| exact Hfire].
    by apply (Inv_reachable evs).
Qed.

(** No sequence of events leaves a page that allows no event. *)
Lemma fires_final evs pg pg' :
  (∀ ev, fire ev pg = None) → fires evs pg = Some pg' → pg' = pg.
Proof.
  intros Hno. destruct evs as [| ev evs]; [by intros [= <-] |].
  unfold fires. simpl. rewrite Hno.
  induction evs as [| ev' evs IH]; [done | exact IH].
Qed.

(** C3, as the code has it. The two operations share one error cell and
    one loading flag. On every page reached from the first render: the
    reply of the catalog, whatever it is, comes on a page whose error cell
    is empty and on which no calculation was requested, so the end of a
    catalog load clears no error of a submission; and when the catalog
    load leaves an error, no event can happen afterwards, so no submission
    starts or ends and the error stays. The loading status is one flag for
    both operations: it is up exactly while a reply is awaited, and the
    button shows ["Processing..."] exactly while it is up. This is so
    while the catalog alone is awaited: the cells are those of the first
    render with the flag raised, and the only request is the one of the
    catalog. *)
Theorem errors_kept_loading_flag_shared evs pg :
  fires evs first_render = Some pg →
  (∀ n r pg', fire (ProductsReply n r) pg = Some pg' →
     error (cells pg) = None
     ∧ orders (effects pg) = []
     ∧ (error (cells pg') ≠ None →
        ∀ evs' pg'', fires evs' pg' = Some pg'' → pg'' = pg'))
  ∧ (loading (cells pg) = true ↔ waiting pg ≠ [])
  ∧ (button_label (render (cells pg)) = "Processing..." ↔ loading (cells pg) = true)
  ∧ ((∃ k, waiting pg = [AwaitProducts k]) →
     cells pg = load_started initial
     ∧ effects pg = [Net GetProducts]
     ∧ button_label (render (cells pg)) = "Processing...").
Proof.
  intros Hpg. destruct (Inv_reachable evs pg Hpg) as [_ _ _ _ Hphase _ _].
  split_and!.
  - intros n r pg' Hfire. simpl in Hfire.
    destruct (waiting pg !! n) as [[| | | | k | ids k] |] eqn:Hn; try done.
    assert (∃ k0, waiting pg = [AwaitProducts k0]) as Hk.
    { destruct Hphase as [[Hw _] | [(Hw & _) | (sel & Hsel & Hw & _)]].
      - by rewrite Hw in Hn.
      - eexists. rewrite Hw. reflexivity.
      - destruct sel as [| a sel]; [done |]. rewrite Hw in Hn. by destruct n. }
    rewrite (awaiting_catalog_page evs pg Hpg Hk) in Hn, Hfire |- *.
    destruct n as [| n]; [| done]. simpl in Hn. injection Hn as <-.
    injection Hfire as <-.
    split; [reflexivity |]. split; [reflexivity |].
    intros Herr evs' pg''. apply fires_final.
    destruct r as [e | [[] data]]; [| done | done].
    by intros [| x | | n r | n r].
  - destruct Hphase as [[Hw Hl] | [(Hw & Hl & _) | (sel & _ & Hw & Hl & _)]];
      rewrite Hw, Hl; split; done.
  - unfold render. simpl. destruct (loading (cells pg)); [done |].
    split; [| done]. rewrite !append_cons. discriminate.
  - intros Hk. by rewrite (awaiting_catalog_page evs pg Hpg Hk).
Qed.
End SharedCells.

(** C3, a run of it: the catalog cannot be fetched. The reply finds an
    empty error cell and leaves its message, and no sequence of events
    changes the page afterwards. *)
Lemma errors_kept_loading_flag_shared_witness :
  fires SamplePages.evs_mounted first_render = Some SamplePages.page_mounted
  ∧ fire (ProductsReply 0 (Rejected FetchRejected)) SamplePages.page_mounted
    = Some SamplePages.page_no_catalog
  ∧ error (cells SamplePages.page_mounted) = None
  ∧ error (cells SamplePages.page_no_catalog)
    = Some "Failed to load items"%string
  ∧ ∀ evs' pg'', fires evs' SamplePages.page_no_catalog = Some pg'' →
      pg'' = SamplePages.page_no_catalog.
Proof.
  assert (fires SamplePages.evs_mounted first_render
          = Some SamplePages.page_mounted) as Hpg by reflexivity.
  assert (fire (ProductsReply 0 (Rejected FetchRejected)) SamplePages.page_mounted
          = Some SamplePages.page_no_catalog) as Hfire by reflexivity.
  split; [exact Hpg |]. split; [exact Hfire |].
  destruct (proj1 (errors_kept_loading_flag_shared _ _ Hpg) _ _ _ Hfire)
    as (Hnone & _ & Hfinal).
  split; [exact Hnone |]. split; [reflexivity |].
  apply Hfinal. discriminate.
Defined.

(** C3, as stated, fails on the loading status. After the mount effect
    alone the catalog is awaited and no submission was started: the
    selection is empty and the only request is the one of the catalog.
    Yet the flag that the button of the submission reads is up, and the
    button shows ["Processing..."]; it showed ["Place Order (0 items)"]
    before the load started and shows it again once the catalog has come.
    The flag is the same one that is up while a calculation is awaited. *)
Lemma loading_status_not_independent :
  fires [Mount] first_render = Some SamplePages.page_mounted
  ∧ (∃ k, waiting SamplePages.page_mounted = [AwaitProducts k])
  ∧ effects SamplePages.page_mounted = [Net GetProducts]
  ∧ selectedItems (cells SamplePages.page_mounted) = []
  ∧ loading (cells SamplePages.page_mounted) = true
  ∧ button_label (render (cells (first_render (Id := Z))))
    = "Place Order (0 items)"%string
  ∧ button_label (render (cells SamplePages.page_mounted))
    = "Processing..."%string
  ∧ (button_label ∘ render ∘ cells
       <$> fire (ProductsReply 0 (products_reply Sample.env_ok))
             SamplePages.page_mounted)
    = Some "Place Order (0 items)"%string
  ∧ fires SamplePages.evs_ordering first_render = Some SamplePages.page_ordering
  ∧ (∃ ids k, waiting SamplePages.page_ordering = [AwaitCalculate ids k])
  ∧ loading (cells SamplePages.page_ordering) = true
  ∧ button_label (render (cells SamplePages.page_ordering))
    = "Processing..."%string.
Proof. split_and!; try reflexivity; by repeat eexists. Qed.

Section Pages.
Context {Id : Type} `{EqDecision Id}.
Local Open Scope string_scope.
Local Open Scope list_scope.
Implicit Types (pg : Page (Id := Id)) (ev : Event (Id := Id)).

(** X8. Every click that the button lets through passes the guard of
    [handlePlaceOrder]: the selection is not empty, the request of the
    calculation is sent with the selection as its body, the loading flag is
    raised and the error cell emptied, and the handler waits for the
    reply. The branch that sets ["Please select at least one item"] is not
    taken. *)
Theorem click_sends_request pg pg' :
  fire Click pg = Some pg' →
  selectedItems (cells pg) ≠ []
  ∧ effects pg'
    = effects pg ++ [Net (PostCalculate (JsSet.array_from (selectedItems (cells pg))))]
  ∧ cells pg'
    = apply_update (SetError None) (apply_update (SetLoading true) (cells pg))
  ∧ ∃ k, waiting pg'
         = waiting pg
           ++ [AwaitCalculate (JsSet.array_from (selectedItems (cells pg))) k].
Proof.
  simpl. destruct (button_disabled (cells pg)) eqn:Hb; [done |].
  apply button_enabled in Hb as [_ Hsize]. intros [= <-].
  unfold start, handlePlaceOrder. rewrite (bool_decide_eq_false_2 _ Hsize). simpl.
  split_and!; [| done | done | by eexists].
  intros E. apply Hsize. by rewrite E.
Qed.

(** X9. On every page reached from the first render, at most one handler
    waits for a reply, and the loading flag is up exactly while one does;
    while one does, the button shows ["Processing..."] and is disabled,
    so that no second request can be started. *)
Theorem one_request_in_flight evs pg :
  fires evs first_render = Some pg →
  (length (waiting pg) ≤ 1)%nat
  ∧ (loading (cells pg) = true ↔ waiting pg ≠ [])
  ∧ (button_label (render (cells pg)) = "Processing..." ↔ waiting pg ≠ [])
  ∧ (waiting pg ≠ [] → fire Mount pg = None ∧ fire Click pg = None).
Proof.
  intros Hpg. destruct (Inv_reachable evs pg Hpg) as [Hfirst _ _ _ Hphase _ _].
  assert (loading (cells pg) = true ↔ waiting pg ≠ []) as Hiff.
  { destruct Hphase as [[Hw Hl] | [(Hw & Hl & _) | (sel & _ & Hw & Hl & _)]];
      rewrite Hw, Hl; split; done. }
  split_and!; [| exact Hiff | |].
  - destruct Hphase as [[Hw _] | [(Hw & _) | (sel & _ & Hw & _)]];
      rewrite Hw; simpl; lia.
  - rewrite <- Hiff. unfold render. simpl.
    destruct (loading (cells pg)); [done |].
    split; [| done]. rewrite !append_cons. discriminate.
  - intros Hw. apply Hiff in Hw as Hl. split.
    + simpl. destruct (mounted pg) eqn:Hm; [done |].
      rewrite (Hfirst eq_refl) in Hl. done.
    + simpl. unfold button_disabled. by rewrite Hl.
Qed.

(** X10. On every page reached from the first render the selection has
    no identifier twice and holds identifiers of items of the list only;
    and every calculation that was requested carries at least one
    identifier, none twice, each of an item of the list. *)
Theorem orders_of_checked_catalog_items evs pg :
  fires evs first_render = Some pg →
  NoDup (selectedItems (cells pg))
  ∧ selectedItems (cells pg) ⊆ catalog_ids (cells pg)
  ∧ ∀ ids, Net (PostCalculate ids) ∈ effects pg →
      ids ≠ [] ∧ NoDup ids ∧ ids ⊆ catalog_ids (cells pg).
Proof.
  intros Hpg. destruct (Inv_reachable evs pg Hpg) as [_ Hnd Hcat _ _ _ Hord].
  split_and!; [done | done |].
  intros ids Hin. rewrite Forall_forall in Hord. apply Hord.
  unfold orders, requests. rewrite !list_elem_of_omap.
  exists (PostCalculate ids). split; [| done].
  apply list_elem_of_omap. by exists (Net (PostCalculate ids)).
Qed.

(** X11. The catalog is requested once: nothing happens before the mount
    effect, whose request is the first one; every later request is a
    calculation; and once the list holds an item no reply of the catalog
    is awaited, so the list does not change any more. *)
Theorem catalog_requested_once evs pg :
  fires evs first_render = Some pg →
  (mounted pg = false → pg = first_render)
  ∧ (mounted pg = true →
     requests (effects pg) = GetProducts :: (PostCalculate <$> orders (effects pg)))
  ∧ (items (cells pg) ≠ [] → ∀ n r, fire (ProductsReply n r) pg = None).
Proof.
  intros Hpg. destruct (Inv_reachable evs pg Hpg) as [Hfirst _ _ _ Hphase Hreq _].
  split_and!; [done | |].
  - intros Hm. by rewrite Hm in Hreq.
  - intros Hitems n r. simpl.
    destruct Hphase as [[Hw _] | [(_ & _ & Hl & _) | (sel & Hsel & Hw & _)]];
      [by rewrite Hw | done |].
    rewrite Hw. destruct sel as [| a sel]; [done |]. by destruct n.
Qed.

(** X12. There is no second attempt: on a page where the mount effect has
    run, nothing is awaited and the list of items is empty (the catalog
    could not be fetched, was refused, or is empty), no event can happen
    any more: there is no checkbox, the button is disabled, and
    [fetchItems] is not called again. *)
Theorem empty_catalog_is_final evs pg :
  fires evs first_render = Some pg →
  mounted pg = true → waiting pg = [] → items (cells pg) = [] →
  ∀ ev, fire ev pg = None.
Proof.
  intros Hpg Hm Hw Hitems ev.
  destruct (Inv_reachable evs pg Hpg) as [_ _ Hcat _ _ _ _].
  unfold catalog_ids in Hcat. rewrite Hitems in Hcat.
  apply list_nil_subseteq in Hcat.
  destruct ev as [| x | | n r | n r]; simpl.
  - by rewrite Hm.
  - rewrite Hitems. by rewrite bool_decide_eq_false_2 by apply not_elem_of_nil.
  - unfold button_disabled. rewrite Hcat. simpl. by rewrite orb_true_r.
  - by rewrite Hw.
  - by rewrite Hw.
Qed.

(** X13. A checkbox that changes while the calculation is awaited is
    neither lost nor part of that calculation: the change followed by the
    reply gives the same page as the reply followed by the change. *)
Theorem change_during_calculation evs pg x n r :
  fires evs first_render = Some pg →
  fires [Change x; CalculateReply n r] pg = fires [CalculateReply n r; Change x] pg.
Proof.
  intros Hpg. destruct (Inv_reachable evs pg Hpg) as [_ _ _ _ Hphase _ _].
  unfold fires. simpl.
  destruct Hphase as [[Hw _] | [(Hw & _) | (sel & Hsel & Hw & _)]].
  - rewrite Hw. case_bool_decide; simpl; done.
  - rewrite Hw. case_bool_decide; simpl; by destruct n.
  - destruct sel as [| a sel]; [done |]. rewrite Hw.
    destruct n as [| n]; [| case_bool_decide; simpl; done].
    case_bool_decide as Hx; simpl.
    + destruct r as [e | [[] [pkgs |] text]]; simpl;
        by rewrite (bool_decide_eq_true_2 _ Hx).
    + destruct r as [e | [[] [pkgs |] text]]; simpl;
        by rewrite (bool_decide_eq_false_2 _ Hx).
Qed.

(** X14. When the items of the list have distinct identifiers, the number
    of checked checkboxes is the size of the selection, which the button
    shows in ["Place Order (n items)"]. *)
Theorem checked_boxes_match_count evs pg :
  fires evs first_render = Some pg →
  NoDup (catalog_ids (cells pg)) →
  length (filter (λ row, row_checked row = true) (rows (render (cells pg))))
  = JsSet.size (selectedItems (cells pg)).
Proof.
  intros Hpg Hids. destruct (Inv_reachable evs pg Hpg) as [_ Hnd Hcat _ _ _ _].
  rewrite checked_rows. by apply checked_count.
Qed.

(** X15. The error cell never holds the empty string, so the banner shows
    what the cell holds: nothing for [null], the message otherwise. *)
Theorem banner_shows_error evs pg :
  fires evs first_render = Some pg →
  error (cells pg) ≠ Some ""
  ∧ banner (render (cells pg)) = error (cells pg).
Proof.
  intros Hpg. destruct (Inv_reachable evs pg Hpg) as [_ _ _ Herr _ _ _].
  split; [done |].
  unfold render. simpl. destruct (error (cells pg)) as [text |]; [| done].
  case_bool_decide; [by subst | done].
Qed.

(** X16. ["Loading items..."] is shown exactly while the reply of the
    catalog is awaited, never during a calculation; ["No items
    available"] is shown exactly when the list is empty and nothing is
    awaited. *)
Theorem loading_note_while_catalog_awaited evs pg :
  fires evs first_render = Some pg →
  (loading_note (render (cells pg)) = true ↔ ∃ k, waiting pg = [AwaitProducts k])
  ∧ (no_items_note (render (cells pg)) = true ↔
     items (cells pg) = [] ∧ waiting pg = []).
Proof.
  intros Hpg. destruct (Inv_reachable evs pg Hpg) as [_ _ _ _ Hphase _ _].
  unfold render. simpl.
  rewrite !andb_true_iff, !bool_decide_eq_true, negb_true_iff, !length_zero_iff_nil.
  destruct Hphase
    as [[Hw Hl] | [(Hw & Hl & Hitems & _) | (sel & Hsel & Hw & Hl & Hitems)]];
    rewrite Hw, Hl.
  - split; [| tauto]. split; [by intros [? _] | by intros [k ?]].
  - rewrite Hitems. split; [| split; [by intros [_ ?] | by intros [_ ?]]].
    split; [by eexists | done].
  - destruct sel as [| a sel]; [done |].
    split; [split; [tauto | by intros [k ?]] |].
    split; [by intros [_ ?] | by intros [_ ?]].
Qed.
End Pages.

(** X8, a run of it: with item 1 checked, the click sends the
    calculation of item 1. *)
Lemma click_sends_request_witness :
  fire Click SamplePages.page_chosen = Some SamplePages.page_ordering
  ∧ effects SamplePages.page_ordering
    = [Net GetProducts; Net (PostCalculate [1])]
  ∧ loading (cells SamplePages.page_ordering) = true.
Proof.
  assert (fire Click SamplePages.page_chosen = Some SamplePages.page_ordering)
    as Hfire by reflexivity.
  split; [exact Hfire |].
  destruct (click_sends_request _ _ Hfire) as (_ & -> & -> & _).
  split; reflexivity.
Defined.

(** X9, a run of it: while the calculation of item 1 is awaited, one
    handler waits, and neither the button nor the effect starts another. *)
Lemma one_request_in_flight_witness :
  fires SamplePages.evs_ordering first_render = Some SamplePages.page_ordering
  ∧ length (waiting SamplePages.page_ordering) = 1%nat
  ∧ loading (cells SamplePages.page_ordering) = true
  ∧ fire Click SamplePages.page_ordering = None.
Proof.
  assert (fires SamplePages.evs_ordering first_render
          = Some SamplePages.page_ordering) as Hpg by reflexivity.
  split; [exact Hpg |].
  destruct (one_request_in_flight _ _ Hpg) as (_ & Hflag & _ & Hoff).
  assert (waiting SamplePages.page_ordering ≠ []) as Hw by discriminate.
  split; [reflexivity |]. split; [by apply Hflag | by apply Hoff].
Defined.

(** X10, a run of it: the calculation requested carries item 1, which is
    in the list. *)
Lemma orders_of_checked_catalog_items_witness :
  fires SamplePages.evs_ordering first_render = Some SamplePages.page_ordering
  ∧ Net (PostCalculate [1]) ∈ effects SamplePages.page_ordering
  ∧ [1] ⊆ catalog_ids (cells SamplePages.page_ordering).
Proof.
  assert (fires SamplePages.evs_ordering first_render
          = Some SamplePages.page_ordering) as Hpg by reflexivity.
  split; [exact Hpg |].
  assert (Net (PostCalculate [1]) ∈ effects SamplePages.page_ordering) as Hin.
  { right. left. }
  split; [exact Hin |].
  destruct (orders_of_checked_catalog_items _ _ Hpg) as (_ & _ & Hord).
  exact (proj2 (proj2 (Hord [1] Hin))).
Defined.

(** X11, a run of it: the requests so far are the one of the catalog,
    then the calculation. *)
Lemma catalog_requested_once_witness :
  fires SamplePages.evs_ordering first_render = Some SamplePages.page_ordering
  ∧ mounted SamplePages.page_ordering = true
  ∧ requests (effects SamplePages.page_ordering)
    = [GetProducts; PostCalculate [1]].
Proof.
  assert (fires SamplePages.evs_ordering first_render
          = Some SamplePages.page_ordering) as Hpg by reflexivity.
  split; [exact Hpg |]. split; [reflexivity |].
  destruct (catalog_requested_once _ _ Hpg) as (_ & Hreq & _).
  rewrite (Hreq eq_refl). reflexivity.
Defined.

(** X12, a run of it: the catalog could not be fetched; the message
    stays, and neither the effect, a checkbox nor the button does
    anything. *)
Lemma empty_catalog_is_final_witness :
  fires SamplePages.evs_no_catalog first_render = Some SamplePages.page_no_catalog
  ∧ error (cells SamplePages.page_no_catalog) = Some "Failed to load items"%string
  ∧ fire Mount SamplePages.page_no_catalog = None
  ∧ fire (Change 1) SamplePages.page_no_catalog = None
  ∧ fire Click SamplePages.page_no_catalog = None.
Proof.
  assert (fires SamplePages.evs_no_catalog first_render
          = Some SamplePages.page_no_catalog) as Hpg by reflexivity.
  split; [exact Hpg |]. split; [reflexivity |].
  pose proof (empty_catalog_is_final _ _ Hpg eq_refl eq_refl eq_refl) as Hno.
  split_and!; apply Hno.
Defined.

(** X13, a run of it: item 2 is checked while the calculation of item 1
    is awaited; either way the page holds the packages of the reply and
    the selection 1, 2. *)
Lemma change_during_calculation_witness :
  fires SamplePages.evs_ordering first_render = Some SamplePages.page_ordering
  ∧ (cells <$> fires [Change 2; CalculateReply 0 (calculate_reply Sample.env_ok [1])]
                 SamplePages.page_ordering)
    = (cells <$> fires [CalculateReply 0 (calculate_reply Sample.env_ok [1]); Change 2]
                   SamplePages.page_ordering)
  ∧ (selectedItems ∘ cells
       <$> fires [Change 2; CalculateReply 0 (calculate_reply Sample.env_ok [1])]
             SamplePages.page_ordering)
    = Some [1; 2].
Proof.
  assert (fires SamplePages.evs_ordering first_render
          = Some SamplePages.page_ordering) as Hpg by reflexivity.
  split; [exact Hpg |].
  split; [| reflexivity].
  by rewrite (change_during_calculation _ _ 2 0%nat
                (calculate_reply Sample.env_ok [1]) Hpg).
Defined.

(** X14, a run of it: items 2 and 1 were checked and item 2 unchecked;
    one checkbox is checked and the selection has one identifier. *)
Lemma checked_boxes_match_count_witness :
  fires SamplePages.evs_checked first_render = Some SamplePages.page_checked
  ∧ NoDup (catalog_ids (cells SamplePages.page_checked))
  ∧ length (filter (λ row, row_checked row = true)
              (rows (render (cells SamplePages.page_checked)))) = 1%nat.
Proof.
  assert (fires SamplePages.evs_checked first_render
          = Some SamplePages.page_checked) as Hpg by reflexivity.
  assert (NoDup (catalog_ids (cells SamplePages.page_checked))) as Hids
    by compute_done.
  split; [exact Hpg |]. split; [exact Hids |].
  by rewrite (checked_boxes_match_count _ _ Hpg Hids).
Defined.

(** X15, a run of it: the catalog could not be fetched, and the banner
    shows the message. *)
Lemma banner_shows_error_witness :
  fires SamplePages.evs_no_catalog first_render = Some SamplePages.page_no_catalog
  ∧ banner (render (cells SamplePages.page_no_catalog))
    = Some "Failed to load items"%string.
Proof.
  assert (fires SamplePages.evs_no_catalog first_render
          = Some SamplePages.page_no_catalog) as Hpg by reflexivity.
  split; [exact Hpg |].
  by rewrite (proj2 (banner_shows_error _ _ Hpg)).
Defined.

(** X16, a run of it: after the mount effect the catalog is awaited and
    ["Loading items..."] is shown. *)
Lemma loading_note_while_catalog_awaited_witness :
  fires SamplePages.evs_mounted first_render = Some SamplePages.page_mounted
  ∧ loading_note (render (cells SamplePages.page_mounted)) = true
  ∧ no_items_note (render (cells SamplePages.page_mounted)) = false.
Proof.
  assert (fires SamplePages.evs_mounted first_render
          = Some SamplePages.page_mounted) as Hpg by reflexivity.
  split; [exact Hpg |].
  destruct (loading_note_while_catalog_awaited _ _ Hpg) as [Hnote _].
  split; [| reflexivity].
  apply Hnote. by eexists.
Defined.

(** ** Amounts of money as [toFixed(2)] writes them *)

Section DigitFacts.
Local Open Scope string_scope.
Local Open Scope Z_scope.

Lemma string_of_list_app (l1 l2 : list digits) :
  NilEmpty.string_of_uint (of_list (l1 ++ l2)%list)
  = NilEmpty.string_of_uint (of_list l1) ++ NilEmpty.string_of_uint (of_list l2).
Proof.
  induction l1 as [| d l1 IH]; [done |].
  destruct d; simpl; by rewrite IH.
Qed.

Lemma string_of_uint_app (u v : uint) :
  NilEmpty.string_of_uint (Decimal.app u v)
  = NilEmpty.string_of_uint u ++ NilEmpty.string_of_uint v.
Proof.
  rewrite <- (of_list_to_list (Decimal.app u v)), app_spec, string_of_list_app.
  by rewrite !of_list_to_list.
Qed.

Lemma N_digit_cases (k : N) :
  (k < 10)%N →
  k = 0%N ∨ k = 1%N ∨ k = 2%N ∨ k = 3%N ∨ k = 4%N ∨ k = 5%N ∨ k = 6%N
  ∨ k = 7%N ∨ k = 8%N ∨ k = 9%N.
Proof. lia. Qed.

Ltac digit_cases H :=
  destruct H as [H | [H | [H | [H | [H | [H | [H | [H | [H | H]]]]]]]]].

(** The value of a numeral followed by a digit. *)
Lemma of_uint_snoc_digit u k :
  (k < 10)%N → N.of_uint (snoc_digit u k) = (10 * N.of_uint u + k)%N.
Proof.
  intros Hk. unfold N.of_uint, snoc_digit.
  rewrite (DecimalPos.Unsigned.of_uint_alt (Decimal.app _ _)).
  rewrite (DecimalPos.Unsigned.of_uint_alt u).
  set (v := match k with 0%N => _ | _ => _ end).
  assert (Decimal.rev (Decimal.app u v) = Decimal.revapp v (Decimal.rev u)) as ->.
  { apply to_list_inj.
    rewrite rev_spec, app_spec, revapp_spec, rev_spec, rev_app_distr, rev_append_rev.
    done. }
  pose proof (N_digit_cases k Hk) as Hc. digit_cases Hc; subst k v;
    cbn [Decimal.revapp DecimalPos.Unsigned.of_lu]; lia.
Qed.

Lemma nb_digits_to_uint n : (10 ≤ n)%N → (1 < nb_digits (N.to_uint n))%nat.
Proof.
  intros Hn. pose proof (DecimalN.Unsigned.of_to n) as E.
  destruct (N.to_uint n) as [| t | t | t | t | t | t | t | t | t | t];
    try (destruct t; simpl in *; lia).
  simpl in E. lia.
Qed.

Lemma unorm_to_uint n : unorm (N.to_uint n) = N.to_uint n.
Proof.
  rewrite <- (DecimalN.Unsigned.of_to n) at 2. by rewrite DecimalN.Unsigned.to_of.
Qed.

(** The numeral of [n >= 10] is the one of [n / 10] followed by the last
    digit of [n]. *)
Lemma to_uint_snoc (n : N) :
  (10 ≤ n)%N → N.to_uint n = snoc_digit (N.to_uint (n / 10)) (n mod 10).
Proof.
  intros Hn.
  assert (n mod 10 < 10)%N as Hk by (apply N.mod_lt; lia).
  assert (N.of_uint (snoc_digit (N.to_uint (n / 10)) (n mod 10)) = n) as E.
  { rewrite of_uint_snoc_digit, DecimalN.Unsigned.of_to by done.
    pose proof (N.div_mod n 10). lia. }
  pose proof (DecimalN.Unsigned.to_of
                (snoc_digit (N.to_uint (n / 10)) (n mod 10))) as T.
  rewrite E in T. rewrite T. unfold snoc_digit in *.
  rewrite unorm_app_l, unorm_to_uint; [done |].
  rewrite <- T.
  pose proof (nb_digits_to_uint n Hn).
  pose proof (N_digit_cases _ Hk) as Hc. digit_cases Hc; rewrite Hc; simpl; lia.
Qed.

Lemma digits_of_snoc (n : N) :
  (10 ≤ n)%N →
  digits_of n = digits_of (n / 10) ++ String (digit_char (Z.of_N (n mod 10))) "".
Proof.
  intros Hn. unfold digits_of, NilZero.string_of_uint.
  rewrite (to_uint_snoc n Hn).
  assert (n mod 10 < 10)%N as Hk by (apply N.mod_lt; lia).
  assert (1 ≤ n / 10)%N as Hq.
  { apply N.div_le_lower_bound; lia. }
  set (u := N.to_uint (n / 10)).
  assert (u ≠ Nil) as Hu.
  { subst u. destruct (n / 10)%N as [| p] eqn:E; [lia |]. simpl.
    apply DecimalPos.Unsigned.to_uint_nonnil. }
  pose proof (N_digit_cases _ Hk) as Hc.
  assert (snoc_digit u (n mod 10) ≠ Nil) as Hs.
  { unfold snoc_digit. intros E. apply (f_equal to_list) in E.
    rewrite app_spec in E. simpl in E. apply app_eq_nil in E as [_ E].
    digit_cases Hc; rewrite Hc in E; discriminate. }
  destruct (snoc_digit u (n mod 10)) eqn:Es; [done | ..];
    rewrite <- Es; unfold snoc_digit; rewrite string_of_uint_app;
    (destruct u; [done | ..]); f_equal;
    unfold digit_char; rewrite N2Z.id;
    digit_cases Hc; rewrite Hc; reflexivity.
Qed.

Lemma string_app_assoc (s t u : string) : (s ++ t) ++ u = s ++ (t ++ u).
Proof. induction s as [| c s IH]; [done | by rewrite !append_cons, IH]. Qed.

Lemma take_string_app s t : take_string (String.length s) (s ++ t) = s.
Proof.
  induction s as [| c s IH]; [by destruct t |].
  rewrite append_cons. simpl. by rewrite IH.
Qed.

Lemma drop_string_app s t : drop_string (String.length s) (s ++ t) = t.
Proof. induction s as [| c s IH]; [by destruct t | by rewrite append_cons]. Qed.

(** Below one dollar: every case, by computation. *)
Lemma fixed_digits_small :
  forallb (λ i, String.eqb (fixed_digits 2 (Z.of_nat i)) (money (Z.of_nat i)))
          (seq 0 100) = true.
Proof. vm_compute. reflexivity. Qed.

(** Steps 11.b and 11.c with two fraction digits, digit by digit. *)
Lemma fixed_digits_money n : 0 ≤ n → fixed_digits 2 n = money n.
Proof.
  intros Hn. destruct (Z.lt_ge_cases n 100) as [Hsmall | Hlarge].
  - pose proof fixed_digits_small as H. rewrite forallb_forall in H.
    specialize (H (Z.to_nat n)). rewrite Z2Nat.id in H by lia.
    apply String.eqb_eq, H, in_seq. lia.
  - unfold fixed_digits, money.
    assert (10 ≤ Z.to_N n)%N as H1 by lia.
    assert (10 ≤ Z.to_N n / 10)%N as H2.
    { apply N.div_le_lower_bound; lia. }
    rewrite (digits_of_snoc _ H1), (digits_of_snoc _ H2).
    assert (Z.to_N n / 10 / 10 = Z.to_N (n / 100))%N as ->.
    { rewrite N.Div0.div_div. change (10 * 10)%N with (Z.to_N 100).
      rewrite <- Z2N.inj_div by lia. done. }
    assert (Z.of_N (Z.to_N n / 10 mod 10) = n / 10 mod 10) as ->.
    { rewrite N2Z.inj_mod, N2Z.inj_div, Z2N.id by lia. done. }
    assert (Z.of_N (Z.to_N n mod 10) = n mod 10) as ->.
    { rewrite N2Z.inj_mod, Z2N.id by lia. done. }
    set (w := digits_of (Z.to_N (n / 100))).
    set (c1 := digit_char (n / 10 mod 10)). set (c0 := digit_char (n mod 10)).
    pose proof (length_digits_of (Z.to_N (n / 100))) as Hw. fold w in Hw.
    rewrite string_app_assoc.
    change (String c1 "" ++ String c0 "") with (String c1 (String c0 "")).
    rewrite !length_string_app. cbn [String.length].
    rewrite (bool_decide_eq_false_2 (2%nat = 0%nat)) by done.
    rewrite (bool_decide_eq_false_2 (String.length w + 2 ≤ 2)%nat) by lia.
    rewrite !length_string_app. cbn [String.length].
    replace (String.length w + 2 - 2)%nat with (String.length w) by lia.
    by rewrite take_string_app, drop_string_app.
Qed.

(** [round_scaled] gives the nearest hundredth. *)
Lemma round_scaled_nearest m e : nearest_cent m e (round_scaled 2 m e).
Proof.
  unfold nearest_cent, round_scaled. change (10 ^ Z.of_nat 2) with 100.
  destruct (Z.leb_spec 0 e) as [He | He].
  - rewrite (Z.max_l 0 (- e)), (Z.max_r 0 e) by lia.
    assert (0 < 2 ^ e) by (apply Z.pow_pos_nonneg; lia).
    change (2 ^ 0) with 1. lia.
  - rewrite (Z.max_r 0 (- e)), (Z.max_l 0 e) by lia.
    set (Q := 2 ^ (- e)). assert (0 < Q) by (apply Z.pow_pos_nonneg; lia).
    change (2 ^ 0) with 1.
    pose proof (Z.div_mod (2 * (Z.pos m * 100) + Q) (2 * Q) ltac:(lia)) as Hd.
    pose proof (Z.mod_pos_bound (2 * (Z.pos m * 100) + Q) (2 * Q) ltac:(lia)) as Hm.
    set (n := (2 * (Z.pos m * 100) + Q) / (2 * Q)) in *. nia.
Qed.
End DigitFacts.

Section Prices.
Local Open Scope string_scope.
Local Open Scope Z_scope.

(** X17. A total price that the reply writes with two decimals, [c / 100]
    with [0 <= c <= 10^11], is shown on its card as it was written: the
    dollars, a point and the two digits of the cents. Neither the
    division that reads the number nor [toFixed(2)] loses a cent. *)
Theorem card_price_in_cents pkgs (idx : nat) pkg c :
  pkgs !! idx = Some pkg →
  0 ≤ c ≤ max_total_cents →
  totalPrice pkg = decimal c 2 →
  card_total_price <$> package_cards pkgs !! idx = Some ("$" ++ money c).
Proof.
  intros Hidx Hc Hprice. unfold package_cards.
  rewrite list_lookup_imap, Hidx. simpl. rewrite Hprice. unfold Number.
  destruct (decimal2_cents_price c Hc) as [[Hamount _] Hcents].
  by rewrite (toFixed_amount _ Hamount), Hcents, fixed_digits_money by lia.
Qed.

(** X18. The total price on a card is the hundredth nearest to the
    number, upwards when the number is half-way, for every finite number
    below [10^21] in magnitude; a negative number has its sign before the
    rounded magnitude. *)
Theorem card_price_nearest_cent pkgs (idx : nat) pkg sx m e :
  pkgs !! idx = Some pkg →
  totalPrice pkg = S754_finite sx m e →
  at_least_1e21 m e = false →
  let n := round_scaled 2 m e in
  0 ≤ n ∧ nearest_cent m e n
  ∧ card_total_price <$> package_cards pkgs !! idx
    = Some ("$" ++ (if sx then "-" else "") ++ money n).
Proof.
  intros Hidx Hprice Hrange n.
  split; [apply round_scaled_nonneg |]. split; [apply round_scaled_nearest |].
  unfold package_cards. rewrite list_lookup_imap, Hidx. simpl.
  rewrite Hprice. unfold Number. cbn [toFixed]. rewrite Hrange.
  by rewrite fixed_digits_money by apply round_scaled_nonneg.
Qed.

(** X19. An empty list of packages is rendered, not hidden: the heading
    counts 0 packages and the total is ["$0.00"]. With one package the
    heading is in the singular and the total is the courier price of that
    package as [toFixed(2)] writes it, whatever the number. *)
Theorem aggregate_of_none_or_one p :
  renderPackages (Some [])
  = Some {| package_count := 0; plural_mark := "s";
            total_courier_charges := "$0.00" |}
  ∧ renderPackages (Some [p])
    = Some {| package_count := 1; plural_mark := "";
              total_courier_charges := "$" ++ toFixed 2 (courierPrice p) |}.
Proof.
  split; [reflexivity |].
  unfold renderPackages, courier_sum, Number. cbn [foldl length].
  rewrite bool_decide_eq_false_2 by (intros H; by apply H).
  do 2 f_equal.
  by destruct (courierPrice p) as [[] | [] | | [] m e].
Qed.

Lemma total_cents_decimals pkgs cs :
  Forall2 (λ p c, 0 ≤ c ∧ courierPrice p = decimal c 2) pkgs cs →
  total_amount cs ≤ max_total_cents →
  0 ≤ total_amount cs
  ∧ Forall (λ p, cents_price (courierPrice p)) pkgs
  ∧ total_cents pkgs = total_amount cs.
Proof.
  induction 1 as [| p c pkgs cs [Hc Hp] Hall IH]; intros Htotal.
  - split; [done |]. split; [apply Forall_nil_2 | done].
  - change (total_amount (c :: cs)) with (c + total_amount cs) in *.
    assert (0 ≤ total_amount cs) as Hrest.
    { clear - Hall. induction Hall as [| p' c' ? ? [? _] _ IH']; [done |].
      change (total_amount (c' :: l')) with (c' + total_amount l'). lia. }
    destruct (IH ltac:(lia)) as (_ & Hprices & Hsum).
    destruct (decimal2_cents_price c ltac:(lia)) as [Hprice Hcents].
    split; [lia |]. split.
    + apply Forall_cons_2; [by rewrite Hp | done].
    + rewrite total_cents_cons, Hp, Hcents, Hsum. done.
Qed.

(** X20. When every courier price is written with two decimals in the
    reply, [c / 100] with [c >= 0], for at most [10^4] packages and
    [10^11] cents in all, the total shown is the exact sum of the prices:
    the dollars, a point and the two digits of the cents of the sum. *)
Theorem total_of_decimal_prices pkgs (cs : list Z) :
  Forall2 (λ p c, 0 ≤ c ∧ courierPrice p = decimal c 2) pkgs cs →
  Z.of_nat (length pkgs) ≤ max_packages →
  total_amount cs ≤ max_total_cents →
  total_courier_charges <$> renderPackages (Some pkgs)
  = Some ("$" ++ money (total_amount cs)).
Proof.
  intros Hall Hlen Htotal.
  destruct (total_cents_decimals pkgs cs Hall Htotal) as (Hpos & Hprices & Hsum).
  destruct (courier_sum_cents pkgs Hprices Hlen ltac:(lia)) as [Hamount Hcents].
  simpl. by rewrite (toFixed_amount _ Hamount), Hcents, Hsum, fixed_digits_money.
Qed.
End Prices.

(** X17, a run of it: the total price 12.34 is shown as ["$12.34"]. *)
Lemma card_price_in_cents_witness :
  SamplePages.pkgs_priced !! 0%nat = Some SamplePages.pkg_priced
  ∧ 0 ≤ 1234 ≤ max_total_cents
  ∧ card_total_price <$> package_cards SamplePages.pkgs_priced !! 0%nat
    = Some "$12.34"%string.
Proof.
  assert (0 ≤ 1234 ≤ max_total_cents) as Hc by (by vm_compute).
  split; [reflexivity |]. split; [exact Hc |].
  exact (card_price_in_cents SamplePages.pkgs_priced 0 SamplePages.pkg_priced
           1234 eq_refl Hc eq_refl).
Defined.

(** X18, a run of it: the total price 1.005, which a binary64 number
    holds as a little less, is shown as ["$1.00"]. *)
Lemma card_price_nearest_cent_witness :
  SamplePages.pkgs_priced !! 1%nat = Some SamplePages.pkg_half_cent
  ∧ totalPrice SamplePages.pkg_half_cent
    = S754_finite false 4526117625507348 (-52)
  ∧ at_least_1e21 4526117625507348 (-52) = false
  ∧ nearest_cent 4526117625507348 (-52) 100
  ∧ card_total_price <$> package_cards SamplePages.pkgs_priced !! 1%nat
    = Some "$1.00"%string.
Proof.
  assert (totalPrice SamplePages.pkg_half_cent
          = S754_finite false 4526117625507348 (-52)) as Hprice by (by vm_compute).
  assert (at_least_1e21 4526117625507348 (-52) = false) as Hrange
    by (by vm_compute).
  split; [reflexivity |]. split; [exact Hprice |]. split; [exact Hrange |].
  destruct (card_price_nearest_cent SamplePages.pkgs_priced 1
              SamplePages.pkg_half_cent false _ _ eq_refl Hprice Hrange)
    as (_ & Hnear & Htext).
  split; [exact Hnear | exact Htext].
Defined.

(** X20, a run of it: the courier prices 5.00 and 7.50 give ["$12.50"]. *)
Lemma total_of_decimal_prices_witness :
  Forall2 (λ p c, 0 ≤ c ∧ courierPrice p = decimal c 2)
    [Sample.pkg_A; Sample.pkg_B] [500; 750]
  ∧ total_courier_charges <$> renderPackages (Some [Sample.pkg_A; Sample.pkg_B])
    = Some "$12.50"%string.
Proof.
  assert (Forall2 (λ p c, 0 ≤ c ∧ courierPrice p = decimal c 2)
            [Sample.pkg_A; Sample.pkg_B] [500; 750]) as Hall.
  { apply Forall2_cons_2; [split; [lia | reflexivity] |].
    apply Forall2_cons_2; [split; [lia | reflexivity] |]. apply Forall2_nil_2. }
  split; [exact Hall |].
  exact (total_of_decimal_prices [Sample.pkg_A; Sample.pkg_B] [500; 750] Hall
           ltac:(by vm_compute) ltac:(by vm_compute)).
Defined.

(** ** The numbers that [Number::toString] writes *)

(** *** Reading a decimal as a number *)

Section ReadsFacts.
Local Open Scope Z_scope.

Lemma compare_scaled_neg a b N E :
  E < 0 → compare_scaled a b N E = (a * 2 ^ (- E) ?= N * b).
Proof. intros HE. unfold compare_scaled. by rewrite (proj2 (Z.leb_gt 0 E)). Qed.

(** A rational that rounds to [m * 2^e] is within half a unit of the
    last place. *)
Lemma rounds_to_bound m e a b :
  e ≤ 0 → 0 < b → rounds_to m e a b = true →
  (2 * Z.pos m - 1) * b ≤ a * 2 ^ (1 - e) ≤ (2 * Z.pos m + 1) * b.
Proof.
  intros He Hb. unfold rounds_to.
  rewrite !compare_scaled_neg by lia.
  replace (- (e - 1)) with (1 - e) by lia. replace (- (e - 2)) with (1 - e + 1) by lia.
  rewrite Z.pow_add_r by lia. change (2 ^ 1) with 2.
  set (P := 2 ^ (1 - e)). assert (0 < P) by (apply Z.pow_pos_nonneg; lia).
  destruct ((Z.pos m =? 2 ^ 52) && (emin64 <? e)).
  - destruct (Z.compare_spec (a * (P * 2)) ((4 * Z.pos m - 1) * b));
      destruct (Z.compare_spec (a * P) ((2 * Z.pos m + 1) * b));
      try discriminate; intros _; nia.
  - destruct (Z.compare_spec (a * P) ((2 * Z.pos m - 1) * b));
      destruct (Z.compare_spec (a * P) ((2 * Z.pos m + 1) * b));
      try discriminate; intros _; nia.
Qed.

(** A rational strictly within half a unit of [m * 2^e], and, below a
    power of two, strictly within a quarter, rounds to it. *)
Lemma rounds_to_inside m e a b :
  e ≤ 0 → 0 < b →
  (2 * Z.pos m - 1) * b < a * 2 ^ (1 - e) < (2 * Z.pos m + 1) * b →
  (Z.pos m = 2 ^ 52 → (4 * Z.pos m - 1) * b < 2 * (a * 2 ^ (1 - e))) →
  rounds_to m e a b = true.
Proof.
  intros He Hb Hnear Hpow. unfold rounds_to.
  rewrite !compare_scaled_neg by lia.
  replace (- (e - 1)) with (1 - e) by lia. replace (- (e - 2)) with (1 - e + 1) by lia.
  rewrite Z.pow_add_r by lia. change (2 ^ 1) with 2.
  set (P := 2 ^ (1 - e)) in *. assert (0 < P) by (apply Z.pow_pos_nonneg; lia).
  assert ((a * P ?= (2 * Z.pos m + 1) * b) = Lt) as -> by (apply Z.compare_lt_iff; lia).
  destruct (Z.eqb_spec (Z.pos m) (2 ^ 52)) as [Hm | Hm]; cbn [andb].
  - destruct (emin64 <? e).
    + assert ((a * (P * 2) ?= (4 * Z.pos m - 1) * b) = Gt) as ->; [| done].
      apply Z.compare_gt_iff. specialize (Hpow Hm). lia.
    + assert ((a * P ?= (2 * Z.pos m - 1) * b) = Gt) as ->; [| done].
      apply Z.compare_gt_iff. lia.
  - assert ((a * P ?= (2 * Z.pos m - 1) * b) = Gt) as ->; [| done].
    apply Z.compare_gt_iff. lia.
Qed.

(** The same rational, written with other terms. *)
Lemma rounds_to_scale m e a b t :
  0 < t → rounds_to m e (a * t) (b * t) = rounds_to m e a b.
Proof.
  intros Ht. unfold rounds_to, compare_scaled.
  assert (∀ x y, (x * t ?= y * t) = (x ?= y)) as Hc.
  { intros x y.
    destruct (Z.compare_spec x y) as [-> | Hlt | Hgt].
    - apply Z.compare_refl.
    - apply Z.compare_lt_iff. nia.
    - apply Z.compare_gt_iff. nia. }
  assert (∀ N E, (if 0 <=? E then a * t ?= N * 2 ^ E * (b * t)
                  else a * t * 2 ^ (- E) ?= N * (b * t))
                 = (if 0 <=? E then a ?= N * 2 ^ E * b
                    else a * 2 ^ (- E) ?= N * b)) as Hs.
  { intros N E. destruct (0 <=? E).
    - replace (N * 2 ^ E * (b * t)) with (N * 2 ^ E * b * t) by ring. apply Hc.
    - replace (a * t * 2 ^ (- E)) with (a * 2 ^ (- E) * t) by ring.
      replace (N * (b * t)) with (N * b * t) by ring. apply Hc. }
  by rewrite !Hs.
Qed.

Lemma rounds_to_eq m e a b a' b' :
  0 < b → 0 < b' → a * b' = a' * b → rounds_to m e a b = rounds_to m e a' b'.
Proof.
  intros Hb Hb' E.
  rewrite <- (rounds_to_scale m e a b b'), <- (rounds_to_scale m e a' b' b) by done.
  by rewrite E, (Z.mul_comm b b').
Qed.
End ReadsFacts.

(** *** The shortest decimal *)

Section ShortestFacts.
Local Open Scope Z_scope.

Lemma pow10_pos j : 0 < 10 ^ j ∨ j < 0.
Proof. destruct (Z.lt_ge_cases j 0); [by right | left; by apply Z.pow_pos_nonneg]. Qed.

(** The number of digits of an integer is determined. *)
Lemma digits_count_unique s k K :
  10 ^ (k - 1) ≤ s < 10 ^ k → 10 ^ (K - 1) ≤ s < 10 ^ K → 1 ≤ k → 1 ≤ K → k = K.
Proof.
  intros Hk HK H1 H2.
  destruct (Z.lt_trichotomy k K) as [Hlt | [-> | Hgt]]; [exfalso | done | exfalso].
  - assert (10 ^ k ≤ 10 ^ (K - 1)) by (apply Z.pow_le_mono_r; lia). lia.
  - assert (10 ^ K ≤ 10 ^ (k - 1)) by (apply Z.pow_le_mono_r; lia). lia.
Qed.

(** Two ways to write a number with digits and a power of ten. *)
Lemma pow10_cancel s s0 A B k K :
  0 ≤ A → 0 ≤ B → s * 10 ^ A = s0 * 10 ^ B →
  s0 mod 10 ≠ 0 → 1 ≤ k ≤ K → s < 10 ^ k → 10 ^ (K - 1) ≤ s0 →
  A = B ∧ s = s0.
Proof.
  intros HA HB E Hs0 Hk Hs HK.
  assert (0 < 10 ^ A) by (apply Z.pow_pos_nonneg; lia).
  assert (0 < 10 ^ B) by (apply Z.pow_pos_nonneg; lia).
  assert (0 < 10 ^ (K - 1)) by (apply Z.pow_pos_nonneg; lia).
  destruct (Z.lt_trichotomy A B) as [Hlt | [-> | Hgt]].
  - exfalso. replace B with (A + (B - A - 1) + 1) in E by lia.
    rewrite !Z.pow_add_r in E by lia. change (10 ^ 1) with 10 in E.
    assert (0 < 10 ^ (B - A - 1)) by (apply Z.pow_pos_nonneg; lia).
    assert (s = s0 * 10 ^ (B - A - 1) * 10) as Hs' by nia.
    assert (10 ^ k ≤ 10 ^ K) by (apply Z.pow_le_mono_r; lia).
    assert (10 ^ K = 10 ^ (K - 1) * 10) as HK10.
    { replace K with (K - 1 + 1) at 1 by lia. by rewrite Z.pow_add_r by lia. }
    assert (s0 ≤ s0 * 10 ^ (B - A - 1)) by nia. lia.
  - split; [done |]. nia.
  - exfalso. replace A with (B + (A - B - 1) + 1) in E by lia.
    rewrite !Z.pow_add_r in E by lia. change (10 ^ 1) with 10 in E.
    assert (0 < 10 ^ (A - B - 1)) by (apply Z.pow_pos_nonneg; lia).
    assert (s0 = s * 10 ^ (A - B - 1) * 10) as Hs' by nia.
    apply Hs0. rewrite Hs'. apply Z_mod_mult.
Qed.

(** Two rationals within half a unit of the last place of the same
    number, and not equal, are close: [2^(1-e) <= 2 * q * b]. *)
Lemma near_rationals a b c q P W :
  0 < P → 0 < q → 0 < b →
  (W - 1) * b ≤ a * P ≤ (W + 1) * b →
  (W - 1) * q ≤ c * P ≤ (W + 1) * q →
  a * q ≠ c * b → P ≤ 2 * q * b.
Proof.
  intros HP Hq Hb Hv Hnear Hne.
  assert (q * ((W - 1) * b) ≤ q * (a * P) ≤ q * ((W + 1) * b)) as Hqa
    by (split; apply Z.mul_le_mono_nonneg_l; lia).
  assert (b * ((W - 1) * q) ≤ b * (c * P) ≤ b * ((W + 1) * q)) as Hbc
    by (split; apply Z.mul_le_mono_nonneg_l; lia).
  assert ((a * q - c * b) * P = q * (a * P) - b * (c * P)) as HdP by ring.
  assert (q * ((W + 1) * b) - b * ((W - 1) * q) = 2 * q * b) as Hw1 by ring.
  assert (q * ((W - 1) * b) - b * ((W + 1) * q) = - (2 * q * b)) as Hw2 by ring.
  set (d := a * q - c * b) in *.
  assert (d ≠ 0) as Hd by (unfold d; lia).
  clearbody d. clear Hv Hnear Hne.
  destruct (Z.lt_ge_cases d 0) as [Hneg | Hpos].
  - assert (1 * P ≤ (- d) * P) as Hle
      by (apply Z.mul_le_mono_nonneg_r; lia).
    rewrite Z.mul_opp_l in Hle. lia.
  - assert (1 * P ≤ d * P) as Hle by (apply Z.mul_le_mono_nonneg_r; lia).
    lia.
Qed.

(** The rational that [reads_as] reads, as a fraction. *)
Lemma reads_as_bound m e s h :
  e ≤ 0 → reads_as m e s h = true →
  (2 * Z.pos m - 1) * 10 ^ Z.max 0 (- h)
  ≤ s * 10 ^ Z.max 0 h * 2 ^ (1 - e)
  ≤ (2 * Z.pos m + 1) * 10 ^ Z.max 0 (- h).
Proof.
  intros He Hreads. unfold reads_as in Hreads.
  destruct (Z.leb_spec 0 h) as [Hh0 | Hh0].
  - rewrite (Z.max_r 0 h), (Z.max_l 0 (- h)) by lia. change (10 ^ 0) with 1.
    apply rounds_to_bound in Hreads; [exact Hreads | lia | lia].
  - rewrite (Z.max_l 0 h), (Z.max_r 0 (- h)) by lia. change (10 ^ 0) with 1.
    rewrite Z.mul_1_r.
    apply rounds_to_bound in Hreads; [exact Hreads | lia |].
    apply Z.pow_pos_nonneg; lia.
Qed.

(** A decimal of at most [K] digits that reads as a number within half a
    unit of [c / q] is [c / q]. *)
Lemma reads_same m e c q K s h k :
  2 ^ 52 ≤ Z.pos m → e ≤ 0 →
  0 < q → 2 * q < 2 ^ (1 - e) → 2 * q * 10 ^ K ≤ 2 ^ 53 - 1 →
  (2 * Z.pos m - 1) * q ≤ c * 2 ^ (1 - e) ≤ (2 * Z.pos m + 1) * q →
  1 ≤ k ≤ K → 10 ^ (k - 1) ≤ s < 10 ^ k →
  reads_as m e s h = true →
  s * 10 ^ Z.max 0 h * q = c * 10 ^ Z.max 0 (- h).
Proof.
  intros Hm He Hq HP HK Hnear Hk Hs Hreads.
  pose proof (reads_as_bound m e s h He Hreads) as Hv. clear Hreads.
  set (P := 2 ^ (1 - e)) in *. assert (0 < P) by (apply Z.pow_pos_nonneg; lia).
  clearbody P. clear He.
  assert (10 ^ k ≤ 10 ^ K) as HkK by (apply Z.pow_le_mono_r; lia).
  assert (0 < 10 ^ (k - 1)) as Hk1 by (apply Z.pow_pos_nonneg; lia).
  assert (0 ≤ s < 10 ^ K) as [Hs0 HsK] by lia. clear HkK Hs Hk Hk1.
  set (X := 10 ^ K) in *. clearbody X.
  change (2 ^ 52) with 4503599627370496 in Hm.
  change (2 ^ 53) with 9007199254740992 in HK.
  set (W := 2 * Z.pos m) in *. assert (9007199254740992 ≤ W) as HW by lia.
  clearbody W. clear Hm.
  destruct (Z.eq_dec (s * 10 ^ Z.max 0 h * q) (c * 10 ^ Z.max 0 (- h)))
    as [E | Hne]; [exact E | exfalso].
  assert (0 < 10 ^ Z.max 0 (- h)) as Hb by (apply Z.pow_pos_nonneg; lia).
  pose proof (near_rationals _ _ _ _ P W ltac:(done) Hq Hb Hv Hnear Hne) as HPb.
  clear Hne Hnear.
  destruct (Z.leb_spec 0 h) as [Hh0 | Hh0].
  - rewrite (Z.max_l 0 (- h)) in HPb by lia. change (10 ^ 0) with 1 in HPb. lia.
  - rewrite (Z.max_l 0 h) in Hv by lia. change (10 ^ 0) with 1 in Hv.
    rewrite Z.mul_1_r in Hv. destruct Hv as [Hv _].
    set (b := 10 ^ Z.max 0 (- h)) in *. clearbody b. clear Hh0.
    assert (s * P ≤ s * (2 * q * b)) as Hsp
      by (apply Z.mul_le_mono_nonneg_l; lia).
    assert ((W - 1) * b ≤ (2 * q * s) * b) as Hwb.
    { replace (2 * q * s * b) with (s * (2 * q * b)) by ring. lia. }
    apply Z.mul_le_mono_pos_r in Hwb; [| exact Hb].
    assert (2 * q * s < 2 * q * X) as Hlt.
    { assert (0 < 2 * q) as H2q by lia.
      exact (proj1 (Z.mul_lt_mono_pos_l (2 * q) s X H2q) HsK). }
    clear - HW HK Hwb Hlt. lia.
Qed.

(** The decimal [s0 * 10^t0], of [K] digits, is the only one of at most
    [K] digits that reads as a number it is within half a unit of. *)
Lemma reads_unique m e c q s0 t0 K s h k :
  2 ^ 52 ≤ Z.pos m → e ≤ 0 →
  0 < q → 2 * q < 2 ^ (1 - e) → 2 * q * 10 ^ K ≤ 2 ^ 53 - 1 →
  (2 * Z.pos m - 1) * q ≤ c * 2 ^ (1 - e) ≤ (2 * Z.pos m + 1) * q →
  c * 10 ^ Z.max 0 (- t0) = s0 * q * 10 ^ Z.max 0 t0 →
  s0 mod 10 ≠ 0 → 10 ^ (K - 1) ≤ s0 < 10 ^ K →
  1 ≤ k ≤ K → 10 ^ (k - 1) ≤ s < 10 ^ k →
  reads_as m e s h = true →
  s = s0 ∧ h = t0 ∧ k = K.
Proof.
  intros Hm He Hq HP HK Hnear Hrepr Hs0 Hs0K Hk Hs Hreads.
  pose proof (reads_same m e c q K s h k Hm He Hq HP HK Hnear Hk Hs Hreads)
    as Hsame.
  clear Hm He HP HK Hnear Hreads.
  assert (0 ≤ Z.max 0 h) as Hh1 by apply Z.le_max_l.
  assert (0 ≤ Z.max 0 (- h)) as Hh2 by apply Z.le_max_l.
  assert (0 ≤ Z.max 0 t0) as Ht1 by apply Z.le_max_l.
  assert (0 ≤ Z.max 0 (- t0)) as Ht2 by apply Z.le_max_l.
  assert (Z.max 0 h + Z.max 0 (- t0) = Z.max 0 t0 + Z.max 0 (- h) → h = t0)
    as Hexp by (clear; lia).
  set (h1 := Z.max 0 h) in *. set (h2 := Z.max 0 (- h)) in *.
  set (t1 := Z.max 0 t0) in *. set (t2 := Z.max 0 (- t0)) in *.
  clearbody h1 h2 t1 t2.
  assert (s * 10 ^ (h1 + t2) = s0 * 10 ^ (t1 + h2)) as Hpow.
  { rewrite !Z.pow_add_r by done.
    apply (Z.mul_cancel_r _ _ q); [lia |].
    transitivity (s * 10 ^ h1 * q * 10 ^ t2); [ring |].
    rewrite Hsame.
    transitivity (c * 10 ^ t2 * 10 ^ h2); [ring |].
    rewrite Hrepr. ring. }
  assert (0 ≤ h1 + t2) as HA by (clear - Hh1 Ht2; lia).
  assert (0 ≤ t1 + h2) as HB by (clear - Ht1 Hh2; lia).
  destruct (pow10_cancel s s0 (h1 + t2) (t1 + h2) k K HA HB Hpow Hs0 Hk
              (proj2 Hs) (proj1 Hs0K)) as [HAB ->].
  split; [done |]. split; [by apply Hexp |].
  apply (digits_count_unique s0); [done | done | | ]; clear - Hk; lia.
Qed.
End ShortestFacts.

Section DigitCount.
Local Open Scope string_scope.
Local Open Scope Z_scope.

Lemma digits_of_snoc_Z a :
  10 ≤ a →
  digits_of (Z.to_N a)
  = digits_of (Z.to_N (a / 10)) ++ String (digit_char (a mod 10)) "".
Proof.
  intros Ha. rewrite (digits_of_snoc (Z.to_N a)) by lia.
  change 10%N with (Z.to_N 10). rewrite <- Z2N.inj_div, <- Z2N.inj_mod by lia.
  rewrite Z2N.id; [done |]. apply Z.mod_pos_bound. lia.
Qed.

Lemma digits_of_digit a :
  0 ≤ a < 10 → digits_of (Z.to_N a) = String (digit_char a) "".
Proof.
  intros Ha.
  assert (a = 0 ∨ a = 1 ∨ a = 2 ∨ a = 3 ∨ a = 4 ∨ a = 5 ∨ a = 6 ∨ a = 7
          ∨ a = 8 ∨ a = 9) as Hc by lia.
  destruct Hc as [-> | [-> | [-> | [-> | [-> | [-> | [-> | [-> | [-> | ->]]]]]]]]];
    reflexivity.
Qed.

Lemma digits_count_bounds a :
  1 ≤ a → 1 ≤ digits_count a ∧ 10 ^ (digits_count a - 1) ≤ a < 10 ^ digits_count a.
Proof.
  intros Ha. assert (0 ≤ a) as Hpos by lia. revert Ha.
  pattern a. apply Z_lt_induction; [clear a Hpos | exact Hpos].
  intros a IH Ha. unfold digits_count in *.
  destruct (Z.lt_ge_cases a 10) as [Hsmall | Hlarge].
  - rewrite digits_of_digit by lia. simpl. lia.
  - rewrite digits_of_snoc_Z, length_string_app by done. cbn [String.length].
    assert (1 ≤ a / 10) as Hq by (apply Z.div_le_lower_bound; lia).
    assert (a / 10 < a) as Hlt by (apply Z.div_lt; lia).
    destruct (IH (a / 10) ltac:(lia) Hq) as [H1 Hb].
    set (L := Z.of_nat (String.length (digits_of (Z.to_N (a / 10))))) in *.
    rewrite Nat2Z.inj_add. fold L. change (Z.of_nat 1) with 1.
    replace (L + 1 - 1) with (L - 1 + 1) by lia.
    rewrite !Z.pow_add_r by lia. change (10 ^ 1) with 10.
    pose proof (Z.div_mod a 10 ltac:(lia)) as Hdm.
    pose proof (Z.mod_pos_bound a 10 ltac:(lia)) as Hmod.
    split; [lia |]. lia.
Qed.

Lemma repeat_char_snoc c k :
  repeat_char c (S k) = repeat_char c k ++ String c "".
Proof.
  induction k as [| k IH]; [done |].
  change (repeat_char c (S (S k))) with (String c (repeat_char c (S k))).
  rewrite IH at 1. change (repeat_char c (S k)) with (String c (repeat_char c k)).
  by rewrite append_cons.
Qed.

(** The digits of [a * 10^z] are the digits of [a] and [z] zeros. *)
Lemma digits_of_mul_pow10 a z :
  1 ≤ a → 0 ≤ z →
  digits_of (Z.to_N (a * 10 ^ z))
  = digits_of (Z.to_N a) ++ repeat_char "0" (Z.to_nat z).
Proof.
  intros Ha Hz. revert z Hz. apply natlike_ind.
  - rewrite Z.pow_0_r, Z.mul_1_r. simpl.
    induction (digits_of (Z.to_N a)) as [| ch s IH]; [done |].
    by rewrite append_cons, <- IH.
  - intros z Hz IH. rewrite Z2Nat.inj_succ by done.
    rewrite repeat_char_snoc, <- string_app_assoc, <- IH.
    assert (0 < 10 ^ z) by (apply Z.pow_pos_nonneg; lia).
    rewrite Z.pow_succ_r by done.
    rewrite digits_of_snoc_Z by nia.
    replace (a * (10 * 10 ^ z)) with (a * 10 ^ z * 10) by ring.
    by rewrite Z.div_mul, Z_mod_mult by lia.
Qed.

(** An integer is its digits without the zeros at the end, times a power
    of ten. *)
Lemma strip_zeros a :
  1 ≤ a → ∃ s0 t, 1 ≤ s0 ∧ 0 ≤ t ∧ a = s0 * 10 ^ t ∧ s0 mod 10 ≠ 0.
Proof.
  intros Ha. assert (0 ≤ a) as Hpos by lia. revert Ha.
  pattern a. apply Z_lt_induction; [clear a Hpos | exact Hpos].
  intros a IH Ha.
  destruct (Z.eq_dec (a mod 10) 0) as [Hz | Hnz].
  - pose proof (Z.div_mod a 10 ltac:(lia)) as Hdm. rewrite Hz in Hdm.
    destruct (IH (a / 10) ltac:(lia) ltac:(lia)) as (s0 & t & Hs0 & Ht & E & Hm).
    exists s0, (t + 1). split; [done |]. split; [lia |]. split; [| done].
    rewrite Z.pow_add_r by lia. change (10 ^ 1) with 10. lia.
  - exists a, 0. rewrite Z.pow_0_r. split_and!; [done | done | lia | done].
Qed.
End DigitCount.

Section Shortest.
Local Open Scope Z_scope.

(** When [s0 * 10^t0], of [K] digits, reads as a number, and is the only
    decimal of at most [K] digits that does, step 5 finds it. *)
Lemma shortest_digits_iff m e s0 t0 K :
  1 ≤ K → 10 ^ (K - 1) ≤ s0 < 10 ^ K →
  reads_as m e s0 t0 = true →
  (∀ s h k, 1 ≤ k ≤ K → 10 ^ (k - 1) ≤ s < 10 ^ k → reads_as m e s h = true →
            s = s0 ∧ h = t0 ∧ k = K) →
  ∀ n k s, shortest_digits m e n k s ↔ n = K + t0 ∧ k = K ∧ s = s0.
Proof.
  intros HK Hs0 Hreads Huniq n k s. split.
  - intros (Hk & Hs & Hr & Hmin).
    assert (k ≤ K) as HkK.
    { apply (Hmin (K + t0) K s0); [done | done |].
      by replace (K + t0 - K) with t0 by lia. }
    destruct (Huniq s (n - k) k ltac:(lia) Hs Hr) as (-> & Ht & ->).
    split; [lia | done].
  - intros (-> & -> & ->). split; [done |]. split; [done |].
    split; [by replace (K + t0 - K) with t0 by lia |].
    intros n' k' s' Hk' Hs' Hr'.
    destruct (Z.le_gt_cases K k') as [Hle | Hgt]; [done |].
    destruct (Huniq s' (n' - k') k' ltac:(lia) Hs' Hr') as (_ & _ & ->). lia.
Qed.
End Shortest.

(** *** Whole numbers *)

Section IntegerText.
Local Open Scope string_scope.
Local Open Scope Z_scope.

Lemma pow10_lt_inv a b : 0 ≤ b → 10 ^ a < 10 ^ b → a < b.
Proof. intros Hb H. apply (Z.pow_lt_mono_r_iff 10); [lia | done | done]. Qed.

(** The digits that step 5 finds for a whole number below [10^15]. *)
Lemma shortest_digits_integer N s0 z :
  1 ≤ N < 10 ^ 15 → 1 ≤ s0 → 0 ≤ z → N = s0 * 10 ^ z → s0 mod 10 ≠ 0 →
  ∃ m e, num_of_Z N = S754_finite false m e
    ∧ ∀ n k s, shortest_digits m e n k s
               ↔ n = digits_count s0 + z ∧ k = digits_count s0 ∧ s = s0.
Proof.
  intros HN Hs0 Hz E Hmod.
  assert (0 < N < 2 ^ 53) as HN53.
  { change (10 ^ 15) with 1000000000000000 in HN.
    change (2 ^ 53) with 9007199254740992. lia. }
  rewrite (num_of_Z_canonical N HN53). unfold canonical.
  pose proof (Z.log2_spec N ltac:(lia)) as Hlog.
  assert (Z.log2 N ≤ 49) as Hlog49.
  { assert (Z.log2 N < 50); [| lia]. apply Z.log2_lt_pow2; [lia |].
    change (10 ^ 15) with 1000000000000000 in HN.
    change (2 ^ 50) with 1125899906842624. lia. }
  assert (0 ≤ Z.log2 N) as Hlog0 by apply Z.log2_nonneg.
  set (j := 52 - Z.log2 N) in *.
  assert (0 < 2 ^ j) as Hj by (apply Z.pow_pos_nonneg; lia).
  assert (2 ^ 52 = 2 ^ Z.log2 N * 2 ^ j) as H52.
  { rewrite <- Z.pow_add_r by lia. f_equal. lia. }
  set (m := Z.to_pos (N * 2 ^ j)).
  assert (Z.pos m = N * 2 ^ j) as Hm by (unfold m; rewrite Z2Pos.id; nia).
  exists m, (0 - j). split; [done |].
  destruct (digits_count_bounds s0 Hs0) as [HK Hbounds].
  set (K := digits_count s0) in *.
  assert (0 < 10 ^ z) as Hz10 by (apply Z.pow_pos_nonneg; lia).
  assert (0 < 10 ^ (K - 1)) as HK10 by (apply Z.pow_pos_nonneg; lia).
  assert (K + z ≤ 15) as HKz.
  { assert (K - 1 + z < 15); [| lia]. apply pow10_lt_inv; [lia |].
    rewrite Z.pow_add_r by lia. nia. }
  assert (10 ^ K ≤ 10 ^ 15) as HK15 by (apply Z.pow_le_mono_r; lia).
  assert (2 ^ (1 - (0 - j)) = 2 * 2 ^ j) as HP.
  { replace (1 - (0 - j)) with (1 + j) by lia. by rewrite Z.pow_add_r by lia. }
  assert (N * 2 ^ (1 - (0 - j)) = 2 * Z.pos m) as Hexact by (rewrite HP, Hm; ring).
  assert (2 ^ 3 ≤ 2 ^ j) as Hj3 by (apply Z.pow_le_mono_r; lia).
  apply shortest_digits_iff; [done | done | |].
  - unfold reads_as. rewrite (proj2 (Z.leb_le 0 z)) by done. rewrite <- E.
    apply rounds_to_inside; [lia | lia | |]; rewrite Z.mul_1_r, Hexact; lia.
  - intros s h k Hk Hs Hreads.
    assert (2 ^ 52 ≤ Z.pos m) as H1.
    { rewrite Hm. change (2 ^ 52) with 4503599627370496 in *. nia. }
    assert (2 * 1 < 2 ^ (1 - (0 - j))) as H2.
    { rewrite HP. change (2 ^ 3) with 8 in Hj3. lia. }
    assert (2 * 1 * 10 ^ K ≤ 2 ^ 53 - 1) as H3.
    { change (2 ^ 53) with 9007199254740992.
      change (10 ^ 15) with 1000000000000000 in HK15. lia. }
    assert ((2 * Z.pos m - 1) * 1 ≤ N * 2 ^ (1 - (0 - j)) ≤ (2 * Z.pos m + 1) * 1)
      as H4 by (rewrite Hexact; lia).
    assert (N * 10 ^ Z.max 0 (- z) = s0 * 1 * 10 ^ Z.max 0 z) as H5.
    { rewrite (Z.max_l 0 (- z)), (Z.max_r 0 z) by lia. rewrite Z.pow_0_r. lia. }
    exact (reads_unique m (0 - j) N 1 s0 z K s h k H1 ltac:(lia) ltac:(lia)
             H2 H3 H4 H5 Hmod Hbounds Hk Hs Hreads).
Qed.

(** The text of a whole number below [10^15] is its decimal digits. *)
Lemma Number_toString_integer N text :
  0 ≤ N < 10 ^ 15 →
  Number_toString (num_of_Z N) text ↔ text = digits_of (Z.to_N N).
Proof.
  intros HN. destruct (Z.eq_dec N 0) as [-> | Hne]; [done |].
  destruct (strip_zeros N ltac:(lia)) as (s0 & z & Hs0 & Hz & E & Hmod).
  destruct (shortest_digits_integer N s0 z ltac:(lia) Hs0 Hz E Hmod)
    as (m & e & -> & Hiff).
  destruct (digits_count_bounds s0 Hs0) as [HK Hbounds].
  set (K := digits_count s0) in *.
  assert (digits_text (K + z) K s0 = digits_of (Z.to_N N)) as Htext.
  { assert (0 < 10 ^ z) as Hz10 by (apply Z.pow_pos_nonneg; lia).
    assert (0 < 10 ^ (K - 1)) as HK10 by (apply Z.pow_pos_nonneg; lia).
    assert (K + z ≤ 15) as HKz.
    { assert (K - 1 + z < 15); [| lia]. apply pow10_lt_inv; [lia |].
      rewrite Z.pow_add_r by lia. nia. }
    unfold digits_text.
    rewrite (proj2 (Z.leb_le (-5) (K + z))), (proj2 (Z.leb_le (K + z) 21)) by lia.
    rewrite (proj2 (Z.leb_le K (K + z))) by lia. cbn [andb].
    replace (K + z - K) with z by lia.
    by rewrite E, digits_of_mul_pow10. }
  cbn [Number_toString]. split.
  - intros (n & k & s & Hshort & ->). apply Hiff in Hshort as (-> & -> & ->).
    by rewrite append_nil.
  - intros ->. exists (K + z), K, s0. split; [by apply Hiff |].
    by rewrite append_nil.
Qed.
End IntegerText.

(** *** Numbers written with two decimals *)

Section DivisionNearest.
Local Open Scope Z_scope.

(** The quotient of two positive normal numbers, the divisor of an even
    significand: a normal number within half a unit of the last place of
    the exact quotient, and not above it when the rounding keeps the
    number of bits of the integer quotient [q]. *)
Lemma num_div_nearest m1 e1 m2 e2 :
  Z.log2 (Z.pos m1) = 52 → Z.log2 (Z.pos m2) = 52 → Z.even (Z.pos m2) = true →
  emin64 ≤ e1 - e2 - 53 → e1 - e2 - 53 + 2 ≤ emax - prec →
  ∃ m' sh0 sh q,
    num_div (S754_finite false m1 e1) (S754_finite false m2 e2)
      = S754_finite false m' (e1 - e2 - 53 + sh)
    ∧ Z.log2 (Z.pos m') = 52
    ∧ 0 ≤ sh0 ≤ 1 ∧ sh0 ≤ sh ≤ sh0 + 1
    ∧ 2 ^ (52 + sh0) ≤ q ∧ q * Z.pos m2 ≤ Z.pos m1 * 2 ^ 53
    ∧ 2 * Z.abs (Z.pos m' * 2 ^ sh * Z.pos m2 - Z.pos m1 * 2 ^ 53)
      ≤ 2 ^ sh0 * Z.pos m2.
Proof.
  intros Hl1 Hl2 Heven Hlo Hhi.
  unfold num_div, SFdiv, SFdiv_core_binary. cbn [xorb].
  rewrite !(Zdigits2_log2 _ (Pos2Z.is_pos _)), Hl1, Hl2.
  rewrite fexp_normal by (unfold prec; lia).
  replace (52 + 1 + e1 - (52 + 1 + e2) - prec) with (e1 - e2 - 53)
    by (unfold prec; lia).
  rewrite Z.min_l by lia.
  replace (e1 - e2 - (e1 - e2 - 53)) with 53 by lia.
  rewrite Z.shiftl_mul_pow2 by lia.
  apply log2_52_bounds in Hl1; [| lia]. apply log2_52_bounds in Hl2; [| lia].
  set (N := Z.pos m1 * 2 ^ 53). set (D := Z.pos m2) in *.
  pose proof (Z.div_eucl_eq N D ltac:(lia)) as Heq.
  pose proof (Z.mod_pos_bound N D ltac:(lia)) as Hr.
  unfold Z.modulo in Hr.
  destruct (Z.div_eucl N D) as [q r].
  assert (2 ^ 52 ≤ q < 2 ^ 54) as Hq.
  { unfold N in Heq. change (2 ^ 54) with (2 * 2 ^ 53). split; nia. }
  assert (0 < q) as Hqpos by lia.
  set (sh0 := Z.log2 q - 52).
  assert (0 ≤ sh0 ≤ 1) as Hsh0.
  { unfold sh0. split.
    - assert (52 ≤ Z.log2 q) by (apply Z.log2_le_pow2; lia). lia.
    - assert (Z.log2 q < 54) by (apply Z.log2_lt_pow2; lia). lia. }
  destruct (binary_round_aux_location q (e1 - e2 - 53) D r sh0)
    as (m' & sh & Hres & Hlog & Hsh & Herr);
    try (unfold sh0; lia); try assumption.
  exists m', sh0, sh, q. rewrite Hres.
  assert (2 ^ (52 + sh0) ≤ q) as Hqlo.
  { replace (52 + sh0) with (Z.log2 q) by (unfold sh0; lia).
    apply Z.log2_spec. lia. }
  rewrite Heq. replace (D * q + r) with (q * D + r) by ring.
  split_and!; try done; lia.
Qed.

(** The number written [c / 100], for [1 <= c <= 10^11], is the Number
    value for [c / 100]. *)
Lemma decimal2_rounds_to c :
  1 ≤ c ≤ max_total_cents →
  ∃ m e, decimal c 2 = S754_finite false m e
    ∧ 2 ^ 52 ≤ Z.pos m ∧ e ≤ -21
    ∧ rounds_to m e c 100 = true.
Proof.
  intros Hc. unfold max_total_cents in Hc.
  change (10 ^ 11) with 100000000000 in Hc.
  assert (0 < c < 2 ^ 53) as Hc53 by (change (2 ^ 53) with 9007199254740992; lia).
  pose proof (log2_lt_53 c Hc53) as Hlog.
  assert (Z.log2 c ≤ 36) as Hlog36.
  { assert (Z.log2 c < 37); [| lia]. apply Z.log2_lt_pow2; [lia |].
    change (2 ^ 37) with 137438953472. lia. }
  pose proof (Z.log2_spec c ltac:(lia)) as Hspec.
  unfold decimal. rewrite (num_of_Z_canonical c Hc53).
  change (num_of_Z (10 ^ Z.of_nat 2)) with (S754_finite false 7036874417766400 (-46)).
  unfold canonical. set (j := 52 - Z.log2 c) in *.
  assert (0 < 2 ^ j) as Hj by (apply Z.pow_pos_nonneg; lia).
  assert (0 < c * 2 ^ j) as Hm1 by (apply Z.mul_pos_pos; lia).
  destruct (num_div_nearest (Z.to_pos (c * 2 ^ j)) (0 - j) 7036874417766400 (-46))
    as (m' & sh0 & sh & q & Hres & Hlogm & Hsh0 & Hsh & Hq & HqD & Herr).
  { rewrite Z2Pos.id by lia. rewrite Z.log2_mul_pow2 by lia. lia. }
  { reflexivity. }
  { reflexivity. }
  { unfold emin64, emin, emax, prec. lia. }
  { unfold emax, prec. lia. }
  fold (num_div (S754_finite false (Z.to_pos (c * 2 ^ j)) (0 - j))
                (S754_finite false 7036874417766400 (-46))).
  rewrite Hres. rewrite Z2Pos.id in Herr, HqD by lia.
  set (e := 0 - j - -46 - 53 + sh) in *.
  exists m', e.
  apply log2_52_bounds in Hlogm; [| lia].
  assert (e ≤ -21) as He by (unfold e; lia).
  split; [done |]. split; [lia |]. split; [done |].
  (* in units of [2^e / 2]: [Y] is [c / 100 * 100], [200 * m'] is the number *)
  set (Y := c * 2 ^ (1 - e)).
  assert (0 < 2 ^ sh) as Hsh2 by (apply Z.pow_pos_nonneg; lia).
  assert (0 < 2 ^ sh0) as Hsh02 by (apply Z.pow_pos_nonneg; lia).
  assert (Y * 2 ^ sh = c * 2 ^ j * 2 ^ 8) as HY.
  { unfold Y. rewrite <- Z.mul_assoc, <- Z.pow_add_r by lia.
    rewrite <- Z.mul_assoc, <- Z.pow_add_r by lia. do 2 f_equal. unfold e. lia. }
  assert (Z.pos m' * 2 ^ sh * 7036874417766400 - c * 2 ^ j * 2 ^ 53
          = 2 ^ sh * 35184372088832 * (200 * Z.pos m' - Y)) as Hdiff.
  { change (2 ^ 53) with (2 ^ 8 * 35184372088832).
    replace (c * 2 ^ j * (2 ^ 8 * 35184372088832))
      with (c * 2 ^ j * 2 ^ 8 * 35184372088832) by ring.
    rewrite <- HY. ring. }
  rewrite Hdiff in Herr.
  rewrite Z.abs_mul, (Z.abs_eq (2 ^ sh * 35184372088832)) in Herr by lia.
  assert (2 ^ sh * Z.abs (200 * Z.pos m' - Y) ≤ 2 ^ sh0 * 100) as Hbound by lia.
  (* [Y] is a multiple of 8 *)
  assert (∃ y, Y = 8 * y) as [y Hy].
  { exists (c * 2 ^ (1 - e - 3)). unfold Y.
    replace (1 - e) with (3 + (1 - e - 3)) at 1 by lia.
    rewrite Z.pow_add_r by lia. change (2 ^ 3) with 8. ring. }
  assert (sh = sh0 ∨ sh = sh0 + 1) as [Hsame | Hcarry] by lia.
  - subst sh. assert (Z.abs (200 * Z.pos m' - Y) ≤ 100) as Hb.
    { apply (Z.mul_le_mono_pos_l _ _ (2 ^ sh0)); [done | exact Hbound]. }
    apply rounds_to_inside; [lia | lia | fold Y; lia |].
    intros Hpow. fold Y.
    (* no carry: the number is not above the exact quotient *)
    assert (Z.pos m' * 2 ^ sh0 ≤ q) as Hmq.
    { rewrite Hpow, <- Z.pow_add_r by lia. exact Hq. }
    assert (Z.pos m' * 2 ^ sh0 * 7036874417766400 ≤ c * 2 ^ j * 2 ^ 53) as Hle.
    { etransitivity; [| exact HqD].
      apply Z.mul_le_mono_nonneg_r; [lia | exact Hmq]. }
    assert (2 ^ sh0 * 35184372088832 * (200 * Z.pos m' - Y) ≤ 0) as Hnonpos
      by (clear - Hle Hdiff; lia).
    assert (200 * Z.pos m' - Y ≤ 0); [| lia].
    apply (Z.mul_le_mono_pos_l _ _ (2 ^ sh0 * 35184372088832)); [lia |].
    clear - Hnonpos. lia.
  - subst sh. rewrite Z.pow_add_r in Hbound by lia. change (2 ^ 1) with 2 in Hbound.
    assert (Z.abs (200 * Z.pos m' - Y) ≤ 50) as Hb.
    { apply (Z.mul_le_mono_pos_l _ _ (2 ^ sh0 * 2)); [lia |].
      clear - Hbound. lia. }
    apply rounds_to_inside; [lia | lia | fold Y; lia |].
    intros _. fold Y. lia.
Qed.
End DivisionNearest.

Section PlainMoney.
Local Open Scope string_scope.
Local Open Scope Z_scope.

(** The digits that step 5 finds for the number written [c / 100]. *)
Lemma shortest_digits_decimal2 c s0 t :
  1 ≤ c ≤ max_total_cents → 1 ≤ s0 → 0 ≤ t → c = s0 * 10 ^ t → s0 mod 10 ≠ 0 →
  ∃ m e, decimal c 2 = S754_finite false m e
    ∧ ∀ n k s, shortest_digits m e n k s
               ↔ n = digits_count s0 + (t - 2) ∧ k = digits_count s0 ∧ s = s0.
Proof.
  intros Hc Hs0 Ht E Hmod.
  destruct (decimal2_rounds_to c Hc) as (m & e & -> & Hm & He & Hround).
  exists m, e. split; [done |].
  unfold max_total_cents in Hc. change (10 ^ 11) with 100000000000 in Hc.
  destruct (digits_count_bounds s0 Hs0) as [HK Hbounds].
  set (K := digits_count s0) in *.
  assert (0 < 10 ^ t) as Ht10 by (apply Z.pow_pos_nonneg; lia).
  assert (0 < 10 ^ (K - 1)) as HK10 by (apply Z.pow_pos_nonneg; lia).
  assert (K + t ≤ 12) as HKt.
  { assert (K - 1 + t < 12); [| lia]. apply pow10_lt_inv; [lia |].
    rewrite Z.pow_add_r by lia. change (10 ^ 12) with 1000000000000. nia. }
  assert (10 ^ K ≤ 10 ^ 12) as HK12 by (apply Z.pow_le_mono_r; lia).
  assert (c * 10 ^ Z.max 0 (- (t - 2)) = s0 * 100 * 10 ^ Z.max 0 (t - 2)) as Hrepr.
  { destruct (Z.le_gt_cases 2 t) as [Hge | Hlt].
    - rewrite (Z.max_l 0 (- (t - 2))), (Z.max_r 0 (t - 2)) by lia.
      rewrite Z.pow_0_r, Z.mul_1_r, E.
      replace t with (2 + (t - 2)) at 1 by lia. rewrite Z.pow_add_r by lia.
      change (10 ^ 2) with 100. ring.
    - rewrite (Z.max_r 0 (- (t - 2))), (Z.max_l 0 (t - 2)) by lia.
      rewrite Z.pow_0_r, Z.mul_1_r, E.
      assert (t = 0 ∨ t = 1) as [-> | ->] by lia.
      + change (10 ^ 0) with 1. change (10 ^ (- (0 - 2))) with 100. ring.
      + change (10 ^ 1) with 10. change (10 ^ (- (1 - 2))) with 10. ring. }
  assert (0 < 10 ^ Z.max 0 (- (t - 2))) as Hp1 by (apply Z.pow_pos_nonneg; lia).
  assert (0 < 10 ^ Z.max 0 (t - 2)) as Hp2 by (apply Z.pow_pos_nonneg; lia).
  apply shortest_digits_iff; [done | done | |].
  - unfold reads_as. rewrite <- Hround.
    destruct (Z.leb_spec 0 (t - 2)) as [Hge | Hlt].
    + apply rounds_to_eq; [lia | lia |].
      rewrite (Z.max_l 0 (- (t - 2))), (Z.max_r 0 (t - 2)) in Hrepr by lia.
      rewrite Z.pow_0_r in Hrepr. lia.
    + apply rounds_to_eq; [apply Z.pow_pos_nonneg; lia | lia |].
      rewrite (Z.max_r 0 (- (t - 2))), (Z.max_l 0 (t - 2)) in Hrepr by lia.
      rewrite Z.pow_0_r in Hrepr. lia.
  - intros s h k Hk Hs Hreads.
    assert (2 ^ 22 ≤ 2 ^ (1 - e)) as HP by (apply Z.pow_le_mono_r; lia).
    assert (2 * 100 < 2 ^ (1 - e)) as H2 by (change (2 ^ 22) with 4194304 in HP; lia).
    assert (2 * 100 * 10 ^ K ≤ 2 ^ 53 - 1) as H3.
    { change (2 ^ 53) with 9007199254740992.
      change (10 ^ 12) with 1000000000000 in HK12. lia. }
    pose proof (rounds_to_bound m e c 100 ltac:(lia) ltac:(lia) Hround) as H4.
    exact (reads_unique m e c 100 s0 (t - 2) K s h k Hm ltac:(lia) ltac:(lia)
             H2 H3 H4 Hrepr Hmod Hbounds Hk Hs Hreads).
Qed.

(** Below one dollar: every case, by computation. *)
Lemma plain_money_small :
  forallb (λ i, let s0 := Z.of_nat i in
                (s0 mod 10 =? 0)
                || (String.eqb (digits_text (digits_count s0 + (0 - 2))
                                  (digits_count s0) s0)
                      (plain_money s0)
                    && ((10 <=? s0)
                        || String.eqb (digits_text (digits_count s0 + (1 - 2))
                                         (digits_count s0) s0)
                             (plain_money (s0 * 10)))))
          (seq 1 99) = true.
Proof. vm_compute. reflexivity. Qed.

(** The text of the digits that step 5 finds. *)
Lemma digits_text_decimal2 c s0 t :
  1 ≤ c ≤ max_total_cents → 1 ≤ s0 → 0 ≤ t → c = s0 * 10 ^ t → s0 mod 10 ≠ 0 →
  digits_text (digits_count s0 + (t - 2)) (digits_count s0) s0 = plain_money c.
Proof.
  intros Hc Hs0 Ht E Hmod.
  unfold max_total_cents in Hc. change (10 ^ 11) with 100000000000 in Hc.
  destruct (digits_count_bounds s0 Hs0) as [HK Hbounds].
  assert (0 < 10 ^ t) as Ht10 by (apply Z.pow_pos_nonneg; lia).
  assert (0 < 10 ^ (digits_count s0 - 1)) as HK10 by (apply Z.pow_pos_nonneg; lia).
  assert (digits_count s0 + t ≤ 12) as HKt.
  { assert (digits_count s0 - 1 + t < 12); [| lia]. apply pow10_lt_inv; [lia |].
    rewrite Z.pow_add_r by lia. change (10 ^ 12) with 1000000000000. nia. }
  pose proof (Z.mod_pos_bound s0 10 ltac:(lia)) as Hm10.
  destruct (Z.le_gt_cases 2 t) as [Ht2 | Ht2].
  - (* whole dollars *)
    assert (c = s0 * 10 ^ (t - 2) * 100) as Ec.
    { rewrite E. replace t with (t - 2 + 2) at 1 by lia.
      rewrite Z.pow_add_r by lia. change (10 ^ 2) with 100. ring. }
    unfold plain_money. rewrite Ec, Z_mod_mult, Z.div_mul by lia.
    change (0 =? 0) with true. cbv iota.
    unfold digits_text.
    rewrite (proj2 (Z.leb_le (-5) _)), (proj2 (Z.leb_le _ 21)) by lia.
    rewrite (proj2 (Z.leb_le (digits_count s0) _)) by lia. cbn [andb].
    replace (digits_count s0 + (t - 2) - digits_count s0) with (t - 2) by lia.
    by rewrite digits_of_mul_pow10 by lia.
  - assert (t = 0 ∨ t = 1) as [-> | ->] by lia.
    + (* cents that do not end with a zero *)
      rewrite Z.pow_0_r, Z.mul_1_r in E. subst c.
      destruct (Z.lt_ge_cases s0 100) as [Hsmall | Hlarge].
      { pose proof plain_money_small as H. rewrite forallb_forall in H.
        specialize (H (Z.to_nat s0)). rewrite Z2Nat.id in H by lia.
        cbv zeta in H. rewrite (proj2 (Z.eqb_neq _ _) Hmod) in H.
        cbn [orb] in H. apply andb_prop in H as [H _].
        - by apply String.eqb_eq.
        - apply in_seq. lia. }
      unfold plain_money.
      assert (s0 mod 100 ≠ 0) as Hm100.
      { intros Hz. apply Hmod.
        pose proof (Z.div_mod s0 100 ltac:(lia)) as H. rewrite Hz in H.
        replace s0 with (10 * (s0 / 100) * 10) by lia. apply Z_mod_mult. }
      rewrite (proj2 (Z.eqb_neq _ _) Hm100), (proj2 (Z.eqb_neq _ _) Hmod).
      assert (10 ≤ s0 / 10) as Hq by (apply Z.div_le_lower_bound; lia).
      assert (digits_of (Z.to_N s0)
              = digits_of (Z.to_N (s0 / 100))
                ++ String (digit_char (s0 / 10 mod 10))
                     (String (digit_char (s0 mod 10)) "")) as Hds.
      { rewrite (digits_of_snoc_Z s0), (digits_of_snoc_Z (s0 / 10)) by lia.
        rewrite Z.div_div by lia. change (10 * 10) with 100.
        by rewrite string_app_assoc. }
      set (w := digits_of (Z.to_N (s0 / 100))) in *.
      assert (digits_count s0 = Z.of_nat (String.length w) + 2) as Hcount.
      { unfold digits_count. rewrite Hds, length_string_app.
        cbn [String.length]. lia. }
      unfold digits_text, money. fold w. rewrite Hds, Hcount.
      replace (Z.of_nat (String.length w) + 2 + (0 - 2))
        with (Z.of_nat (String.length w)) by lia.
      pose proof (length_digits_of (Z.to_N (s0 / 100))) as Hw. fold w in Hw.
      rewrite (proj2 (Z.leb_le (-5) _)), (proj2 (Z.leb_le _ 21)) by lia.
      rewrite (proj2 (Z.leb_gt _ _)) by lia.
      rewrite (proj2 (Z.ltb_lt 0 _)) by lia. cbn [andb].
      by rewrite Nat2Z.id, take_string_app, drop_string_app.
    + (* cents that end with one zero *)
      change (10 ^ 1) with 10 in E. subst c.
      destruct (Z.lt_ge_cases s0 10) as [Hsmall | Hlarge].
      { pose proof plain_money_small as H. rewrite forallb_forall in H.
        specialize (H (Z.to_nat s0)). rewrite Z2Nat.id in H by lia.
        cbv zeta in H. rewrite (proj2 (Z.eqb_neq _ _) Hmod) in H.
        cbn [orb] in H. rewrite (proj2 (Z.leb_gt _ _) Hsmall) in H.
        cbn [orb] in H. apply andb_prop in H as [_ H].
        - by apply String.eqb_eq.
        - apply in_seq. lia. }
      unfold plain_money.
      pose proof (Z.div_mod s0 10 ltac:(lia)) as Hdm.
      assert ((s0 * 10) mod 100 ≠ 0) as Hm100.
      { intros Hz. pose proof (Z.div_mod (s0 * 10) 100 ltac:(lia)) as H.
        rewrite Hz in H. lia. }
      rewrite (proj2 (Z.eqb_neq _ _) Hm100), Z_mod_mult.
      change (0 =? 0) with true. cbv iota.
      rewrite Z.div_mul by lia.
      assert (s0 * 10 / 100 = s0 / 10) as ->.
      { rewrite <- (Z.div_div _ 10 10) by lia. by rewrite Z.div_mul by lia. }
      pose proof (digits_of_snoc_Z s0 Hlarge) as Hds.
      set (w := digits_of (Z.to_N (s0 / 10))) in *.
      assert (digits_count s0 = Z.of_nat (String.length w) + 1) as Hcount.
      { unfold digits_count. rewrite Hds, length_string_app.
        cbn [String.length]. lia. }
      unfold digits_text. rewrite Hds, Hcount.
      replace (Z.of_nat (String.length w) + 1 + (1 - 2))
        with (Z.of_nat (String.length w)) by lia.
      pose proof (length_digits_of (Z.to_N (s0 / 10))) as Hw. fold w in Hw.
      rewrite (proj2 (Z.leb_le (-5) _)), (proj2 (Z.leb_le _ 21)) by lia.
      rewrite (proj2 (Z.leb_gt _ _)) by lia.
      rewrite (proj2 (Z.ltb_lt 0 _)) by lia. cbn [andb].
      by rewrite Nat2Z.id, take_string_app, drop_string_app.
Qed.

(** The text of the number written [c / 100]. *)
Lemma Number_toString_decimal2 c text :
  0 ≤ c ≤ max_total_cents →
  Number_toString (decimal c 2) text ↔ text = plain_money c.
Proof.
  intros Hc. destruct (Z.eq_dec c 0) as [-> | Hne]; [done |].
  destruct (strip_zeros c ltac:(lia)) as (s0 & t & Hs0 & Ht & E & Hmod).
  destruct (shortest_digits_decimal2 c s0 t ltac:(lia) Hs0 Ht E Hmod)
    as (m & e & -> & Hiff).
  pose proof (digits_text_decimal2 c s0 t ltac:(lia) Hs0 Ht E Hmod) as Htext.
  cbn [Number_toString]. split.
  - intros (n & k & s & Hshort & ->). apply Hiff in Hshort as (-> & -> & ->).
    by rewrite append_nil.
  - intros ->. exists (digits_count s0 + (t - 2)), (digits_count s0), s0.
    split; [by apply Hiff |]. by rewrite append_nil.
Qed.
End PlainMoney.

(** ** The texts of weights and prices *)

Section RawTexts.
Context {Id : Type}.
Local Open Scope string_scope.
Local Open Scope Z_scope.

(** X21. A weight that is a whole number of grams below [10^15] is shown
    as its decimal digits followed by ["g"], on the card of a package and
    in the row of an item: no point, no exponent, no other text is
    possible. *)
Theorem weights_in_grams (pkg : Package) (item : Item (Id := Id)) N text :
  0 ≤ N < 10 ^ 15 →
  (totalWeight pkg = num_of_Z N →
   card_weight pkg text ↔ text = digits_of (Z.to_N N) ++ "g")
  ∧ (item_weight item = num_of_Z N →
     row_weight item text ↔ text = digits_of (Z.to_N N) ++ "g").
Proof.
  intros HN. unfold card_weight, row_weight.
  split; intros ->; (split; [intros (t & Ht & ->) | intros ->]).
  - by apply Number_toString_integer in Ht as ->.
  - eexists. split; [by apply Number_toString_integer | done].
  - by apply Number_toString_integer in Ht as ->.
  - eexists. split; [by apply Number_toString_integer | done].
Qed.

(** X22. A price written with two decimals in the reply, [c / 100] with
    [0 <= c <= 10^11], is shown as returned, not with two decimals: the
    courier price of a card and the price of an item are ["$"] followed by
    the shortest decimal of the amount, the dollars alone when there are
    no cents and one digit of cents when the second is zero (5.00 gives
    ["$5"], 7.50 gives ["$7.5"], 12.34 gives ["$12.34"]). The total of the
    courier charges and the total price of a card are written by
    [toFixed(2)], with two decimals. *)
Theorem prices_as_returned (pkg : Package) (item : Item (Id := Id)) c text :
  0 ≤ c ≤ max_total_cents →
  (courierPrice pkg = decimal c 2 →
   card_courier_price pkg text ↔ text = "$" ++ plain_money c)
  ∧ (item_price item = decimal c 2 →
     row_price item text ↔ text = "$" ++ plain_money c).
Proof.
  intros Hc. unfold card_courier_price, row_price.
  split; intros ->; (split; [intros (t & Ht & ->) | intros ->]).
  - by apply Number_toString_decimal2 in Ht as ->.
  - eexists. split; [by apply Number_toString_decimal2 | done].
  - by apply Number_toString_decimal2 in Ht as ->.
  - eexists. split; [by apply Number_toString_decimal2 | done].
Qed.
End RawTexts.

(** X21, a run of it: the package A of 100 grams and the item A of 100
    grams are shown with ["100g"]. *)
Lemma weights_in_grams_witness :
  0 ≤ 100 < 10 ^ 15
  ∧ totalWeight Sample.pkg_A = num_of_Z 100
  ∧ card_weight Sample.pkg_A "100g"
  ∧ row_weight Sample.item_A "100g".
Proof.
  assert (0 ≤ 100 < 10 ^ 15) as HN by (by vm_compute).
  split; [exact HN |]. split; [reflexivity |].
  destruct (weights_in_grams Sample.pkg_A Sample.item_A 100 "100g" HN)
    as [Hcard Hrow].
  split; [by apply Hcard | by apply Hrow].
Defined.

(** X22, a run of it: the courier price 7.50 of the package B is shown
    as ["$7.5"], and the price 10.00 of the item A as ["$10"]. *)
Lemma prices_as_returned_witness :
  0 ≤ 750 ≤ max_total_cents
  ∧ courierPrice Sample.pkg_B = decimal 750 2
  ∧ card_courier_price Sample.pkg_B "$7.5"
  ∧ 0 ≤ 1000 ≤ max_total_cents
  ∧ row_price Sample.item_A "$10".
Proof.
  assert (0 ≤ 750 ≤ max_total_cents) as Hc by (by vm_compute).
  assert (0 ≤ 1000 ≤ max_total_cents) as Hc' by (by vm_compute).
  split; [exact Hc |]. split; [reflexivity |].
  split; [| split; [exact Hc' |]].
  - by apply (proj1 (prices_as_returned Sample.pkg_B Sample.item_A 750 "$7.5" Hc)).
  - by apply (proj2 (prices_as_returned Sample.pkg_B Sample.item_A 1000 "$10" Hc')).
Defined.
